(** * CoWork agent core: planner, executor, reflector, RLM executor, chunker

    A shallow embedding of the task-orchestration core of the CoWork
    application (TypeScript) together with the properties its design
    document states about it.

    Conventions of the embedding:
    - a JS string is a [string]; its [length] and [slice] count characters;
    - a JS [number] that counts (a depth, a size, the retries of a task)
      is a [nat]; a [number] that can be negative (a configured limit, a
      loop cursor, a clock reading, a duration) is a [Z];
    - [x || d] on an optional number is [orDefault] ([orDefaultZ] on a
      [Z]): an absent value and the falsy value [0] are both replaced by
      [d], and every other number is kept;
    - a [Map<string, V>] is a [gmap string V], a [Set<string>] a
      [gset string];
    - objects mutated in place and shared by reference (the [Task]s of a
      plan) live in a list and are addressed by their position;
    - a [throw] is the [Err] branch of [Result];
    - loops whose termination is not syntactic take fuel, and [None] means
      that the fuel ran out (never that the code failed). *)

From Stdlib Require Import ZArith QArith Ascii String List Lia Bool DecimalString DecimalNat.
From stdpp Require Import base option list gmap sets strings.

Set Warnings "-register-all,-clear-no-such-hyp".

Local Open Scope string_scope.
Local Open Scope list_scope.
Local Open Scope Z_scope.

(** ** Results of code that may throw *)

Inductive Result (A : Type) : Type :=
| Ok (a : A)
| Err (msg : string).
Arguments Ok {A} a.
Arguments Err {A} msg.

Definition rbind {A B : Type} (r : Result A) (k : A -> Result B) : Result B :=
  match r with
  | Ok a => k a
  | Err e => Err e
  end.

(** [x || d] for an optional count: [undefined] and [0] are falsy. *)
Definition orDefault (x : option nat) (d : nat) : nat :=
  match x with
  | Some (S n) => S n
  | _ => d
  end.

(** [x || d] for an optional signed number. *)
Definition orDefaultZ (x : option Z) (d : Z) : Z :=
  match x with
  | Some 0 => d
  | Some z => z
  | None => d
  end.

(** ** JS string primitives used by the code *)

Module JSString.

(** [ToIntegerOrInfinity] followed by the clamping of [String.prototype.slice]:
    a negative index counts from the end. *)
Definition clampIndex (len i : Z) : Z :=
  if i <? 0 then Z.max (len + i) 0 else Z.min i len.

(** [s.slice(start, end)]. *)
Definition slice (s : string) (start stop : Z) : string :=
  let len := Z.of_nat (String.length s) in
  let from := clampIndex len start in
  let to := clampIndex len stop in
  String.substring (Z.to_nat from) (Z.to_nat (Z.max (to - from) 0)) s.

(** [chunks.join('')]. *)
Definition join (chunks : list string) : string :=
  fold_right String.append EmptyString chunks.

End JSString.

(** ** Chunker (DataChunker) *)

Module Chunker.

Inductive ChunkMethod : Type :=
| FixedSize
| Semantic
| Structural
| Custom.

Record ChunkingStrategy : Type := {
  method : ChunkMethod;
  chunkSize : option Z;
  overlap : option Z;
  separator : option string;
  customChunker : option (string -> list string);
}.

(** The [while (start < text.length)] loop of [fixedSizeChunking], entered
    with the cursor [start] and the chunks pushed so far. *)
Fixpoint fixedSizeLoop (fuel : nat) (text : string) (size ovl start : Z)
    (chunks : list string) : option (list string) :=
  match fuel with
  | O => None
  | S fuel' =>
      let len := Z.of_nat (String.length text) in
      if start <? len then
        let stop := Z.min (start + size) len in
        let chunks' := chunks ++ [JSString.slice text start stop] in
        let start' := stop - ovl in
        if start' >=? len - ovl then Some chunks'
        else fixedSizeLoop fuel' text size ovl start' chunks'
      else Some chunks
  end.

Definition fixedSizeChunking (fuel : nat) (text : string) (size ovl : Z)
    : option (list string) :=
  fixedSizeLoop fuel text size ovl 0 [].

(** The same loop with the bound of the engine on the length of an
    array, which [fixedSizeLoop] leaves out: [chunks.push] on an array
    that holds [limit] elements throws the [RangeError]
    ["Invalid array length"]. [None]: out of fuel. *)
Fixpoint fixedSizeLoopWithin (limit fuel : nat) (text : string) (size ovl start : Z)
    (chunks : list string) : option (Result (list string)) :=
  match fuel with
  | O => None
  | S fuel' =>
      let len := Z.of_nat (String.length text) in
      if start <? len then
        let stop := Z.min (start + size) len in
        if (limit <=? List.length chunks)%nat then Some (Err "Invalid array length")
        else
          let chunks' := chunks ++ [JSString.slice text start stop] in
          let start' := stop - ovl in
          if start' >=? len - ovl then Some (Ok chunks')
          else fixedSizeLoopWithin limit fuel' text size ovl start' chunks'
      else Some (Ok chunks)
  end.

Definition fixedSizeChunkingWithin (limit fuel : nat) (text : string) (size ovl : Z)
    : option (Result (list string)) :=
  fixedSizeLoopWithin limit fuel text size ovl 0 [].

(** [chunkArray]: [for (i = 0; i < data.length; i += chunkSize)]. *)
Fixpoint chunkArrayLoop {A : Type} (fuel : nat) (data : list A) (size i : Z)
    (chunks : list (list A)) : option (list (list A)) :=
  match fuel with
  | O => None
  | S fuel' =>
      let len := Z.of_nat (List.length data) in
      if i <? len then
        let from := JSString.clampIndex len i in
        let to := JSString.clampIndex len (i + size) in
        let piece := take (Z.to_nat (Z.max (to - from) 0)) (drop (Z.to_nat from) data) in
        chunkArrayLoop fuel' data size (i + size) (chunks ++ [piece])
      else Some chunks
  end.

Definition chunkArray {A : Type} (fuel : nat) (data : list A)
    (strategy : ChunkingStrategy) : option (list (list A)) :=
  chunkArrayLoop fuel data (orDefaultZ (chunkSize strategy) 10) 0 [].

(** Characters that end a sentence for [semanticChunking]: [[.!?]]. *)
Definition isTerminator (c : ascii) : bool :=
  (Ascii.eqb c "." || Ascii.eqb c "!" || Ascii.eqb c "?")%bool.

(** Where the scan of [/[^.!?]+[.!?]+/g] stands: before a match, inside
    the run of non-terminators, or inside the run of terminators. *)
Inductive ScanMode : Type :=
| Skipping
| InBody (cur : string)
| InTail (cur : string).

Definition snoc (s : string) (c : ascii) : string :=
  String.append s (String c EmptyString).

(** [text.match(/[^.!?]+[.!?]+/g)] as a list: every maximal run of
    non-terminators followed by a maximal run of terminators; a run of
    non-terminators that reaches the end of the text is no match. *)
Fixpoint matchSentences (mode : ScanMode) (text : string) : list string :=
  match text with
  | EmptyString =>
      match mode with
      | InTail cur => [cur]
      | _ => []
      end
  | String c rest =>
      match mode with
      | Skipping =>
          if isTerminator c then matchSentences Skipping rest
          else matchSentences (InBody (String c EmptyString)) rest
      | InBody cur =>
          if isTerminator c then matchSentences (InTail (snoc cur c)) rest
          else matchSentences (InBody (snoc cur c)) rest
      | InTail cur =>
          if isTerminator c then matchSentences (InTail (snoc cur c)) rest
          else cur :: matchSentences (InBody (String c EmptyString)) rest
      end
  end.

(** White space of [String.prototype.trim] among the code units below 256. *)
Definition isWhite (c : ascii) : bool :=
  let n := nat_of_ascii c in
  ((9 <=? n)%nat && (n <=? 13)%nat || (n =? 32)%nat || (n =? 160)%nat)%bool.

Fixpoint trimStart (s : string) : string :=
  match s with
  | String c rest => if isWhite c then trimStart rest else s
  | EmptyString => EmptyString
  end.

Fixpoint trimEnd (s : string) : string :=
  match s with
  | EmptyString => EmptyString
  | String c rest =>
      match trimEnd rest with
      | EmptyString => if isWhite c then EmptyString else String c EmptyString
      | rest' => String c rest'
      end
  end.

Definition trim (s : string) : string := trimEnd (trimStart s).

Definition strlen (s : string) : Z := Z.of_nat (String.length s).

(** The [for (const sentence of sentences)] loop of [semanticChunking]:
    returns the chunks pushed and the chunk being filled. *)
Fixpoint semanticLoop (sentences : list string) (targetSize : Z)
    (chunks : list string) (currentChunk : string) : list string * string :=
  match sentences with
  | [] => (chunks, currentChunk)
  | sentence :: rest =>
      if ((strlen currentChunk + strlen sentence >? targetSize)
          && (strlen currentChunk >? 0))%bool
      then semanticLoop rest targetSize (chunks ++ [trim currentChunk]) sentence
      else semanticLoop rest targetSize chunks (String.append currentChunk sentence)
  end.

Definition semanticChunking (text : string) (targetSize : Z) : list string :=
  let sentences :=
    match matchSentences Skipping text with
    | [] => [text]
    | ms => ms
    end in
  let '(chunks, currentChunk) := semanticLoop sentences targetSize [] EmptyString in
  if strlen currentChunk >? 0 then chunks ++ [trim currentChunk] else chunks.

(** [text.split(separator)] is a primitive of the host; it is a parameter
    of [structuralChunking]. *)
Definition structuralChunking (split : string -> string -> list string)
    (text sep : string) : list string :=
  List.filter (fun chunk => strlen chunk >? 0) (List.map trim (split text sep)).

(** [chunkString]. [None]: the fixed-size loop ran out of fuel. *)
Definition chunkString (split : string -> string -> list string) (fuel : nat)
    (data : string) (strategy : ChunkingStrategy) : option (Result (list string)) :=
  match method strategy with
  | FixedSize =>
      Ok <$> fixedSizeChunking fuel data (orDefaultZ (chunkSize strategy) 1000)
               (orDefaultZ (overlap strategy) 0)
  | Semantic => Some (Ok (semanticChunking data (orDefaultZ (chunkSize strategy) 1000)))
  | Structural =>
      Some (Ok (structuralChunking split data
                  (match separator strategy with
                   | Some EmptyString | None => String "010" (String "010" EmptyString)
                   | Some sep => sep
                   end)))
  | Custom =>
      match customChunker strategy with
      | None => Some (Err "Custom chunker function required")
      | Some f => Some (Ok (f data))
      end
  end.

End Chunker.

(** ** JSON values, as [JSON.parse] returns them *)

Inductive JSON : Type :=
| JNull
| JBool (b : bool)
| JNum (q : Q)
| JStr (s : string)
| JArr (items : list JSON)
| JObj (fields : list (string * JSON)).

Module Js.

(** The one-character string holding a double quote. *)
Definition dq : string := String (ascii_of_nat 34) EmptyString.
(** The one-character string holding a line feed. *)
Definition nl : string := String (ascii_of_nat 10) EmptyString.
(** The one-character string holding a backquote. *)
Definition bq : string := String (ascii_of_nat 96) EmptyString.

Definition cat (parts : list string) : string := String.concat EmptyString parts.

(** [String(n)] for a count. *)
Definition natToString (n : nat) : string := NilEmpty.string_of_uint (Nat.to_uint n).

(** [obj.key]: [None] is [undefined]. Reading a property of [null] throws;
    the callers below only read properties of objects. *)
Fixpoint assoc {A : Type} (key : string) (fields : list (string * A)) : option A :=
  match fields with
  | [] => None
  | (k, v) :: rest => if String.eqb k key then Some v else assoc key rest
  end.

Definition get (v : JSON) (key : string) : option JSON :=
  match v with
  | JObj fields => assoc key fields
  | _ => None
  end.

(** Truthiness of a parsed value. *)
Definition truthy (v : JSON) : bool :=
  match v with
  | JNull => false
  | JBool b => b
  | JNum q => negb (Qeq_bool q 0)
  | JStr s => negb (String.eqb s EmptyString)
  | JArr _ | JObj _ => true
  end.

(** [text.startsWith(p)], returning what follows the prefix. *)
Fixpoint stripPrefix (p s : string) : option string :=
  match p, s with
  | EmptyString, _ => Some s
  | String a p', String b s' => if Ascii.eqb a b then stripPrefix p' s' else None
  | String _ _, EmptyString => None
  end.

(** [l.slice(-n)]. *)
Definition lastN {A : Type} (n : nat) (l : list A) : list A :=
  drop (List.length l - n)%nat l.

(** [String(z)] for an integer. *)
Definition intToString (z : Z) : string := NilZero.string_of_int (Z.to_int z).

(** [{...obj, [key]: v}] for a key that is no array index: the value of
    an existing key changes in place, a new key goes last. *)
Fixpoint objSet {A : Type} (key : string) (v : A) (fields : list (string * A))
    : list (string * A) :=
  match fields with
  | [] => [(key, v)]
  | (k, x) :: rest =>
      if String.eqb k key then (k, v) :: rest else (k, x) :: objSet key v rest
  end.

(** The characters of a string, as [for (const c of s)] yields them. *)
Fixpoint chars (s : string) : list string :=
  match s with
  | EmptyString => []
  | String c rest => String c EmptyString :: chars rest
  end.

(** [parts.join(sep)]. *)
Definition joinWith (sep : string) (parts : list string) : string :=
  String.concat sep parts.

End Js.

(* ------------------------------------------------------------------ *)
(** ** Chunking of code and of files ([DataChunker.chunkCode], [chunkFiles]) *)

Module DataChunker.

Import Chunker.

(** [s.split(c)] for a one-character separator: the pieces between the
    occurrences of [c]; a string without [c] is its only piece. *)
Fixpoint splitChar (sep : ascii) (s : string) : list string :=
  match s with
  | EmptyString => [EmptyString]
  | String c rest =>
      if Ascii.eqb c sep then EmptyString :: splitChar sep rest
      else
        match splitChar sep rest with
        | piece :: pieces => String c piece :: pieces
        | [] => [String c EmptyString]
        end
  end.

(** The [for (const line of lines)] loop of [chunkCode]: returns the
    chunks pushed and the lines of the chunk being filled. *)
Fixpoint codeLoop (lines : list string) (maxSize : Z) (chunks : list string)
    (currentChunk : list string) (currentSize : Z) : list string * list string :=
  match lines with
  | [] => (chunks, currentChunk)
  | line :: rest =>
      let lineSize := strlen line + 1 in
      if ((currentSize + lineSize >? maxSize)
          && (0 <? length currentChunk)%nat)%bool
      then codeLoop rest maxSize (chunks ++ [Js.joinWith Js.nl currentChunk])
             [line] lineSize
      else codeLoop rest maxSize chunks (currentChunk ++ [line])
             (currentSize + lineSize)
  end.

(** [chunkCode(code, language, maxSize = 2000)]: the default applies to an
    absent argument only. *)
Definition chunkCode (code language : string) (maxSize : option Z) : list string :=
  let size := default 2000 maxSize in
  let '(chunks, currentChunk) := codeLoop (splitChar "010" code) size [] [] 0 in
  if (0 <? length currentChunk)%nat
  then chunks ++ [Js.joinWith Js.nl currentChunk]
  else chunks.

Definition codeExtensions : list string :=
  ["ts"; "tsx"; "js"; "jsx"; "py"; "java"; "go"; "rs"].

(** [path.split('.').pop() || '']. *)
Definition extension (path : string) : string :=
  List.last (splitChar "." path) EmptyString.

Definition isCode (path : string) : bool :=
  bool_decide (extension path ∈ codeExtensions).


End DataChunker.

(** ** Validation utilities (lib/utils/validation.ts) *)

Module Validation.

Definition isArray (v : JSON) : bool := match v with JArr _ => true | _ => false end.
Definition isObject (v : JSON) : bool := match v with JObj _ => true | _ => false end.
Definition isString (v : JSON) : bool := match v with JStr _ => true | _ => false end.

(** The callback of [data.tasks.every(...)] in [validateTaskPlan]. *)
Definition validTaskDefinition (task : JSON) : bool :=
  if negb (isObject task) then false
  else if negb (match Js.get task "description" with Some d => isString d | None => false end)
  then false
  else if (match Js.get task "tool" with Some t => negb (isString t) | None => false end)
  then false
  else if (match Js.get task "args" with Some a => negb (isObject a) | None => false end)
  then false
  else
    match Js.get task "dependencies" with
    | Some (JArr deps) => forallb isString deps
    | Some _ => false
    | None => true
    end.

Definition validateTaskPlan (data : JSON) : bool :=
  if negb (isObject data) then false
  else
    match Js.get data "tasks" with
    | Some (JArr tasks) => forallb validTaskDefinition tasks
    | _ => false
    end.

(** [safeJSONParse]: [jsonParse] is the host's [JSON.parse], [None] when
    it throws. *)
Definition safeJSONParse (jsonParse : string -> option JSON) (json : string)
    (validator : JSON -> bool) : option JSON :=
  match jsonParse json with
  | Some parsed => if validator parsed then Some parsed else None
  | None => None
  end.

(** White space of the regular-expression class [\s] below code unit 256. *)
Definition isSpace (c : ascii) : bool := Chunker.isWhite c.

Fixpoint skipSpace (s : string) : string :=
  match s with
  | String c rest => if isSpace c then skipSpace rest else s
  | EmptyString => EmptyString
  end.

Definition fence : string := Js.cat [Js.bq; Js.bq; Js.bq].

(** What may follow the captured group: [\s*] and the closing fence. *)
Definition closesFence (s : string) : bool :=
  match Js.stripPrefix fence (skipSpace s) with
  | Some _ => true
  | None => false
  end.

(** The lazy group [[\s\S]*?\}] read after an opening brace: the shortest
    text ending in a closing brace after which the fence closes. *)
Fixpoint lazyBody (s : string) : option string :=
  match s with
  | EmptyString => None
  | String c rest =>
      if (Ascii.eqb c "}" && closesFence rest)%bool then Some (String c EmptyString)
      else option_map (String c) (lazyBody rest)
  end.

(** A match of the code-block expression that starts exactly at [s]. *)
Definition fencedAt (s : string) : option string :=
  match Js.stripPrefix fence s with
  | None => None
  | Some afterFence =>
      let afterTag :=
        match Js.stripPrefix "json" afterFence with
        | Some r => r
        | None => afterFence
        end in
      match skipSpace afterTag with
      | String "{" body => option_map (String "{") (lazyBody body)
      | _ => None
      end
  end.

(** The leftmost match of the code-block expression: its group 1. *)
Fixpoint firstFenced (s : string) : option string :=
  match fencedAt s with
  | Some g => Some g
  | None =>
      match s with
      | EmptyString => None
      | String _ rest => firstFenced rest
      end
  end.

(** The text up to the last closing brace of [s], that brace included. *)
Fixpoint upToLastBrace (s : string) : option string :=
  match s with
  | EmptyString => None
  | String c rest =>
      match upToLastBrace rest with
      | Some r => Some (String c r)
      | None => if Ascii.eqb c "}" then Some (String c EmptyString) else None
      end
  end.

(** The match of [/\{[\s\S]*\}/]: from the first opening brace to the
    last closing brace after it. *)
Fixpoint greedyObject (s : string) : option string :=
  match s with
  | EmptyString => None
  | String c rest =>
      if Ascii.eqb c "{" then option_map (String c) (upToLastBrace rest)
      else greedyObject rest
  end.

(** [extractJSON]: [None] is [null]. *)
Definition extractJSON (text : string) : option string :=
  match firstFenced text with
  | Some g => Some g
  | None => greedyObject text
  end.

End Validation.

(** ** Agent types (lib/agent/types.ts) *)

Inductive TaskStatus : Type :=
| Pending
| InProgress
| Completed
| Failed
| Skipped.

#[global] Instance TaskStatus_eq_dec : EqDecision TaskStatus.
Proof. solve_decision. Defined.

(** A [Task]. The optional [subtasks] and [metadata] are read by none of
    the functions embedded here. *)
Record Task : Type := {
  id : string;
  description : string;
  status : TaskStatus;
  tool : option string;
  args : option (list (string * JSON));
  dependencies : option (list string);
  result : option JSON;
  error : option string;
  startTime : option Z;
  endTime : option Z;
  retries : option nat;
}.

Inductive PlanStrategy : Type :=
| Sequential
| Parallel
| Mixed.

Inductive PlanStatus : Type :=
| Planning
| Executing
| PlanCompleted
| PlanFailed.

Record TaskPlan : Type := {
  planId : string;
  originalRequest : string;
  tasks : list Task;
  strategy : PlanStrategy;
  createdAt : Z;
  planStatus : PlanStatus;
  completedTasks : nat;
  totalTasks : nat;
}.

Record Message : Type := {
  role : string;
  content : string;
}.

Record PlanningContext : Type := {
  conversationHistory : list Message;
  availableTools : list string;
}.

Record ReflectionResult : Type := {
  success : bool;
  (** [None] is [NaN]. *)
  confidence : option Q;
  issues : list JSON;
  suggestions : list JSON;
  shouldRetry : bool;
  alternativeApproach : option JSON;
}.

(** [task.dependencies] where the code has guarded against [undefined]. *)
Definition depsOf (t : Task) : list string := default [] (dependencies t).

(** ** Planner (lib/agent/planner.ts) *)

Module Planner.

(** What the planner takes from its environment: the backend behind
    [callLLM] (a response text, or a throw), the host's [JSON.parse]
    ([None] when it throws), and the values [nanoid()] and [Date.now()]
    return when a plan is built. *)
Record Env : Type := {
  callLLM : string -> Result string;
  jsonParse : string -> option JSON;
  nanoid : string;
  dateNow : Z;
}.

Definition buildPlanningPrompt (request : string) (context : PlanningContext) : string :=
  let q := Js.dq in
  let nl := Js.nl in
  Js.cat [
    "You are an AI task planner. Break down the following user request into concrete, executable subtasks."; nl;
    nl;
    "User Request: "; request; nl;
    nl;
    "Available Tools:"; nl;
    Js.joinWith nl (List.map (fun tool => Js.cat ["- "; tool]) (availableTools context)); nl;
    nl;
    "Conversation Context:"; nl;
    Js.joinWith nl
      (List.map (fun msg => Js.cat [role msg; ": "; JSString.slice (content msg) 0 200])
         (Js.lastN 3 (conversationHistory context))); nl;
    nl;
    "Requirements:"; nl;
    "1. Each task should use ONE tool"; nl;
    "2. Tasks should be atomic and specific"; nl;
    "3. Specify dependencies between tasks (which tasks must complete first)"; nl;
    "4. Keep it simple - prefer fewer tasks over many small ones"; nl;
    "5. Consider parallel execution opportunities"; nl;
    nl;
    "Output Format (JSON):"; nl;
    "{"; nl;
    "  "; q; "tasks"; q; ": ["; nl;
    "    {"; nl;
    "      "; q; "description"; q; ": "; q; "Read the user configuration file"; q; ","; nl;
    "      "; q; "tool"; q; ": "; q; "read_file"; q; ","; nl;
    "      "; q; "args"; q; ": { "; q; "path"; q; ": "; q; "config.json"; q; " },"; nl;
    "      "; q; "dependencies"; q; ": []"; nl;
    "    },"; nl;
    "    {"; nl;
    "      "; q; "description"; q; ": "; q; "Update the theme setting"; q; ","; nl;
    "      "; q; "tool"; q; ": "; q; "write_file"; q; ","; nl;
    "      "; q; "args"; q; ": { "; q; "path"; q; ": "; q; "config.json"; q; ", ";
               q; "content"; q; ": "; q; "..."; q; " },"; nl;
    "      "; q; "dependencies"; q; ": ["; q; "task-0"; q; "]"; nl;
    "    }"; nl;
    "  ],"; nl;
    "  "; q; "reasoning"; q; ": "; q; "Brief explanation of the plan"; q; nl;
    "}"; nl;
    nl;
    "Respond ONLY with valid JSON."
  ].

Definition asString (v : option JSON) : option string :=
  match v with
  | Some (JStr s) => Some s
  | _ => None
  end.

Definition asStrings (v : JSON) : list string :=
  match v with
  | JArr items =>
      List.map (fun d => match d with JStr s => s | _ => EmptyString end) items
  | _ => []
  end.

(** The callback of [planData.tasks.map((t, idx) => ...)], applied to a
    task definition that passed [validateTaskPlan]. The warning logged
    for an unknown tool changes nothing. *)
Definition toTask (idx : nat) (t : JSON) : Task :=
  {| id := Js.cat ["task-"; Js.natToString idx];
     description :=
       match asString (Js.get t "description") with
       | Some EmptyString | None => "Unnamed task"
       | Some d => d
       end;
     status := Pending;
     tool := asString (Js.get t "tool");
     args :=
       match Js.get t "args" with
       | Some (JObj fields) => Some fields
       | _ => Some []
       end;
     dependencies :=
       match Js.get t "dependencies" with
       | Some deps => Some (asStrings deps)
       | None => Some []
       end;
     result := None; error := None; startTime := None; endTime := None;
     retries := None |}.

Definition parsePlanResponse (env : Env) (response : string)
    (tools : list string) : Result (list Task) :=
  match Validation.extractJSON response with
  | None => Err "No JSON found in planning response"
  | Some jsonStr =>
      match Validation.safeJSONParse (jsonParse env) jsonStr Validation.validateTaskPlan with
      | None => Err "Invalid task plan structure"
      | Some planData =>
          match Js.get planData "tasks" with
          | Some (JArr defs) => Ok (imap toTask defs)
          | _ => Err "Invalid task plan structure"
          end
      end
  end.

Definition hasDeps (t : Task) : bool :=
  match dependencies t with
  | Some (_ :: _) => true
  | _ => false
  end.

Definition determinePlanStrategy (ts : list Task) : PlanStrategy :=
  let hasDependencies := existsb hasDeps ts in
  if (negb hasDependencies && (1 <? List.length ts)%nat)%bool then Parallel
  else if (hasDependencies && (3 <? List.length ts)%nat)%bool then Mixed
  else Sequential.

Definition createFallbackPlan (env : Env) (userRequest : string) : TaskPlan :=
  {| planId := nanoid env;
     originalRequest := userRequest;
     tasks :=
       [ {| id := "task-0"; description := userRequest; status := Pending;
            tool := None; args := None; dependencies := None; result := None;
            error := None; startTime := None; endTime := None; retries := None |} ];
     strategy := Sequential;
     createdAt := dateNow env;
     planStatus := Planning;
     completedTasks := 0;
     totalTasks := 1 |}.

(** [planTask] never throws: the [catch] turns every failure of the
    backend call and of the parse into the fallback plan. *)
Definition planTask (env : Env) (userRequest : string)
    (context : PlanningContext) : TaskPlan :=
  let planningPrompt := buildPlanningPrompt userRequest context in
  match rbind (callLLM env planningPrompt)
          (fun response => parsePlanResponse env response (availableTools context)) with
  | Ok ts =>
      {| planId := nanoid env;
         originalRequest := userRequest;
         tasks := ts;
         strategy := determinePlanStrategy ts;
         createdAt := dateNow env;
         planStatus := Planning;
         completedTasks := 0;
         totalTasks := List.length ts |}
  | Err _ => createFallbackPlan env userRequest
  end.

(** The prompt of [replan]; an absent tool reads [undefined] in the
    template. *)
Definition buildReplanPrompt (originalPlan : TaskPlan) (failedTask : Task)
    (error : string) : string :=
  let q := Js.dq in
  let nl := Js.nl in
  Js.cat [
    nl;
    "The following task failed:"; nl;
    "Task: "; description failedTask; nl;
    "Tool: "; default "undefined" (tool failedTask); nl;
    "Error: "; error; nl;
    nl;
    "Original request: "; originalRequest originalPlan; nl;
    nl;
    "Suggest alternative tasks to accomplish the goal. Consider:"; nl;
    "1. Using different tools"; nl;
    "2. Breaking the task into smaller steps"; nl;
    "3. Working around the error"; nl;
    nl;
    "Output Format (JSON):"; nl;
    "{"; nl;
    "  "; q; "tasks"; q; ": [...],"; nl;
    "  "; q; "reasoning"; q; ": "; q; "..."; q; nl;
    "}"; nl
  ].

(** [replan]: the tasks parsed from the answer, or the empty list when
    the call or the parse throws. *)
Definition replan (env : Env) (originalPlan : TaskPlan) (failedTask : Task)
    (error : string) : list Task :=
  match rbind (callLLM env (buildReplanPrompt originalPlan failedTask error))
          (fun response => parsePlanResponse env response []) with
  | Ok ts => ts
  | Err _ => []
  end.

(** *** Topological sort *)

(** The three collections [topologicalSort] closes over. *)
Record SortState : Type := {
  sorted : list Task;
  visited : gset string;
  visiting : gset string;
}.

(** [tasks.find(t => t.id === depId)]. *)
Definition findTask (ts : list Task) (depId : string) : option Task :=
  List.find (fun t => String.eqb (id t) depId) ts.

(** [for (const depId of task.dependencies)] with the recursive call
    [visit] passed in. [None]: out of fuel. *)
Fixpoint visitDeps (visit : Task -> SortState -> option (Result SortState))
    (ts : list Task) (deps : list string) (st : SortState)
    : option (Result SortState) :=
  match deps with
  | [] => Some (Ok st)
  | depId :: rest =>
      match findTask ts depId with
      | Some depTask =>
          match visit depTask st with
          | Some (Ok st') => visitDeps visit ts rest st'
          | other => other
          end
      | None => visitDeps visit ts rest st
      end
  end.

(** The closure [visit]. The fuel bounds the depth of the recursion. *)
Fixpoint visit (fuel : nat) (ts : list Task) (task : Task) (st : SortState)
    : option (Result SortState) :=
  match fuel with
  | O => None
  | S fuel' =>
      if decide (id task ∈ visited st) then Some (Ok st)
      else if decide (id task ∈ visiting st)
      then Some (Err (Js.cat ["Circular dependency detected: "; id task]))
      else
        let st1 := {| sorted := sorted st; visited := visited st;
                      visiting := {[id task]} ∪ visiting st |} in
        match visitDeps (visit fuel' ts) ts (depsOf task) st1 with
        | Some (Ok st2) =>
            Some (Ok {| sorted := sorted st2 ++ [task];
                        visited := {[id task]} ∪ visited st2;
                        visiting := visiting st2 ∖ {[id task]} |})
        | other => other
        end
  end.

(** [for (const task of tasks) visit(task)]. *)
Fixpoint visitAll (fuel : nat) (ts todo : list Task) (st : SortState)
    : option (Result SortState) :=
  match todo with
  | [] => Some (Ok st)
  | task :: rest =>
      match visit fuel ts task st with
      | Some (Ok st') => visitAll fuel ts rest st'
      | other => other
      end
  end.

Definition topologicalSort (fuel : nat) (ts : list Task) : option (Result (list Task)) :=
  match visitAll fuel ts ts {| sorted := []; visited := ∅; visiting := ∅ |} with
  | Some (Ok st) => Some (Ok (sorted st))
  | Some (Err e) => Some (Err e)
  | None => None
  end.

Definition optimizePlan (fuel : nat) (plan : TaskPlan) : option (Result TaskPlan) :=
  match topologicalSort fuel (tasks plan) with
  | Some (Ok sortedTasks) =>
      Some (Ok {| planId := planId plan;
                  originalRequest := originalRequest plan;
                  tasks := sortedTasks;
                  strategy := determinePlanStrategy sortedTasks;
                  createdAt := createdAt plan;
                  planStatus := planStatus plan;
                  completedTasks := completedTasks plan;
                  totalTasks := totalTasks plan |})
  | Some (Err e) => Some (Err e)
  | None => None
  end.

End Planner.

(** ** Reflector (lib/agent/reflector.ts) *)

Module Reflector.

(** The backend behind [callLLM] and the host primitives the reflector
    applies to parsed values: [JSON.parse] ([None] when it throws),
    [JSON.stringify(v, null, 2)] and the coercion [ToNumber] ([None] is
    [NaN]). *)
Record Env : Type := {
  callLLM : string -> Result string;
  jsonParse : string -> option JSON;
  stringifyPretty : JSON -> string;
  toNumber : JSON -> option Q;
}.

Definition statusText (st : TaskStatus) : string :=
  match st with
  | Pending => "pending"
  | InProgress => "in_progress"
  | Completed => "completed"
  | Failed => "failed"
  | Skipped => "skipped"
  end.

Definition serializeResult (env : Env) (r : JSON) : string :=
  match r with
  | JStr str => JSString.slice str 0 500
  | _ =>
      let str := stringifyPretty env r in
      if (500 <? String.length str)%nat
      then Js.cat [JSString.slice str 0 500; "..."]
      else str
  end.

(** [s ? a : ''] for an optional string [s]. *)
Definition whenText (s : option string) (f : string -> string) : string :=
  match s with
  | Some (String _ _ as x) => f x
  | _ => EmptyString
  end.

Definition reflectionPrompt (env : Env) (task : Task)
    (expectedOutcome : option string) : string :=
  let q := Js.dq in
  let nl := Js.nl in
  Js.cat [
    nl;
    "Analyze the following task execution and provide detailed feedback."; nl;
    nl;
    "Task: "; description task; nl;
    "Tool Used: "; whenText (tool task) (fun x => x);
       match tool task with Some (String _ _) => EmptyString | _ => "None" end; nl;
    "Status: "; statusText (status task); nl;
    match result task with
    | Some r => if Js.truthy r then Js.cat ["Result: "; serializeResult env r] else EmptyString
    | None => EmptyString
    end; nl;
    whenText (error task) (fun e => Js.cat ["Error: "; e]); nl;
    whenText expectedOutcome (fun e => Js.cat ["Expected Outcome: "; e]); nl;
    nl;
    "Evaluate:"; nl;
    "1. Did the task succeed? (boolean)"; nl;
    "2. Confidence level in the result (0.0 to 1.0)"; nl;
    "3. Any issues or concerns? (list)"; nl;
    "4. Suggestions for improvement? (list)"; nl;
    "5. Should this task be retried with a different approach? (boolean)"; nl;
    "6. If retry needed, what alternative approach would you suggest?"; nl;
    nl;
    "Respond in JSON format:"; nl;
    "{"; nl;
    "  "; q; "success"; q; ": true/false,"; nl;
    "  "; q; "confidence"; q; ": 0.0-1.0,"; nl;
    "  "; q; "issues"; q; ": ["; q; "issue 1"; q; ", "; q; "issue 2"; q; ", ...],"; nl;
    "  "; q; "suggestions"; q; ": ["; q; "suggestion 1"; q; ", "; q; "suggestion 2"; q; ", ...],"; nl;
    "  "; q; "shouldRetry"; q; ": true/false,"; nl;
    "  "; q; "alternativeApproach"; q; ": {"; nl;
    "    "; q; "description"; q; ": "; q; "..."; q; ","; nl;
    "    "; q; "tool"; q; ": "; q; "..."; q; ","; nl;
    "    "; q; "args"; q; ": {...}"; nl;
    "  }"; nl;
    "}"; nl
  ].

(** The reflector's own [extractJSON]: the greedy match only, and a
    throw when there is none. *)
Definition extractJSON (response : string) : Result string :=
  match Validation.greedyObject response with
  | Some m => Ok m
  | None => Err "No JSON found in response"
  end.

(** [Math.max(0, Math.min(1, x))] on a number that may be [NaN]. *)
Definition clamp01 (x : option Q) : option Q :=
  match x with
  | None => None
  | Some v =>
      let m := if Qle_bool 1 v then 1%Q else v in
      Some (if Qle_bool m 0 then 0%Q else m)
  end.

Definition isTrue (v : option JSON) : bool :=
  match v with
  | Some (JBool true) => true
  | _ => false
  end.

Definition arrayOrEmpty (v : option JSON) : list JSON :=
  match v with
  | Some (JArr items) => items
  | _ => []
  end.

Definition parseReflectionResponse (env : Env) (response : string)
    : Result ReflectionResult :=
  rbind (extractJSON response) (fun text =>
    match jsonParse env text with
    | None => Err "JSON.parse: unexpected token"
    | Some JNull => Err "Cannot read properties of null"
    | Some parsed =>
        Ok {| success := isTrue (Js.get parsed "success");
              confidence :=
                clamp01
                  (match Js.get parsed "confidence" with
                   | Some c => if Js.truthy c then toNumber env c else Some (1 # 2)%Q
                   | None => Some (1 # 2)%Q
                   end);
              issues := arrayOrEmpty (Js.get parsed "issues");
              suggestions := arrayOrEmpty (Js.get parsed "suggestions");
              shouldRetry := isTrue (Js.get parsed "shouldRetry");
              alternativeApproach :=
                match Js.get parsed "alternativeApproach" with
                | Some a => if Js.truthy a then Some a else None
                | None => None
                end |}
    end).

Definition createFallbackReflection (task : Task) : ReflectionResult :=
  match status task with
  | Completed =>
      {| success := true; confidence := Some (8 # 10)%Q; issues := [];
         suggestions := []; shouldRetry := false; alternativeApproach := None |}
  | Failed =>
      {| success := false; confidence := Some 0%Q;
         issues :=
           [JStr (match error task with
                  | Some (String _ _ as e) => e
                  | _ => "Task failed"
                  end)];
         suggestions := [JStr "Try a different approach"; JStr "Check tool arguments"];
         shouldRetry := true; alternativeApproach := None |}
  | _ =>
      {| success := false; confidence := Some (1 # 2)%Q;
         issues := [JStr "Task did not complete"];
         suggestions := []; shouldRetry := false; alternativeApproach := None |}
  end.

Definition analyzeResult (env : Env) (task : Task)
    (expectedOutcome : option string) : ReflectionResult :=
  match rbind (callLLM env (reflectionPrompt env task expectedOutcome))
          (parseReflectionResponse env) with
  | Ok r => r
  | Err _ => createFallbackReflection task
  end.

(** *** Evaluation of a plan *)

(** One line of the task list in the prompt of [evaluatePlan]: an absent
    tool reads [undefined]; dependencies that are absent or join to the
    empty text read [none]. *)
Definition planLine (i : nat) (t : Task) : string :=
  Js.cat [Js.natToString (i + 1); ". "; description t;
          " (Tool: "; default "undefined" (tool t);
          ", Deps: ";
          match dependencies t with
          | Some deps =>
              match Js.joinWith ", " deps with
              | EmptyString => "none"
              | joined => joined
              end
          | None => "none"
          end;
          ")"].

Definition evaluationPrompt (ts : list Task) (availableTools : list string) : string :=
  let q := Js.dq in
  let nl := Js.nl in
  Js.cat [
    nl;
    "Evaluate the quality of this task plan."; nl;
    nl;
    "Tasks:"; nl;
    Js.joinWith nl (imap planLine ts); nl;
    nl;
    "Available Tools: "; Js.joinWith ", " availableTools; nl;
    nl;
    "Rate the plan (0.0 to 1.0) based on:"; nl;
    "1. Are all tools available?"; nl;
    "2. Are dependencies correct?"; nl;
    "3. Are tasks well-defined?"; nl;
    "4. Is the plan efficient?"; nl;
    "5. Are there any obvious issues?"; nl;
    nl;
    "Respond in JSON:"; nl;
    "{"; nl;
    "  "; q; "score"; q; ": 0.0-1.0,"; nl;
    "  "; q; "concerns"; q; ": ["; q; "concern 1"; q; ", ...],"; nl;
    "  "; q; "improvements"; q; ": ["; q; "improvement 1"; q; ", ...]"; nl;
    "}"; nl
  ].

(** What [evaluatePlan] returns; the fields hold whatever the parsed
    answer holds, the code checks no type. *)
Record PlanEvaluation : Type := {
  score : JSON;
  concerns : JSON;
  improvements : JSON;
}.

(** [v || d] on a property of the parsed answer. *)
Definition orElse (v : option JSON) (d : JSON) : JSON :=
  match v with
  | Some x => if Js.truthy x then x else d
  | None => d
  end.

Definition evaluatePlan (env : Env) (ts : list Task) (availableTools : list string)
    : PlanEvaluation :=
  let parsed :=
    rbind (callLLM env (evaluationPrompt ts availableTools)) (fun response =>
      rbind (extractJSON response) (fun text =>
        match jsonParse env text with
        | None => Err "JSON.parse: unexpected token"
        | Some JNull => Err "Cannot read properties of null"
        | Some parsed => Ok parsed
        end)) in
  match parsed with
  | Ok parsed =>
      {| score := orElse (Js.get parsed "score") (JNum (1 # 2)%Q);
         concerns := orElse (Js.get parsed "concerns") (JArr []);
         improvements := orElse (Js.get parsed "improvements") (JArr []) |}
  | Err _ =>
      {| score := JNum (1 # 2)%Q;
         concerns := JArr [JStr "Failed to evaluate plan"];
         improvements := JArr [] |}
  end.

End Reflector.

(** ** RLM executor (lib/rlm/executor.ts) *)

Module RLM.

Inductive ProcessingStrategy : Type :=
| MapReduce
| RecursiveDecomposition
| SequentialProcessing
| TreeTraversal.

(** The constructor's [config]. *)
Record Config : Type := {
  cfgMaxRecursionDepth : option Z;
  cfgMaxExecutionTime : option Z;
}.

Record Executor : Type := {
  maxRecursionDepth : Z;
  maxExecutionTime : Z;
}.

(** [config.maxRecursionDepth || 10]: an absent limit and the limit 0
    become the default; any other number, also a negative one, is kept. *)
Definition newExecutor (config : Config) : Executor :=
  {| maxRecursionDepth := orDefaultZ (cfgMaxRecursionDepth config) 10;
     maxExecutionTime := orDefaultZ (cfgMaxExecutionTime config) 300000 |}.

(** What a variable of a context holds (its type is [any]): data, or a
    function. The context a caller passes holds data; a function gets in
    through [filterVariables] only, which copies what [variables[key]]
    gives for a name every object inherits from [Object.prototype]. *)
Inductive Held : Type :=
| Data (v : JSON)
| Method.

(** What an execution takes from outside: the clock ([clock k] is the
    [k]-th reading of [Date.now()]), the identifiers [nanoid()] returns,
    the provider (its answer to the call that stands at position [k] of
    the trajectory, or a throw), the scheduling of calls that run
    together, and the host's primitives: [JSON.parse] ([None]: it
    throws), [JSON.stringify(v)], [JSON.stringify(v, null, 2)],
    [String(n)] and the coercion of a value, or of [undefined], to text.

    Scheduling: calls that run together settle in the order of
    [settleRank] (lower rank first). When a [Promise.all] is rejected,
    nobody awaits the calls that have not settled yet, but each of them
    still runs the rest of its [makeRLMCall] when the provider answers:
    [settlesLate k] says that for the call at position [k] this happens
    before [execute] returns. *)
Record Env : Type := {
  clock : nat -> Z;
  freshId : nat -> string;
  provider : nat -> string -> Result string;
  settleRank : nat -> nat;
  settlesLate : nat -> bool;
  jsonParse : string -> option JSON;
  stringify : JSON -> string;
  stringifyPretty : JSON -> string;
  showNumber : Q -> string;
  toText : option JSON -> string;
}.

Inductive CallStatus : Type :=
| CallPending
| CallRunning
| CallCompleted
| CallFailed.

Record RLMCall : Type := {
  callId : string;
  prompt : string;
  context : list (string * Held);
  depth : nat;
  parentId : option string;
  callStatus : CallStatus;
  callResult : option string;
  callError : option string;
  callStart : option Z;
  callEnd : option Z;
}.

Record RLMTrajectory : Type := {
  trajectoryId : string;
  rootCall : option RLMCall;
  allCalls : list RLMCall;
  totalCalls : nat;
  (** [None] is the [-Infinity] of [Math.max()] without arguments. *)
  maxDepth : option nat;
  totalTokens : nat;
  trajectoryTime : Z;
}.

Record RLMExecutionResult : Type := {
  success : bool;
  result : option JSON;
  trajectory : option RLMTrajectory;
  error : option string;
  executionTime : option Z;
}.

Record RLMContext : Type := {
  variables : list (string * Held);
  currentDepth : nat;
  callStack : list string;
}.

(** The executor's mutable fields and the use made so far of the
    environment: the trajectory, [startTime], the number of clock
    readings and identifiers taken, and the number of provider calls
    started. *)
Record Run : Type := {
  calls : list RLMCall;
  startedAt : Z;
  ticks : nat;
  idCount : nat;
  backendCalls : nat;
}.

Definition dateNow (env : Env) (run : Run) : Z * Run :=
  (clock env (ticks run),
   {| calls := calls run; startedAt := startedAt run; ticks := S (ticks run);
      idCount := idCount run; backendCalls := backendCalls run |}).

Definition nanoid (env : Env) (run : Run) : string * Run :=
  (freshId env (idCount run),
   {| calls := calls run; startedAt := startedAt run; ticks := ticks run;
      idCount := S (idCount run); backendCalls := backendCalls run |}).

(** The variables a caller passes, as a context holds them. *)
Definition hold (vars : list (string * JSON)) : list (string * Held) :=
  List.map (fun entry => (fst entry, Data (snd entry))) vars.

(** The data of the variables, when none of them holds a function. *)
Fixpoint dataOf (vars : list (string * Held)) : option (list (string * JSON)) :=
  match vars with
  | [] => Some []
  | (key, Data v) :: rest => cons (key, v) <$> dataOf rest
  | (_, Method) :: _ => None
  end.

(** The [TypeError] of reading [.length] of [undefined]. *)
Definition lengthOfUndefined : string :=
  "Cannot read properties of undefined (reading 'length')".

(** [serializeValue]; [None] is [undefined], which is what
    [JSON.stringify] gives for a function. *)
Definition serializeValue (env : Env) (h : Held) : option string :=
  match h with
  | Data (JStr s) => Some s
  | Data (JNum q) => Some (showNumber env q)
  | Data (JBool true) => Some "true"
  | Data (JBool false) => Some "false"
  | Data v => Some (stringifyPretty env v)
  | Method => None
  end.

(** The text one pass of the loop of [buildPromptWithContext] appends;
    [valueStr.length] throws when [valueStr] is [undefined]. *)
Definition promptEntry (env : Env) (entry : string * Held) : Result string :=
  match serializeValue env (snd entry) with
  | None => Err lengthOfUndefined
  | Some valueStr =>
      Ok (if (String.length valueStr <? 5000)%nat
          then Js.cat ["## "; fst entry; ":"; Js.nl; valueStr; Js.nl; Js.nl]
          else Js.cat ["## "; fst entry; ":"; Js.nl; JSString.slice valueStr 0 5000;
                       "... (truncated, "; Js.natToString (String.length valueStr);
                       " total chars)"; Js.nl; Js.nl])
  end.

Fixpoint promptEntries (env : Env) (vars : list (string * Held))
    : Result (list string) :=
  match vars with
  | [] => Ok []
  | entry :: rest =>
      rbind (promptEntry env entry) (fun text =>
        rbind (promptEntries env rest) (fun texts => Ok (text :: texts)))
  end.

Definition buildPromptWithContext (env : Env) (text : string)
    (vars : list (string * Held)) : Result string :=
  rbind (promptEntries env vars) (fun entries =>
    Ok (Js.cat ([text; Js.nl; Js.nl; "# Available Context:"; Js.nl; Js.nl] ++ entries))).

Definition depthError (exec : Executor) : string :=
  Js.cat ["Max recursion depth ("; Js.intToString (maxRecursionDepth exec); ") exceeded"].

Definition timeError (exec : Executor) : string :=
  Js.cat ["Max execution time ("; Js.intToString (maxExecutionTime exec); "ms) exceeded"].

(** How the part of [makeRLMCall] that runs before its first [await]
    ends: with a throw, or with the call standing at position [k] of the
    trajectory and the provider called with the full prompt. *)
Inductive Launch : Type :=
| Rejected (msg : string)
| Started (k : nat) (fullPrompt : string).

Definition finishCall (st : CallStatus) (res err : option string) (now : Z)
    (c : RLMCall) : RLMCall :=
  {| callId := callId c; prompt := prompt c; context := context c; depth := depth c;
     parentId := parentId c; callStatus := st; callResult := res; callError := err;
     callStart := callStart c; callEnd := Some now |}.

Definition updateCall (k : nat) (f : RLMCall -> RLMCall) (run : Run) : Run :=
  {| calls := alter f k (calls run); startedAt := startedAt run; ticks := ticks run;
     idCount := idCount run; backendCalls := backendCalls run |}.

(** [makeRLMCall] up to its [await]: the depth check, the time check,
    the call pushed on the trajectory, the prompt built and the provider
    called. When building the prompt throws, the [catch] marks the call
    failed and throws again, and the provider is not called. *)
Definition launchCall (exec : Executor) (env : Env) (text : string)
    (ctx : RLMContext) (run : Run) : Launch * Run :=
  if maxRecursionDepth exec <=? Z.of_nat (currentDepth ctx)
  then (Rejected (depthError exec), run)
  else
    let '(now1, run1) := dateNow env run in
    if now1 - startedAt run1 >=? maxExecutionTime exec
    then (Rejected (timeError exec), run1)
    else
      let '(ident, run2) := nanoid env run1 in
      let '(now2, run3) := dateNow env run2 in
      let call :=
        {| callId := ident; prompt := text; context := variables ctx;
           depth := currentDepth ctx; parentId := last (callStack ctx);
           callStatus := CallRunning; callResult := None; callError := None;
           callStart := Some now2; callEnd := None |} in
      let k := List.length (calls run3) in
      match buildPromptWithContext env text (variables ctx) with
      | Ok fullPrompt =>
          (Started k fullPrompt,
           {| calls := calls run3 ++ [call]; startedAt := startedAt run3;
              ticks := ticks run3; idCount := idCount run3;
              backendCalls := S (backendCalls run3) |})
      | Err msg =>
          let '(now3, run4) :=
            dateNow env
              {| calls := calls run3 ++ [call]; startedAt := startedAt run3;
                 ticks := ticks run3; idCount := idCount run3;
                 backendCalls := backendCalls run3 |} in
          (Rejected msg, updateCall k (finishCall CallFailed None (Some msg) now3) run4)
      end.

(** The rest of [makeRLMCall]: the provider's answer arrives. *)
Definition settleCall (env : Env) (k : nat) (fullPrompt : string) (run : Run)
    : Result string * Run :=
  match provider env k fullPrompt with
  | Ok r =>
      let '(now, run1) := dateNow env run in
      (Ok r, updateCall k (finishCall CallCompleted (Some r) None now) run1)
  | Err e =>
      let '(now, run1) := dateNow env run in
      (Err e, updateCall k (finishCall CallFailed None (Some e) now) run1)
  end.

(** [await this.makeRLMCall(prompt, context, callId)]; the code does not
    read [callId]. *)
Definition makeRLMCall (exec : Executor) (env : Env) (text : string)
    (ctx : RLMContext) (run : Run) : Result string * Run :=
  match launchCall exec env text ctx run with
  | (Rejected msg, run1) => (Err msg, run1)
  | (Started k full, run1) => settleCall env k full run1
  end.

(** *** Calls that run together ([Promise.all]) *)

(** The callbacks of [xs.map(async ...)] run one after the other up to
    their first [await]. *)
Fixpoint launchAll (jobs : list (Run -> Launch * Run)) (run : Run)
    : list Launch * Run :=
  match jobs with
  | [] => ([], run)
  | job :: rest =>
      let '(l, run1) := job run in
      let '(ls, run2) := launchAll rest run1 in
      (l :: ls, run2)
  end.

Fixpoint firstRejected (ls : list Launch) : option string :=
  match ls with
  | [] => None
  | Rejected msg :: _ => Some msg
  | Started _ _ :: rest => firstRejected rest
  end.

Fixpoint insertByRank (rank : nat -> nat) (x : nat * string)
    (l : list (nat * string)) : list (nat * string) :=
  match l with
  | [] => [x]
  | y :: rest =>
      if (rank (fst x) <=? rank (fst y))%nat then x :: l
      else y :: insertByRank rank x rest
  end.

Definition started (ls : list Launch) : list (nat * string) :=
  omap (fun l => match l with Started k full => Some (k, full) | Rejected _ => None end) ls.

(** Calls that settle when the [Promise.all] they belong to is already
    rejected: each runs the rest of its [makeRLMCall], and what it
    settles with is seen by nobody. *)
Fixpoint settleLate (env : Env) (order : list (nat * string)) (run : Run) : Run :=
  match order with
  | [] => run
  | (k, full) :: rest =>
      if settlesLate env k
      then settleLate env rest (snd (settleCall env k full run))
      else settleLate env rest run
  end.

(** The started calls settle in the order of their ranks; the first one
    that fails rejects the [Promise.all]. *)
Fixpoint settleInOrder (env : Env) (order : list (nat * string))
    (done : list (nat * string)) (run : Run) : Result (list (nat * string)) * Run :=
  match order with
  | [] => (Ok done, run)
  | (k, full) :: rest =>
      match settleCall env k full run with
      | (Ok r, run1) => settleInOrder env rest ((k, r) :: done) run1
      | (Err e, run1) => (Err e, settleLate env rest run1)
      end
  end.

Fixpoint resultOf (k : nat) (done : list (nat * string)) : string :=
  match done with
  | [] => EmptyString
  | (k', r) :: rest => if (k =? k')%nat then r else resultOf k rest
  end.

(** [await Promise.all(promises)] over launched calls. A call refused
    when it was launched is a promise that is rejected already, and its
    error is what [Promise.all] rejects with, before any provider has
    answered. Otherwise the calls settle in order and the first failure
    rejects. *)
Definition awaitAll (env : Env) (ls : list Launch) (run : Run)
    : Result (list string) * Run :=
  let order := foldr (insertByRank (settleRank env)) [] (started ls) in
  match firstRejected ls with
  | Some msg => (Err msg, settleLate env order run)
  | None =>
      match settleInOrder env order [] run with
      | (Ok done, run1) => (Ok (List.map (fun kf => resultOf (fst kf) done) (started ls)), run1)
      | (Err e, run1) => (Err e, run1)
      end
  end.

(** *** Helpers *)

Definition getSize (env : Env) (v : JSON) : nat :=
  match v with
  | JStr s => String.length s
  | JArr items => (List.length items * 100)%nat
  | _ => String.length (stringify env v)
  end.

(** The loop of [findLargestVariable]: the entry held and its size. *)
Fixpoint largestLoop (env : Env) (vars : list (string * JSON))
    (largest : option (string * JSON)) (largestSize : nat)
    : option (string * JSON) * nat :=
  match vars with
  | [] => (largest, largestSize)
  | (key, value) :: rest =>
      let size := getSize env value in
      if (largestSize <? size)%nat then largestLoop env rest (Some (key, value)) size
      else largestLoop env rest largest largestSize
  end.

Definition findLargestVariable (env : Env) (vars : list (string * JSON))
    : option (string * JSON) :=
  let '(largest, largestSize) := largestLoop env vars None 0%nat in
  if (1000 <? largestSize)%nat then largest else None.

(** [findLargestVariable] on the variables of a context: [getSize] of a
    function reads the [length] of [undefined] and throws. *)
Definition findLargest (env : Env) (vars : list (string * Held))
    : Result (option (string * JSON)) :=
  match dataOf vars with
  | Some data => Ok (findLargestVariable env data)
  | None => Err lengthOfUndefined
  end.

(** [DataChunker.chunk(data, { method: 'fixed-size', chunkSize: 10 })] on
    an array. The loop advances by ten, so the fuel given is enough
    (lemma [chunkArray_ten]). *)
Definition chunkTen (items : list JSON) : list (list JSON) :=
  default []
    (Chunker.chunkArray (S (List.length items)) items
       {| Chunker.method := Chunker.FixedSize; Chunker.chunkSize := Some 10;
          Chunker.overlap := None; Chunker.separator := None;
          Chunker.customChunker := None |}).

Definition chunkData (data : JSON) : list JSON :=
  match data with
  | JStr s => List.map JStr (Chunker.semanticChunking s 2000)
  | JArr items => List.map JArr (chunkTen items)
  | _ => [data]
  end.

(** The names every object inherits from [Object.prototype]. *)
Definition objectPrototypeNames : list string :=
  ["constructor"; "__defineGetter__"; "__defineSetter__"; "hasOwnProperty";
   "__lookupGetter__"; "__lookupSetter__"; "isPrototypeOf"; "propertyIsEnumerable";
   "toString"; "valueOf"; "__proto__"; "toLocaleString"].

(** [variables[key]] when [key in variables] holds: the variable's own
    value, or for an inherited name what the prototype has under it, a
    method (under [__proto__] the prototype itself, which
    [filterVariables] does not store). *)
Definition readVariable (vars : list (string * Held)) (key : string) : option Held :=
  match Js.assoc key vars with
  | Some h => Some h
  | None => if bool_decide (key ∈ objectPrototypeNames) then Some Method else None
  end.

(** [filterVariables]. The assignment [filtered['__proto__'] = ...] sets
    the prototype of [filtered] and adds no property. *)
Definition filterVariables (vars : list (string * Held)) (needs : list string)
    : list (string * Held) :=
  foldl (fun filtered key =>
           match readVariable vars key with
           | Some h =>
               if String.eqb key "__proto__" then filtered
               else Js.objSet key h filtered
           | None => filtered
           end) [] needs.

Definition deeper (ctx : RLMContext) (vars : list (string * Held)) (frame : string)
    : RLMContext :=
  {| variables := vars; currentDepth := S (currentDepth ctx);
     callStack := callStack ctx ++ [frame] |}.

Definition num (n : nat) : Held := Data (JNum (inject_Z (Z.of_nat n))).

(** *** Strategies *)

Definition mapJob (exec : Executor) (env : Env) (task : string) (ctx : RLMContext)
    (varName : string) (total : nat) (idx : nat) (chunk : JSON)
    : Run -> Launch * Run :=
  let vars :=
    Js.objSet "total_chunks" (num total)
      (Js.objSet "chunk_index" (num idx)
         (Js.objSet varName (Data chunk) (variables ctx))) in
  let mapTask :=
    Js.cat ["Process this chunk of data for the task: "; task; Js.nl; Js.nl;
            "Chunk "; Js.natToString (idx + 1); "/"; Js.natToString total] in
  launchCall exec env mapTask (deeper ctx vars (Js.cat ["map-"; Js.natToString idx])).

Definition directCall (exec : Executor) (env : Env) (task : string)
    (ctx : RLMContext) (run : Run) : Result JSON * Run :=
  let '(r, run1) := makeRLMCall exec env task ctx run in
  (rbind r (fun s => Ok (JStr s)), run1).

Definition mapReduceStrategy (exec : Executor) (env : Env) (task : string)
    (ctx : RLMContext) (run : Run) : Result JSON * Run :=
  match findLargest env (variables ctx) with
  | Err e => (Err e, run)
  | Ok None => directCall exec env task ctx run
  | Ok (Some (varName, varData)) =>
      let chunks := chunkData varData in
      if (List.length chunks =? 1)%nat then directCall exec env task ctx run
      else
        let jobs := imap (mapJob exec env task ctx varName (List.length chunks)) chunks in
        let '(ls, run1) := launchAll jobs run in
        match awaitAll env ls run1 with
        | (Err e, run2) => (Err e, run2)
        | (Ok mapResults, run2) =>
            let vars :=
              Js.objSet "chunk_results" (Data (JArr (List.map JStr mapResults)))
                (variables ctx) in
            let reduceTask :=
              Js.cat ["Aggregate these chunk results for the task: "; task; Js.nl; Js.nl;
                      "You have "; Js.natToString (List.length mapResults);
                      " chunk results to combine."] in
            directCall exec env reduceTask (deeper ctx vars "reduce") run2
        end
  end.

Definition decompositionPrompt (task : string) (ctx : RLMContext) : string :=
  let q := Js.dq in
  Js.cat [Js.nl;
    "Given this task: "; task; Js.nl;
    Js.nl;
    "Available context variables: ";
    Js.joinWith ", " (List.map fst (variables ctx)); Js.nl;
    Js.nl;
    "Break this task into 2-5 independent subtasks that can be solved separately and then combined.";
    Js.nl;
    "Respond with JSON array: [{ "; q; "subtask"; q; ": "; q; "description"; q; ", ";
    q; "needs"; q; ": ["; q; "var1"; q; ", "; q; "var2"; q; "] }]"; Js.nl].

(** What [for (const key of st.needs)] iterates over: the items of an
    array, the characters of a string; anything else is not iterable. *)
Definition needsOf (env : Env) (st : JSON) : Result (list string) :=
  match st with
  | JNull => Err "Cannot read properties of null (reading 'needs')"
  | _ =>
      match Js.get st "needs" with
      | Some (JArr items) => Ok (List.map (fun k => toText env (Some k)) items)
      | Some (JStr s) => Ok (Js.chars s)
      | _ => Err "needs is not iterable"
      end
  end.

Definition subtaskJob (exec : Executor) (env : Env) (ctx : RLMContext)
    (idx : nat) (st : JSON) : Run -> Launch * Run :=
  fun run =>
    match needsOf env st with
    | Err e => (Rejected e, run)
    | Ok needs =>
        launchCall exec env (toText env (Js.get st "subtask"))
          (deeper ctx (filterVariables (variables ctx) needs)
             (Js.cat ["subtask-"; Js.natToString idx])) run
    end.

Definition recursiveDecompositionStrategy (exec : Executor) (env : Env) (task : string)
    (ctx : RLMContext) (run : Run) : Result JSON * Run :=
  match makeRLMCall exec env (decompositionPrompt task ctx) ctx run with
  | (Err e, run1) => (Err e, run1)
  | (Ok decomposition, run1) =>
      match jsonParse env decomposition with
      | None => directCall exec env task ctx run1
      | Some (JArr subtasks) =>
          let jobs := imap (subtaskJob exec env ctx) subtasks in
          let '(ls, run2) := launchAll jobs run1 in
          match awaitAll env ls run2 with
          | (Err e, run3) => (Err e, run3)
          | (Ok subtaskResults, run3) =>
              let vars :=
                Js.objSet "subtask_results" (Data (JArr (List.map JStr subtaskResults)))
                  (variables ctx) in
              let combineTask :=
                Js.cat ["Combine these subtask results to complete: "; task] in
              directCall exec env combineTask (deeper ctx vars "combine") run3
          end
      | Some JNull => (Err "Cannot read properties of null (reading 'map')", run1)
      | Some _ => (Err "subtasks.map is not a function", run1)
      end
  end.

(** The [for] loop of [sequentialProcessingStrategy] from index [i] on. *)
Fixpoint sequentialLoop (exec : Executor) (env : Env) (task : string)
    (ctx : RLMContext) (varName : string) (total : nat) (i : nat)
    (items : list JSON) (acc : JSON) (run : Run) : Result JSON * Run :=
  match items with
  | [] => (Ok acc, run)
  | item :: rest =>
      let vars :=
        Js.objSet "total_items" (num total)
          (Js.objSet "item_index" (num i)
             (Js.objSet "previous_result" (Data acc)
                (Js.objSet varName (Data item) (variables ctx)))) in
      let itemTask :=
        Js.cat [task; Js.nl; Js.nl; "Processing item "; Js.natToString (i + 1); "/";
                Js.natToString total;
                if Js.truthy acc then ". Previous result available." else EmptyString] in
      match makeRLMCall exec env itemTask
              (deeper ctx vars (Js.cat ["seq-"; Js.natToString i])) run with
      | (Ok r, run1) =>
          sequentialLoop exec env task ctx varName total (S i) rest (JStr r) run1
      | (Err e, run1) => (Err e, run1)
      end
  end.

Definition sequentialProcessingStrategy (exec : Executor) (env : Env) (task : string)
    (ctx : RLMContext) (run : Run) : Result JSON * Run :=
  match findLargest env (variables ctx) with
  | Err e => (Err e, run)
  | Ok None => directCall exec env task ctx run
  | Ok (Some (varName, varData)) =>
      let items :=
        match varData with
        | JArr xs => xs
        | _ => chunkData varData
        end in
      sequentialLoop exec env task ctx varName (List.length items) 0 items JNull run
  end.

Definition treeTraversalStrategy (exec : Executor) (env : Env) (task : string)
    (ctx : RLMContext) (run : Run) : Result JSON * Run :=
  directCall exec env task ctx run.

Definition processWithStrategy (exec : Executor) (env : Env) (task : string)
    (ctx : RLMContext) (strategy : ProcessingStrategy) (run : Run)
    : Result JSON * Run :=
  match strategy with
  | MapReduce => mapReduceStrategy exec env task ctx run
  | RecursiveDecomposition => recursiveDecompositionStrategy exec env task ctx run
  | SequentialProcessing => sequentialProcessingStrategy exec env task ctx run
  | TreeTraversal => treeTraversalStrategy exec env task ctx run
  end.

Definition maxOf (ds : list nat) : option nat :=
  match ds with
  | [] => None
  | d :: rest => Some (foldl Nat.max d rest)
  end.

Definition buildTrajectory (env : Env) (run : Run) : RLMTrajectory * Run :=
  let '(ident, run1) := nanoid env run in
  let '(now, run2) := dateNow env run1 in
  ({| trajectoryId := ident;
      rootCall := head (calls run);
      allCalls := calls run;
      totalCalls := List.length (calls run);
      maxDepth := maxOf (List.map depth (calls run));
      totalTokens := 0;
      trajectoryTime := now - startedAt run |}, run2).

(** The state [execute] starts from: [startTime] read, the trajectory
    emptied. *)
Definition startRun (env : Env) : Run :=
  {| calls := []; startedAt := clock env 0; ticks := 1; idCount := 0; backendCalls := 0 |}.

Definition rootContext (vars : list (string * JSON)) : RLMContext :=
  {| variables := hold vars; currentDepth := 0; callStack := [] |}.

(** [execute] together with the final state of the run. It has no throw
    of its own: the [catch] turns every throw of the strategy into a
    result. The trajectory returned lists the calls as they stand when
    [execute] returns. *)
Definition executeRun (exec : Executor) (env : Env) (task : string)
    (vars : list (string * JSON)) (strategy : ProcessingStrategy)
    : RLMExecutionResult * Run :=
  match processWithStrategy exec env task (rootContext vars) strategy (startRun env) with
  | (Ok r, run1) =>
      let '(now, run2) := dateNow env run1 in
      let '(traj, run3) := buildTrajectory env run2 in
      ({| success := true; result := Some r; trajectory := Some traj; error := None;
          executionTime := Some (now - startedAt run1) |}, run3)
  | (Err e, run1) =>
      let '(traj, run2) := buildTrajectory env run1 in
      let '(now, run3) := dateNow env run2 in
      ({| success := false; result := None; trajectory := Some traj; error := Some e;
          executionTime := Some (now - startedAt run1) |}, run3)
  end.

Definition execute (exec : Executor) (env : Env) (task : string)
    (vars : list (string * JSON)) (strategy : ProcessingStrategy) : RLMExecutionResult :=
  fst (executeRun exec env task vars strategy).

End RLM.

(** ** Executor (lib/agent/executor.ts) *)

Module Executor.

(** The constructor's [config]: the limits are numbers of either sign. *)
Record Config : Type := {
  cfgMaxParallelTasks : option Z;
  cfgMaxRetries : option Z;
}.

(** The two limits as the executor uses them. Each is only ever compared
    with a count: [inProgress.size < maxParallelTasks],
    [task.retries < maxRetries], and the step [i += batchSize] of
    [createBatches]. A count is never below a limit that is zero or
    negative, and a step that is zero or negative never takes the loop of
    [createBatches] to its end; so the fields hold the limit when it is
    positive and 0 when it is not. *)
Record ParallelExecutor : Type := {
  maxParallelTasks : nat;
  maxRetries : nat;
}.

(** [config?.maxParallelTasks || 5] and [config?.maxRetries || 2]: an
    absent limit and the limit 0 become the default. A negative limit is
    truthy and is kept; it comes out as 0 here (see above). *)
Definition newExecutor (config : Config) : ParallelExecutor :=
  {| maxParallelTasks := Z.to_nat (orDefaultZ (cfgMaxParallelTasks config) 5);
     maxRetries := Z.to_nat (orDefaultZ (cfgMaxRetries config) 2) |}.

(** How the promise of one [executeTask] settles, retries included: with
    the tool's result or with the last error thrown, after [retriesUsed]
    further attempts, the last of which started at [lastStart]; the
    clock reads [endedAt] when it ends. The tool registry decides all of
    this; the scheduler only sees it. *)
Record Settlement : Type := {
  outcome : Result JSON;
  retriesUsed : nat;
  lastStart : Z;
  endedAt : Z;
}.

(** How [executePlan] walks the plan. *)
Inductive Mode : Type :=
| SeqMode (todo : list nat)
| ParMode (batches : list (list nat))
| MixMode.

(** The state of one [executePlan]. The task objects of the plan are
    [store], addressed by position, since the code mutates them in place
    and [failedTasks] holds references to them. [pending] and
    [inProgress] are the two sets of [executeMixed]. [running] holds the
    positions of the tasks whose [executeTask] promise has not settled
    and [started] those whose [executeTask] was ever called: these two
    are bookkeeping of the model, not variables of the code. [exited]
    says that the loop of the mode has ended. *)
Record State : Type := {
  store : list Task;
  results : gmap string JSON;
  failedTasks : list nat;
  pending : gset string;
  inProgress : gset string;
  running : gset nat;
  started : gset nat;
  mode : Mode;
  exited : bool;
}.

(** What the environment does next: the scheduler runs one pass of its
    loop, up to the next [await] (the [k]-th task it starts reads the
    clock as [clock k]), or the promise of the task at position [i]
    settles. *)
Inductive Action : Type :=
| Loop (clock : nat -> Z)
| Settle (i : nat) (s : Settlement).

(** [areDependenciesMet]. *)
Definition areDependenciesMet (t : Task) (res : gmap string JSON) : bool :=
  forallb (fun depId => bool_decide (is_Some (res !! depId))) (depsOf t).

(** [executeTask] up to its first [await]. *)
Definition startTask (now : Z) (t : Task) : Task :=
  {| id := id t; description := description t; status := InProgress; tool := tool t;
     args := args t; dependencies := dependencies t; result := result t;
     error := error t; startTime := Some now; endTime := endTime t;
     retries := Some (orDefault (retries t) 0) |}.

(** The task object once its promise has settled and the caller's
    [try]/[catch] has run. *)
Definition settleTask (exec : ParallelExecutor) (s : Settlement) (t : Task) : Task :=
  {| id := id t; description := description t;
     status := match outcome s with Ok _ => Completed | Err _ => Failed end;
     tool := tool t; args := args t; dependencies := dependencies t;
     result := match outcome s with Ok v => Some v | Err _ => result t end;
     error := match outcome s with Ok _ => error t | Err e => Some e end;
     startTime := Some (lastStart s);
     endTime := Some (endedAt s);
     retries := Some (default 0%nat (retries t) + retriesUsed s)%nat |}.

(** What the retry logic of [executeTask] allows a settlement to be: a
    task without a tool throws at every attempt; a task gives up only
    when its retry budget is used up, and never retries beyond it. *)
Definition admissible (exec : ParallelExecutor) (t : Task) (s : Settlement) : bool :=
  let r0 := default 0%nat (retries t) in
  match outcome s with
  | Ok _ =>
      match tool t with
      | Some (String _ _) => (r0 + retriesUsed s <=? Nat.max r0 (maxRetries exec))%nat
      | _ => false
      end
  | Err _ => (r0 + retriesUsed s =? Nat.max r0 (maxRetries exec))%nat
  end.

Definition skipTask (t : Task) : Task :=
  {| id := id t; description := description t; status := Skipped; tool := tool t;
     args := args t; dependencies := dependencies t; result := result t;
     error := Some "Unmet dependencies or deadlock"; startTime := startTime t;
     endTime := endTime t; retries := retries t |}.

(** One callback of [ready.map(async (task) => ...)] up to its first
    [await]: the two set updates of [executeMixed], then [executeTask]. *)
Definition launchMixed (st : State) (job : Z * nat) : State :=
  match store st !! snd job with
  | None => st
  | Some t =>
      {| store := <[snd job := startTask (fst job) t]> (store st);
         results := results st;
         failedTasks := failedTasks st;
         pending := pending st ∖ {[id t]};
         inProgress := {[id t]} ∪ inProgress st;
         running := {[snd job]} ∪ running st;
         started := {[snd job]} ∪ started st;
         mode := mode st;
         exited := exited st |}
  end.

(** One callback of [batch.map(async (task) => ...)] of [executeParallel],
    and the body of the loop of [executeSequential], up to [executeTask]'s
    first [await]. *)
Definition launchPlain (st : State) (job : Z * nat) : State :=
  match store st !! snd job with
  | None => st
  | Some t =>
      {| store := <[snd job := startTask (fst job) t]> (store st);
         results := results st;
         failedTasks := failedTasks st;
         pending := pending st;
         inProgress := inProgress st;
         running := {[snd job]} ∪ running st;
         started := {[snd job]} ∪ started st;
         mode := mode st;
         exited := exited st |}
  end.

(** The positions to start, each with the clock reading of its start. *)
Definition jobs (clock : nat -> Z) (positions : list nat) : list (Z * nat) :=
  imap (fun k i => (clock k, i)) positions.

Definition positions (st : State) : list nat := seq 0 (List.length (store st)).

Definition taskHolds (st : State) (p : Task -> bool) (i : nat) : bool :=
  match store st !! i with
  | Some t => p t
  | None => false
  end.

(** The callback of [tasks.filter(...)] that computes [ready]. *)
Definition isReady (exec : ParallelExecutor) (st : State) (t : Task) : bool :=
  bool_decide (id t ∈ pending st)
  && areDependenciesMet t (results st)
  && (size (inProgress st) <? maxParallelTasks exec)%nat.

Definition readyTasks (exec : ParallelExecutor) (st : State) : list nat :=
  List.filter (taskHolds st (isReady exec st)) (positions st).

Definition remainingTasks (st : State) : list nat :=
  List.filter (taskHolds st (fun t => bool_decide (id t ∈ pending st))) (positions st).

(** The callback of [remainingTasks.forEach(...)]. *)
Definition skipOne (st : State) (i : nat) : State :=
  match store st !! i with
  | None => st
  | Some t =>
      {| store := <[i := skipTask t]> (store st);
         results := results st;
         failedTasks := failedTasks st ++ [i];
         pending := pending st ∖ {[id t]};
         inProgress := inProgress st;
         running := running st;
         started := started st;
         mode := mode st;
         exited := exited st |}
  end.

Definition setExited (st : State) : State :=
  {| store := store st; results := results st; failedTasks := failedTasks st;
     pending := pending st; inProgress := inProgress st; running := running st;
     started := started st; mode := mode st; exited := true |}.

Definition setMode (m : Mode) (st : State) : State :=
  {| store := store st; results := results st; failedTasks := failedTasks st;
     pending := pending st; inProgress := inProgress st; running := running st;
     started := started st; mode := m; exited := exited st |}.

(** One pass of the [while] loop of [executeMixed], from its condition to
    its [await]. With nothing ready and something in flight the pass only
    sleeps: the state is unchanged. *)
Definition mixedPass (exec : ParallelExecutor) (clock : nat -> Z) (st : State) : State :=
  if ((size (pending st) =? 0) && (size (inProgress st) =? 0))%nat
  then setExited st
  else
    let ready := readyTasks exec st in
    if ((List.length ready =? 0) && (size (inProgress st) =? 0))%nat
    then setExited (foldl skipOne st (remainingTasks st))
    else foldl launchMixed st (jobs clock ready).

(** [createBatches]: [for (i = 0; i < items.length; i += batchSize)].
    [None]: out of fuel. *)
Fixpoint createBatches {A : Type} (fuel : nat) (items : list A) (batchSize : nat)
    : option (list (list A)) :=
  match fuel with
  | O => None
  | S fuel' =>
      match items with
      | [] => Some []
      | _ => cons (take batchSize items) <$> createBatches fuel' (drop batchSize items) batchSize
      end
  end.

(** The scheduler's pass in each mode. [None]: the scheduler is not at a
    point where it can run (the loop has ended, or it awaits promises
    that have not all settled). *)
Definition pass (exec : ParallelExecutor) (clock : nat -> Z) (st : State) : option State :=
  if exited st then None
  else
    match mode st with
    | MixMode => Some (mixedPass exec clock st)
    | ParMode batches =>
        if bool_decide (running st = ∅) then
          match batches with
          | [] => Some (setExited st)
          | batch :: rest => Some (foldl launchPlain (setMode (ParMode rest) st) (jobs clock batch))
          end
        else None
    | SeqMode todo =>
        if bool_decide (running st = ∅) then
          match todo with
          | [] => Some (setExited st)
          | i :: rest => Some (launchPlain (setMode (SeqMode rest) st) (clock 0%nat, i))
          end
        else None
    end.

(** The promise of the task at position [i] settles: the rest of the
    callback that started it runs. In sequential mode a failure ends the
    loop. *)
Definition settle (exec : ParallelExecutor) (i : nat) (s : Settlement) (st : State)
    : option State :=
  match store st !! i with
  | None => None
  | Some t =>
      if bool_decide (i ∈ running st) && admissible exec t s then
        Some {| store := <[i := settleTask exec s t]> (store st);
                results :=
                  match outcome s with
                  | Ok v => <[id t := v]> (results st)
                  | Err _ => results st
                  end;
                failedTasks :=
                  match outcome s with
                  | Ok _ => failedTasks st
                  | Err _ => failedTasks st ++ [i]
                  end;
                pending := pending st;
                inProgress :=
                  match mode st with
                  | MixMode => inProgress st ∖ {[id t]}
                  | _ => inProgress st
                  end;
                running := running st ∖ {[i]};
                started := started st;
                mode :=
                  match mode st, outcome s with
                  | SeqMode _, Err _ => SeqMode []
                  | m, _ => m
                  end;
                exited := exited st |}
      else None
  end.

Definition step (exec : ParallelExecutor) (a : Action) (st : State) : option State :=
  match a with
  | Loop clock => pass exec clock st
  | Settle i s => settle exec i s st
  end.

Fixpoint run (exec : ParallelExecutor) (acts : list Action) (st : State) : option State :=
  match acts with
  | [] => Some st
  | a :: rest =>
      match step exec a st with
      | Some st' => run exec rest st'
      | None => None
      end
  end.

(** The state [executePlan] starts its mode from. [None]: [createBatches]
    does not return. *)
Definition initState (exec : ParallelExecutor) (plan : TaskPlan) : option State :=
  let ts := tasks plan in
  let st m :=
    {| store := ts; results := ∅; failedTasks := [];
       pending := match m with MixMode => list_to_set (id <$> ts) | _ => ∅ end;
       inProgress := ∅; running := ∅; started := ∅; mode := m; exited := false |} in
  match strategy plan with
  | Sequential => Some (st (SeqMode (seq 0 (List.length ts))))
  | Parallel =>
      (fun batches => st (ParMode batches))
        <$> createBatches (S (List.length ts)) (seq 0 (List.length ts)) (maxParallelTasks exec)
  | Mixed => Some (st MixMode)
  end.

(** What [executePlan] returns and leaves in the plan once the loop of
    its mode has ended. *)
Record Report : Type := {
  reportSuccess : bool;
  reportResults : gmap string JSON;
  reportFailed : list nat;
  reportPlan : TaskPlan;
}.

Definition report (plan : TaskPlan) (st : State) : Report :=
  let ok := (List.length (failedTasks st) =? 0)%nat in
  {| reportSuccess := ok;
     reportResults := results st;
     reportFailed := failedTasks st;
     reportPlan :=
       {| planId := planId plan; originalRequest := originalRequest plan;
          tasks := store st; strategy := strategy plan; createdAt := createdAt plan;
          planStatus := if ok then PlanCompleted else PlanFailed;
          completedTasks := size (results st);
          totalTasks := totalTasks plan |} |}.

(** The number of tasks whose status is ['in_progress']. *)
Definition inProgressCount (st : State) : nat :=
  List.length (List.filter (fun t => bool_decide (status t = InProgress)) (store st)).

(** *** One task, with its retries *)

(** [task.endTime = Date.now()]. *)
Definition setEndTime (now : Z) (t : Task) : Task :=
  {| id := id t; description := description t; status := status t; tool := tool t;
     args := args t; dependencies := dependencies t; result := result t;
     error := error t; startTime := startTime t; endTime := Some now;
     retries := retries t |}.

(** [task.retries!++]. *)
Definition bumpRetries (t : Task) : Task :=
  {| id := id t; description := description t; status := status t; tool := tool t;
     args := args t; dependencies := dependencies t; result := result t;
     error := error t; startTime := startTime t; endTime := endTime t;
     retries := Some (S (default 0%nat (retries t))) |}.

(** [executeTask], entered for the [k]-th time ([k] counts from 0).
    [invoke k] is what [resolveDependencies] followed by
    [toolRegistry.execute] gives at that attempt: the tool's result, or
    the message of what was thrown. [clock j] is the [j]-th reading of
    [Date.now()]: every attempt reads it once when it starts, the last
    one once more when it ends. Returns what the promise settles with
    and the task object as the code leaves it. [None]: out of fuel. *)
Fixpoint executeTask (fuel : nat) (exec : ParallelExecutor)
    (invoke : nat -> Result JSON) (clock : nat -> Z) (k : nat) (t : Task)
    : option (Result JSON * Task) :=
  match fuel with
  | O => None
  | S fuel' =>
      let t1 := startTask (clock k) t in
      let attempt :=
        match tool t1 with
        | Some (String _ _) => invoke k
        | _ => Err "Task has no tool specified"
        end in
      match attempt with
      | Ok v => Some (Ok v, setEndTime (clock (S k)) t1)
      | Err e =>
          if (default 0%nat (retries t1) <? maxRetries exec)%nat
          then executeTask fuel' exec invoke clock (S k) (bumpRetries t1)
          else Some (Err e, setEndTime (clock (S k)) t1)
      end
  end.

(** [executeOne]: the results map it creates is read by
    [resolveDependencies] only. *)
Definition executeOne (fuel : nat) (exec : ParallelExecutor)
    (invoke : nat -> Result JSON) (clock : nat -> Z) (t : Task)
    : option (Result JSON * Task) :=
  executeTask fuel exec invoke clock 0 t.

(** What the callers of [executeTask] do to the task when its promise
    settles: the [try] branch and the [catch] branch of
    [executeSequential], [executeParallel] and [executeMixed]. *)
Definition concludeTask (out : Result JSON) (t : Task) : Task :=
  match out with
  | Ok v =>
      {| id := id t; description := description t; status := Completed; tool := tool t;
         args := args t; dependencies := dependencies t; result := Some v;
         error := error t; startTime := startTime t; endTime := endTime t;
         retries := retries t |}
  | Err e =>
      {| id := id t; description := description t; status := Failed; tool := tool t;
         args := args t; dependencies := dependencies t; result := result t;
         error := Some e; startTime := startTime t; endTime := endTime t;
         retries := retries t |}
  end.

End Executor.

(* ================================================================== *)
(** * Properties *)

(** ** Chunker *)

Section ChunkerFacts.

Import Chunker.

Lemma substring_length_le (s : string) (n m : nat) :
  (String.length (String.substring n m s) <= m)%nat.
Proof.
  revert n m. induction s as [|c s IH]; intros [|n] [|m]; simpl; try lia.
  - specialize (IH 0%nat m). lia.
  - apply (IH n 0%nat).
  - apply (IH n (S m)).
Qed.

Lemma substring_all (s : string) : String.substring 0 (String.length s) s = s.
Proof. induction s as [|c s IH]; simpl; [reflexivity | now rewrite IH]. Qed.

Lemma append_String (c : ascii) (x y : string) :
  String.append (String c x) y = String c (String.append x y).
Proof. reflexivity. Qed.

(** Two adjacent pieces of a prefix glue back together. *)
Lemma substring_split (s : string) (a k : nat) :
  (a + k <= String.length s)%nat ->
  String.append (String.substring 0 a s) (String.substring a k s)
  = String.substring 0 (a + k) s.
Proof.
  revert a k. induction s as [|c s IH]; intros a k Hle; simpl in *.
  - assert (a = 0%nat) by lia. assert (k = 0%nat) by lia. subst. reflexivity.
  - destruct a as [|a]; simpl.
    + destruct k; reflexivity.
    + rewrite append_String. f_equal. apply IH. lia.
Qed.

Lemma slice_in_range (s : string) (a b : nat) :
  (a <= b <= String.length s)%nat ->
  JSString.slice s (Z.of_nat a) (Z.of_nat b) = String.substring a (b - a) s.
Proof.
  intros H. unfold JSString.slice, JSString.clampIndex.
  destruct (Z.ltb_spec (Z.of_nat a) 0); [lia|].
  destruct (Z.ltb_spec (Z.of_nat b) 0); [lia|].
  rewrite !Z.min_l by lia. rewrite Z.max_l by lia.
  rewrite Nat2Z.id. f_equal. lia.
Qed.

Lemma join_app (xs ys : list string) :
  JSString.join (xs ++ ys) = String.append (JSString.join xs) (JSString.join ys).
Proof.
  induction xs as [|x xs IH]; simpl; [reflexivity|].
  rewrite IH. clear. induction x as [|c x IHx]; [reflexivity|].
  rewrite !append_String. now rewrite IHx.
Qed.

Lemma append_empty_r (s : string) : String.append s EmptyString = s.
Proof. induction s as [|c s IH]; [reflexivity | now rewrite append_String, IH]. Qed.

(** The loop invariant of [fixedSizeLoop] without overlap: the chunks
    pushed so far spell the text up to the cursor. *)
Lemma fixedSizeLoop_spec (text : string) (n : Z) (fuel a : nat) (chunks : list string) :
  1 <= n ->
  (a <= String.length text)%nat ->
  (String.length text - a < fuel)%nat ->
  JSString.join chunks = String.substring 0 a text ->
  Forall (fun c => Z.of_nat (String.length c) <= n) chunks ->
  exists out,
    fixedSizeLoop fuel text n 0 (Z.of_nat a) chunks = Some out
    /\ JSString.join out = text
    /\ Forall (fun c => Z.of_nat (String.length c) <= n) out.
Proof.
  intros Hn. revert a chunks.
  induction fuel as [|fuel IH]; intros a chunks Ha Hfuel Hjoin Hall; [lia|].
  simpl. destruct (Z.ltb_spec (Z.of_nat a) (Z.of_nat (String.length text))) as [Hlt|Hge].
  - set (b := Z.to_nat (Z.min (Z.of_nat a + n) (Z.of_nat (String.length text)))).
    assert (Hb : Z.min (Z.of_nat a + n) (Z.of_nat (String.length text)) = Z.of_nat b)
      by (unfold b; lia).
    rewrite Hb. assert (Hab : (a < b <= String.length text)%nat) by lia.
    rewrite slice_in_range by lia.
    assert (Hjoin' : JSString.join (chunks ++ [String.substring a (b - a) text])
                     = String.substring 0 b text).
    { rewrite join_app, Hjoin. cbn [JSString.join fold_right]. rewrite append_empty_r.
      rewrite substring_split by lia. f_equal. lia. }
    assert (Hall' : Forall (fun c => Z.of_nat (String.length c) <= n)
                      (chunks ++ [String.substring a (b - a) text])).
    { apply Forall_app. split; [exact Hall|]. constructor; [|constructor].
      pose proof (substring_length_le text a (b - a)). lia. }
    rewrite !Z.sub_0_r.
    destruct (Z.geb_spec (Z.of_nat b) (Z.of_nat (String.length text))) as [Hend|Hmore].
    + eexists. split; [reflexivity|]. split; [|exact Hall'].
      rewrite Hjoin'. assert (b = String.length text) by lia. subst b.
      rewrite H. apply substring_all.
    + apply IH; try assumption; lia.
  - eexists. split; [reflexivity|]. split; [|exact Hall].
    rewrite Hjoin. assert (a = String.length text) by lia. subst a. apply substring_all.
Qed.

(** C10. Fixed-size chunking of any string [s] with a chunk size [n >= 1]
    and no overlap terminates (any fuel above the length of [s] is
    enough), every chunk has at most [n] characters, and the chunks
    joined in order are [s] again. *)
Theorem fixed_size_chunking_partitions
    (split : string -> string -> list string) (s : string) (n : Z) (fuel : nat)
    (ovl : option Z) (sep : option string) (cc : option (string -> list string)) :
  1 <= n ->
  orDefaultZ ovl 0 = 0 ->
  (String.length s < fuel)%nat ->
  exists chunks,
    chunkString split fuel s
      {| method := FixedSize; chunkSize := Some n; overlap := ovl;
         separator := sep; customChunker := cc |} = Some (Ok chunks)
    /\ JSString.join chunks = s
    /\ Forall (fun c => Z.of_nat (String.length c) <= n) chunks.
Proof.
  intros Hn Hovl Hfuel. unfold chunkString, fixedSizeChunking.
  cbn [method chunkSize overlap]. rewrite Hovl. assert (Hsz : orDefaultZ (Some n) 1000 = n) by (destruct n; simpl; lia || reflexivity).
  rewrite Hsz.
  destruct (fixedSizeLoop_spec s n fuel 0 []) as (out & Hrun & Hjoin & Hall);
    try lia; try (destruct s; reflexivity); [constructor|].
  change (Z.of_nat 0) with 0 in Hrun. rewrite Hrun. simpl. eauto.
Qed.

(** The text ["hello world"] in chunks of four characters. *)
Lemma fixed_size_chunking_partitions_witness :
  exists chunks,
    chunkString (fun _ _ => []) 12 "hello world"
      {| method := FixedSize; chunkSize := Some 4; overlap := Some 0;
         separator := None; customChunker := None |} = Some (Ok chunks)
    /\ JSString.join chunks = "hello world"
    /\ Forall (fun c => Z.of_nat (String.length c) <= 4) chunks.
Proof.
  apply (fixed_size_chunking_partitions (fun _ _ => []) "hello world" 4 12
           (Some 0) None None); [lia | reflexivity | simpl; lia].
Defined.

Example fixedSizeChunking_hello :
  fixedSizeChunking 12 "hello world" 4 0 = Some ["hell"; "o wo"; "rld"].
Proof. reflexivity. Qed.

End ChunkerFacts.

(** ** Planner: the fallback plan *)

Section PlannerFallback.

Import Planner.

(** A backend response the planner cannot use: no JSON text can be
    extracted from it, or the extracted text does not parse into a value
    that passes [validateTaskPlan]. *)
Definition responseRejected (env : Env) (response : string) : Prop :=
  match Validation.extractJSON response with
  | None => True
  | Some jsonStr =>
      Validation.safeJSONParse (jsonParse env) jsonStr Validation.validateTaskPlan = None
  end.

Lemma parsePlanResponse_rejected (env : Env) (response : string) (tools : list string) :
  responseRejected env response ->
  exists msg, parsePlanResponse env response tools = Err msg.
Proof.
  unfold responseRejected, parsePlanResponse.
  destruct (Validation.extractJSON response) as [jsonStr|]; [|eauto].
  intros ->. eauto.
Qed.

Example extractJSON_plain_text :
  Validation.extractJSON "I cannot produce JSON" = None.
Proof. reflexivity. Qed.

Example extractJSON_fenced :
  Validation.extractJSON
    (Js.cat ["Here: "; Validation.fence; "json"; Js.nl; "{}"; Js.nl; Validation.fence; " {x}"])
  = Some "{}".
Proof. reflexivity. Qed.

Example extractJSON_greedy :
  Validation.extractJSON "plan {a} and {b} end" = Some "{a} and {b}".
Proof. reflexivity. Qed.

(** C6. Whenever the backend's response fails JSON extraction or schema
    validation, [planTask] returns (it cannot throw) the plan with exactly
    one task, whose description is the request and whose tool is unset,
    with the sequential strategy and a total of one task. *)
Theorem planTask_falls_back_on_rejected_response
    (env : Env) (userRequest : string) (context : PlanningContext) (response : string) :
  callLLM env (buildPlanningPrompt userRequest context) = Ok response ->
  responseRejected env response ->
  let plan := planTask env userRequest context in
  (exists t, tasks plan = [t] /\ description t = userRequest /\ tool t = None)
  /\ strategy plan = Sequential
  /\ totalTasks plan = 1%nat.
Proof.
  intros Hcall Hrej plan. subst plan. unfold planTask. rewrite Hcall.
  cbn [rbind].
  destruct (parsePlanResponse_rejected env response (availableTools context) Hrej)
    as [msg ->].
  unfold createFallbackPlan. cbn.
  split; [eexists; repeat split | split; reflexivity].
Qed.

(** The backend answers every planning prompt with the text
    ["I cannot produce JSON"]. *)
Definition refusingEnv : Env :=
  {| callLLM := fun _ => Ok "I cannot produce JSON";
     jsonParse := fun _ => None;
     nanoid := "plan-1";
     dateNow := 0 |}.

Lemma planTask_falls_back_on_rejected_response_witness :
  let plan := planTask refusingEnv "Summarise the report"
                {| conversationHistory := []; availableTools := ["read_file"] |} in
  (exists t, tasks plan = [t] /\ description t = "Summarise the report" /\ tool t = None)
  /\ strategy plan = Sequential
  /\ totalTasks plan = 1%nat.
Proof.
  apply (planTask_falls_back_on_rejected_response refusingEnv "Summarise the report"
           {| conversationHistory := []; availableTools := ["read_file"] |}
           "I cannot produce JSON"); reflexivity.
Defined.

End PlannerFallback.

(** ** Reflector: the fallback reflection *)

Section ReflectorFallback.

Import Reflector.

(** The backend call behind [analyzeResult] fails: [callLLM] throws, or it
    answers with a text [parseReflectionResponse] throws on. *)
Definition reflectionFails (env : Env) (task : Task) (expected : option string) : Prop :=
  match callLLM env (reflectionPrompt env task expected) with
  | Err _ => True
  | Ok response => exists msg, parseReflectionResponse env response = Err msg
  end.

Lemma analyzeResult_fallback (env : Env) (task : Task) (expected : option string) :
  reflectionFails env task expected ->
  analyzeResult env task expected = createFallbackReflection task.
Proof.
  unfold reflectionFails, analyzeResult.
  destruct (callLLM env _) as [response|e]; cbn [rbind]; [|reflexivity].
  intros [msg ->]. reflexivity.
Qed.

(** A backend that cannot be reached. *)
Definition unreachableEnv : Env :=
  {| callLLM := fun _ => Err "fetch failed";
     jsonParse := fun _ => None;
     stringifyPretty := fun _ => EmptyString;
     toNumber := fun _ => None |}.

Definition failedTask (e : option string) : Task :=
  {| id := "task-0"; description := "Read the file"; status := Failed;
     tool := Some "read_file"; args := None; dependencies := None; result := None;
     error := e; startTime := None; endTime := None; retries := Some 2%nat |}.

(** C9, as stated, fails: a failed task whose stored error message is the
    empty string gets the issue ["Task failed"], not its stored message. *)
Lemma analyzeResult_issue_is_not_always_stored_error :
  ~ (forall (env : Env) (task : Task) (expected : option string) (e : string),
       status task = Failed ->
       error task = Some e ->
       reflectionFails env task expected ->
       issues (analyzeResult env task expected) = [JStr e]).
Proof.
  intros H.
  specialize (H unreachableEnv (failedTask (Some EmptyString)) None EmptyString
                eq_refl eq_refl I).
  discriminate H.
Qed.

(** The issue the fallback reports for a failed task: [task.error || 'Task failed']. *)
Definition fallbackIssue (task : Task) : string :=
  match error task with
  | Some EmptyString | None => "Task failed"
  | Some e => e
  end.

(** C9 (amended). For a failed task, whenever the backend call throws or
    its response cannot be parsed, [analyzeResult] returns the fallback
    reflection: no success, confidence 0, the single issue being the
    stored error message when the task has a non-empty one and
    ["Task failed"] otherwise, and a retry suggested; the result is the
    same for every such invocation, whatever the backend did. *)
Theorem analyzeResult_failed_task_fallback
    (env : Env) (task : Task) (expected : option string) :
  status task = Failed ->
  reflectionFails env task expected ->
  let r := analyzeResult env task expected in
  success r = false
  /\ confidence r = Some 0%Q
  /\ issues r = [JStr (fallbackIssue task)]
  /\ shouldRetry r = true
  /\ (forall (env' : Env) (expected' : option string),
        reflectionFails env' task expected' ->
        analyzeResult env' task expected' = r).
Proof.
  intros Hst Hfail r. subst r.
  rewrite (analyzeResult_fallback env task expected Hfail).
  unfold createFallbackReflection, fallbackIssue. rewrite Hst.
  cbn [success confidence issues shouldRetry].
  split; [reflexivity|]. split; [reflexivity|]. split.
  { destruct (error task) as [[|c e]|]; reflexivity. }
  split; [reflexivity|].
  intros env' expected' Hfail'.
  rewrite (analyzeResult_fallback env' task expected' Hfail').
  unfold createFallbackReflection. rewrite Hst. reflexivity.
Qed.

Lemma analyzeResult_failed_task_fallback_witness :
  let r := analyzeResult unreachableEnv (failedTask (Some "ENOENT: no such file")) None in
  success r = false
  /\ confidence r = Some 0%Q
  /\ issues r = [JStr (fallbackIssue (failedTask (Some "ENOENT: no such file")))]
  /\ shouldRetry r = true
  /\ (forall (env' : Env) (expected' : option string),
        reflectionFails env' (failedTask (Some "ENOENT: no such file")) expected' ->
        analyzeResult env' (failedTask (Some "ENOENT: no such file")) expected' = r).
Proof.
  apply (analyzeResult_failed_task_fallback unreachableEnv
           (failedTask (Some "ENOENT: no such file")) None); [reflexivity | exact I].
Defined.

End ReflectorFallback.

(** ** Planner: topological sort *)

Section TopologicalSort.

Import Planner.

Definition ids (l : list Task) : list string := id <$> l.

Definition idSet (l : list Task) : gset string := list_to_set (ids l).

(** An edge of the dependency graph of a task list: the task named [a]
    lists [b] as a dependency, and [b] names a task of the list. *)
Definition depEdge (ts : list Task) (a b : string) : Prop :=
  exists t, t ∈ ts /\ id t = a /\ b ∈ depsOf t /\ b ∈ ids ts.

(** [b] is a transitive dependency of [a]. *)
Definition dependsOn (ts : list Task) : relation string := tc (depEdge ts).

Definition acyclic (ts : list Task) : Prop := forall a, ~ dependsOn ts a a.

(** The task named [b] stands at an earlier position of [l] than the
    task named [a]. *)
Definition before (l : list Task) (b a : string) : Prop :=
  exists i j, (j < i)%nat /\ ids l !! i = Some a /\ ids l !! j = Some b.

(** Every dependency of every task of [l] that names a task of [ts]
    stands earlier in [l]. *)
Definition ordered (ts l : list Task) : Prop :=
  forall i x d, l !! i = Some x -> d ∈ depsOf x -> d ∈ ids ts ->
    exists j, (j < i)%nat /\ ids l !! j = Some d.

Definition isCycleError (ts : list Task) (msg : string) : Prop :=
  exists u, dependsOn ts u u /\ msg = Js.cat ["Circular dependency detected: "; u].

Variable ts : list Task.
Hypothesis unique_ids : NoDup (ids ts).

Lemma same_id_same_task (x y : Task) : x ∈ ts -> y ∈ ts -> id x = id y -> x = y.
Proof.
  intros Hx Hy Hid.
  apply list_elem_of_lookup in Hx as [i Hi]. apply list_elem_of_lookup in Hy as [j Hj].
  assert (i = j).
  { eapply NoDup_lookup; [exact unique_ids | |]; unfold ids; rewrite list_lookup_fmap.
    - rewrite Hi. reflexivity.
    - rewrite Hj. cbn. now rewrite Hid. }
  subst j. congruence.
Qed.

Lemma findTask_Some (d : string) (u : Task) : findTask ts d = Some u -> u ∈ ts /\ id u = d.
Proof.
  unfold findTask. intros H. apply find_some in H as [Hin Heq].
  split; [now apply list_elem_of_In | now apply String.eqb_eq].
Qed.

Lemma findTask_None (d : string) : findTask ts d = None -> d ∉ ids ts.
Proof.
  unfold findTask, ids. intros H Hin. apply list_elem_of_fmap in Hin as (u & -> & Hu).
  apply list_elem_of_In in Hu. pose proof (find_none _ _ H u Hu) as Hne.
  cbv beta in Hne. rewrite String.eqb_refl in Hne. discriminate.
Qed.

Lemma id_in_ids (l : list Task) (t : Task) : t ∈ l -> id t ∈ ids l.
Proof. intros H. unfold ids. apply list_elem_of_fmap. eauto. Qed.

Lemma id_in_idSet (l : list Task) (t : Task) : t ∈ l -> id t ∈ idSet l.
Proof. intros H. unfold idSet. apply elem_of_list_to_set. now apply id_in_ids. Qed.

(** What holds of the sort's state between two steps. *)
Record Inv (st : SortState) : Prop := {
  inv_visiting : visiting st ⊆ idSet ts;
  inv_visited : visited st = idSet (sorted st);
  inv_nodup : NoDup (ids (sorted st));
  inv_members : forall x, x ∈ sorted st -> x ∈ ts;
  inv_disjoint : visiting st ## visited st;
  inv_ordered : ordered ts (sorted st);
}.

Lemma Inv_push (st2 : SortState) (t : Task) (V : gset string) :
  Inv st2 -> t ∈ ts -> visiting st2 = {[id t]} ∪ V -> id t ∉ V ->
  (forall d, d ∈ depsOf t -> d ∈ ids ts -> d ∈ visited st2) ->
  Inv {| sorted := sorted st2 ++ [t]; visited := {[id t]} ∪ visited st2;
         visiting := visiting st2 ∖ {[id t]} |}.
Proof.
  intros [Hv Hvd Hnd Hm Hdj Hord] Ht HV HtV Hdeps.
  assert (Hfresh : id t ∉ visited st2) by set_solver.
  constructor; cbn.
  - set_solver.
  - unfold idSet, ids in *. rewrite fmap_app, list_to_set_app_L. cbn. set_solver.
  - unfold ids. rewrite fmap_app. apply NoDup_app. split; [exact Hnd|]. split.
    + intros x Hx Hx'. cbn in Hx'. apply list_elem_of_singleton in Hx'. subst x.
      apply Hfresh. rewrite Hvd. unfold idSet. now apply elem_of_list_to_set.
    + cbn. apply NoDup_singleton.
  - intros x Hx. apply elem_of_app in Hx as [Hx|Hx]; [now apply Hm|].
    apply list_elem_of_singleton in Hx. now subst.
  - set_solver.
  - intros i x d Hi Hd Hin. apply lookup_app_Some in Hi as [Hi|[Hlen Hi]].
    + destruct (Hord i x d Hi Hd Hin) as (j & Hj & Hjd). exists j. split; [exact Hj|].
      unfold ids in *. rewrite fmap_app. now apply lookup_app_l_Some.
    + apply list_lookup_singleton_Some in Hi as [Hi ->].
      specialize (Hdeps d Hd Hin). rewrite Hvd in Hdeps. unfold idSet in Hdeps.
      apply elem_of_list_to_set, list_elem_of_lookup in Hdeps as [j Hj].
      exists j. split.
      * apply lookup_lt_Some in Hj. unfold ids in Hj. rewrite length_fmap in Hj. lia.
      * unfold ids in *. rewrite fmap_app. now apply lookup_app_l_Some.
Qed.

(** What a run of the sort may end in: never out of fuel; a state that
    satisfies [P]; or the error that reports a cycle of [ts]. *)
Definition outcomeSpec (r : option (Result SortState)) (P : SortState -> Prop) : Prop :=
  match r with
  | None => False
  | Some (Ok st') => P st'
  | Some (Err m) => isCycleError ts m
  end.

Record Post (st st' : SortState) : Prop := {
  post_inv : Inv st';
  post_visiting : visiting st' = visiting st;
  post_visited : visited st ⊆ visited st';
}.

Lemma Post_refl (st : SortState) : Inv st -> Post st st.
Proof. intros H. constructor; [exact H | reflexivity | reflexivity]. Qed.

Lemma Post_trans (st1 st2 st3 : SortState) : Post st1 st2 -> Post st2 st3 -> Post st1 st3.
Proof.
  intros [_ Hv1 Hs1] [Hi Hv2 Hs2]. constructor; [exact Hi | congruence | set_solver].
Qed.

Lemma visitDeps_spec (rec : Task -> SortState -> option (Result SortState))
    (V : gset string) :
  (forall u st, u ∈ ts -> Inv st -> visiting st = V ->
     (forall v, v ∈ V -> dependsOn ts v (id u)) ->
     outcomeSpec (rec u st) (fun st' => Post st st' /\ id u ∈ visited st')) ->
  forall deps st, Inv st -> visiting st = V ->
    (forall v d, v ∈ V -> d ∈ deps -> d ∈ ids ts -> dependsOn ts v d) ->
    outcomeSpec (visitDeps rec ts deps st)
      (fun st' => Post st st' /\ forall d, d ∈ deps -> d ∈ ids ts -> d ∈ visited st').
Proof.
  intros Hrec deps. induction deps as [|d rest IH]; intros st Hinv HV Hpath; cbn.
  - split; [now apply Post_refl|]. intros d Hd. inversion Hd.
  - destruct (findTask ts d) as [u|] eqn:Hfind.
    + apply findTask_Some in Hfind as [Hu Hid]. subst d.
      assert (Hpu : forall v, v ∈ V -> dependsOn ts v (id u)).
      { intros v Hv. apply (Hpath v (id u) Hv); [left | now apply id_in_ids]. }
      pose proof (Hrec u st Hu Hinv HV Hpu) as Hstep.
      destruct (rec u st) as [[st1|m]|]; cbn in Hstep |- *; [|exact Hstep|exact Hstep].
      destruct Hstep as [Hpost1 Hvis1].
      assert (Hrest : forall v d, v ∈ V -> d ∈ rest -> d ∈ ids ts -> dependsOn ts v d).
      { intros v d Hv Hd. apply Hpath; [exact Hv | now right]. }
      pose proof (IH st1 (post_inv _ _ Hpost1)
                    (eq_trans (post_visiting _ _ Hpost1) HV) Hrest) as Htail.
      destruct (visitDeps rec ts rest st1) as [[st2|m]|]; cbn in Htail |- *;
        [|exact Htail|exact Htail].
      destruct Htail as [Hpost2 Hvis2]. split; [now apply (Post_trans st st1 st2)|].
      intros d Hd Hin. apply elem_of_cons in Hd as [->|Hd]; [|now apply Hvis2].
      now apply (post_visited _ _ Hpost2).
    + apply findTask_None in Hfind.
      assert (Hrest : forall v d', v ∈ V -> d' ∈ rest -> d' ∈ ids ts -> dependsOn ts v d').
      { intros v d' Hv Hd. apply Hpath; [exact Hv | now right]. }
      pose proof (IH st Hinv HV Hrest) as Htail.
      destruct (visitDeps rec ts rest st) as [[st2|m]|]; cbn in Htail |- *;
        [|exact Htail|exact Htail].
      destruct Htail as [Hpost2 Hvis2]. split; [exact Hpost2|].
      intros d' Hd Hin. apply elem_of_cons in Hd as [->|Hd]; [contradiction|now apply Hvis2].
Qed.

Lemma visit_spec (fuel : nat) :
  forall t st, t ∈ ts -> Inv st ->
    (size (idSet ts ∖ visiting st) < fuel)%nat ->
    (forall v, v ∈ visiting st -> dependsOn ts v (id t)) ->
    outcomeSpec (visit fuel ts t st) (fun st' => Post st st' /\ id t ∈ visited st').
Proof.
  induction fuel as [|fuel IH]; intros t st Ht Hinv Hfuel Hpath; [lia|].
  cbn [visit].
  destruct (decide (id t ∈ visited st)) as [Hvisited|Hnew]; cbn.
  { split; [now apply Post_refl | exact Hvisited]. }
  destruct (decide (id t ∈ visiting st)) as [Hvisiting|Hfree]; cbn.
  { exists (id t). split; [now apply Hpath | reflexivity]. }
  set (V' := {[id t]} ∪ visiting st).
  set (st1 := {| sorted := sorted st; visited := visited st; visiting := V' |}).
  assert (Hinv1 : Inv st1).
  { destruct Hinv as [Hv Hvd Hnd Hm Hdj Hord]. constructor; cbn; try assumption.
    - pose proof (id_in_idSet ts t Ht). set_solver.
    - set_solver. }
  assert (Hsize : (size (idSet ts ∖ V') < fuel)%nat).
  { assert (Heq : idSet ts ∖ visiting st = {[id t]} ∪ (idSet ts ∖ V')).
    { pose proof (id_in_idSet ts t Ht). apply set_eq. intros x. unfold V'.
      rewrite !elem_of_union, !elem_of_difference, elem_of_union, elem_of_singleton.
      destruct (decide (x = id t)) as [->|Hne]; [tauto|]. tauto. }
    rewrite Heq, size_union, size_singleton in Hfuel by set_solver. lia. }
  assert (Hrec : forall u st0, u ∈ ts -> Inv st0 -> visiting st0 = V' ->
            (forall v, v ∈ V' -> dependsOn ts v (id u)) ->
            outcomeSpec (visit fuel ts u st0)
              (fun st' => Post st0 st' /\ id u ∈ visited st')).
  { intros u st0 Hu Hinv0 HV0 Hp. apply IH; try assumption; rewrite HV0; assumption. }
  assert (Hpath1 : forall v d, v ∈ V' -> d ∈ depsOf t -> d ∈ ids ts -> dependsOn ts v d).
  { intros v d Hv Hd Hin.
    assert (Hedge : depEdge ts (id t) d) by (exists t; auto).
    unfold V' in Hv. apply elem_of_union in Hv as [Hv|Hv].
    - apply elem_of_singleton in Hv. subst v. now apply tc_once.
    - eapply tc_r; [now apply Hpath | exact Hedge]. }
  pose proof (visitDeps_spec (visit fuel ts) V' Hrec (depsOf t) st1 Hinv1 eq_refl Hpath1)
    as Hdeps.
  destruct (visitDeps (visit fuel ts) ts (depsOf t) st1) as [[st2|m]|];
    cbn in Hdeps |- *; [|exact Hdeps|exact Hdeps].
  destruct Hdeps as [[Hinv2 Hving2 Hved2] Hall].
  cbn in Hving2, Hved2.
  split; [|set_solver].
  constructor; cbn.
  - apply (Inv_push st2 t (visiting st)); assumption.
  - rewrite Hving2. unfold V'. set_solver.
  - set_solver.
Qed.

Lemma visitAll_spec (fuel : nat) :
  (size (idSet ts) < fuel)%nat ->
  forall todo st, (forall t, t ∈ todo -> t ∈ ts) -> Inv st -> visiting st = ∅ ->
    outcomeSpec (visitAll fuel ts todo st)
      (fun st' => Post st st' /\ forall t, t ∈ todo -> id t ∈ visited st').
Proof.
  intros Hfuel todo. induction todo as [|t rest IH]; intros st Hsub Hinv Hempty; cbn.
  - split; [now apply Post_refl|]. intros t Ht. inversion Ht.
  - assert (Hstep : outcomeSpec (visit fuel ts t st)
                      (fun st' => Post st st' /\ id t ∈ visited st')).
    { apply visit_spec; [apply Hsub; left | exact Hinv | | ].
      - rewrite Hempty, difference_empty_L. exact Hfuel.
      - intros v Hv. rewrite Hempty in Hv. set_solver. }
    destruct (visit fuel ts t st) as [[st1|m]|]; cbn in Hstep |- *;
      [|exact Hstep|exact Hstep].
    destruct Hstep as [Hpost1 Hvis1].
    assert (Hsub' : forall u, u ∈ rest -> u ∈ ts) by (intros u Hu; apply Hsub; now right).
    pose proof (IH st1 Hsub' (post_inv _ _ Hpost1)
                  (eq_trans (post_visiting _ _ Hpost1) Hempty)) as Htail.
    destruct (visitAll fuel ts rest st1) as [[st2|m]|]; cbn in Htail |- *;
      [|exact Htail|exact Htail].
    destruct Htail as [Hpost2 Hvis2]. split; [now apply (Post_trans st st1 st2)|].
    intros u Hu. apply elem_of_cons in Hu as [->|Hu]; [|now apply Hvis2].
    now apply (post_visited _ _ Hpost2).
Qed.

Lemma Inv_initial : Inv {| sorted := []; visited := ∅; visiting := ∅ |}.
Proof.
  constructor; cbn; try set_solver.
  - apply NoDup_nil_2.
  - intros i x d Hi. rewrite lookup_nil in Hi. discriminate.
Qed.

Lemma size_idSet : size (idSet ts) = List.length ts.
Proof.
  unfold idSet. rewrite size_list_to_set by exact unique_ids.
  unfold ids. apply length_fmap.
Qed.

(** The three possible results of the sort, with enough fuel. *)
Lemma topologicalSort_spec (fuel : nat) :
  (List.length ts < fuel)%nat ->
  match topologicalSort fuel ts with
  | None => False
  | Some (Ok l) => l ≡ₚ ts /\ NoDup (ids l) /\ ordered ts l
  | Some (Err m) => isCycleError ts m
  end.
Proof.
  intros Hfuel. rewrite <- size_idSet in Hfuel. unfold topologicalSort.
  pose proof (visitAll_spec fuel Hfuel ts _ (fun t H => H) Inv_initial eq_refl) as Hrun.
  destruct (visitAll fuel ts ts _) as [[st|m]|]; cbn in Hrun |- *; [|exact Hrun|exact Hrun].
  destruct Hrun as [[[Hv Hvd Hnd Hm Hdj Hord] _ _] Hall].
  split; [|split; assumption].
  apply NoDup_Permutation.
  - eapply NoDup_fmap_1. exact Hnd.
  - eapply NoDup_fmap_1. exact unique_ids.
  - intros x. split; [apply Hm|]. intros Hx.
    specialize (Hall x Hx). rewrite Hvd in Hall. unfold idSet, ids in Hall.
    apply elem_of_list_to_set, list_elem_of_fmap in Hall as (y & Hid & Hy).
    rewrite (same_id_same_task x y Hx (Hm y Hy) Hid). exact Hy.
Qed.

Section Order.

Variable l : list Task.
Hypothesis l_perm : l ≡ₚ ts.
Hypothesis l_nodup : NoDup (ids l).
Hypothesis l_ordered : ordered ts l.

Lemma edge_before (a b : string) : depEdge ts a b -> before l b a.
Proof.
  intros (t & Ht & Hid & Hb & Hin).
  rewrite <- l_perm in Ht. apply list_elem_of_lookup in Ht as [i Hi].
  destruct (l_ordered i t b Hi Hb Hin) as (j & Hj & Hjb).
  exists i, j. split; [exact Hj|]. split; [|exact Hjb].
  unfold ids. rewrite list_lookup_fmap, Hi. cbn. now rewrite Hid.
Qed.

Lemma before_trans (a b c : string) : before l c b -> before l b a -> before l c a.
Proof.
  intros (i1 & j1 & H1 & Hb1 & Hc) (i2 & j2 & H2 & Ha & Hb2).
  assert (i1 = j2) by (eapply NoDup_lookup; eauto). subst j2.
  exists i2, j1. split; [lia|]. split; assumption.
Qed.

Lemma dependsOn_before (a b : string) : dependsOn ts a b -> before l b a.
Proof.
  induction 1 as [a b Hedge|a b c Hedge _ IH].
  - now apply edge_before.
  - eapply before_trans; [exact IH | now apply edge_before].
Qed.

Lemma before_irrefl (a : string) : ~ before l a a.
Proof.
  intros (i & j & Hlt & Hi & Hj).
  assert (i = j) by (eapply NoDup_lookup; eauto). lia.
Qed.

(** A list the sort can return leaves no room for a cycle. *)
Lemma sorted_acyclic : acyclic ts.
Proof. intros a Hcyc. apply (before_irrefl a). now apply dependsOn_before. Qed.

End Order.

End TopologicalSort.

(** C4. For a plan with distinct task identifiers and an acyclic
    dependency graph, [optimizePlan] returns (any fuel above the number of
    tasks is enough) a plan with exactly the same tasks, so ordered that
    every transitive dependency of a task that names a task of the plan
    stands before it. *)
Theorem optimizePlan_sorts_topologically (plan : TaskPlan) (fuel : nat) :
  NoDup (ids (tasks plan)) ->
  acyclic (tasks plan) ->
  (List.length (tasks plan) < fuel)%nat ->
  exists plan',
    Planner.optimizePlan fuel plan = Some (Ok plan')
    /\ tasks plan' ≡ₚ tasks plan
    /\ (forall a b, dependsOn (tasks plan) a b -> before (tasks plan') b a).
Proof.
  intros Hnd Hacyc Hfuel. unfold Planner.optimizePlan.
  pose proof (topologicalSort_spec (tasks plan) Hnd fuel Hfuel) as Hspec.
  destruct (Planner.topologicalSort fuel (tasks plan)) as [[l|m]|]; [| |contradiction].
  - destruct Hspec as (Hperm & Hnodup & Hord). eexists. split; [reflexivity|].
    cbn. split; [exact Hperm|].
    intros a b. now apply dependsOn_before.
  - destruct Hspec as (u & Hcyc & _). destruct (Hacyc u Hcyc).
Qed.

(** C5. For a task list with distinct identifiers whose dependency graph
    has a cycle, [optimizePlan] terminates (any fuel above the number of
    tasks is enough) by throwing the error that names a task on a cycle;
    it returns no plan. *)
Theorem optimizePlan_rejects_cycles (plan : TaskPlan) (fuel : nat) :
  NoDup (ids (tasks plan)) ->
  (exists a, dependsOn (tasks plan) a a) ->
  (List.length (tasks plan) < fuel)%nat ->
  exists msg,
    Planner.optimizePlan fuel plan = Some (Err msg)
    /\ isCycleError (tasks plan) msg.
Proof.
  intros Hnd [a Hcyc] Hfuel. unfold Planner.optimizePlan.
  pose proof (topologicalSort_spec (tasks plan) Hnd fuel Hfuel) as Hspec.
  destruct (Planner.topologicalSort fuel (tasks plan)) as [[l|m]|]; [| |contradiction].
  - destruct Hspec as (Hperm & Hnodup & Hord).
    destruct (sorted_acyclic (tasks plan) l Hperm Hnodup Hord a Hcyc).
  - eauto.
Qed.

Section TopologicalSortExamples.

Definition mkTask (name : string) (toolName : option string) (deps : list string) : Task :=
  {| id := name; description := name; status := Pending; tool := toolName;
     args := None; dependencies := Some deps; result := None; error := None;
     startTime := None; endTime := None; retries := None |}.

Definition mkPlan (ts : list Task) (s : PlanStrategy) : TaskPlan :=
  {| planId := "plan"; originalRequest := "request"; tasks := ts; strategy := s;
     createdAt := 0; planStatus := Planning; completedTasks := 0;
     totalTasks := List.length ts |}.

(** [report] needs [fetch] and [parse]; [parse] needs [fetch]. *)
Definition diamond : list Task :=
  [ mkTask "report" (Some "write_file") ["fetch"; "parse"];
    mkTask "parse" (Some "edit_file") ["fetch"];
    mkTask "fetch" (Some "read_file") [] ].

Example topologicalSort_diamond :
  Planner.topologicalSort 4 diamond
  = Some (Ok [ mkTask "fetch" (Some "read_file") [];
               mkTask "parse" (Some "edit_file") ["fetch"];
               mkTask "report" (Some "write_file") ["fetch"; "parse"] ]).
Proof. vm_compute. reflexivity. Qed.

Lemma diamond_unique_ids : NoDup (ids diamond).
Proof. apply (bool_decide_unpack _). vm_compute. reflexivity. Qed.

Lemma diamond_acyclic : acyclic diamond.
Proof.
  apply (sorted_acyclic diamond
           [ mkTask "fetch" (Some "read_file") [];
             mkTask "parse" (Some "edit_file") ["fetch"];
             mkTask "report" (Some "write_file") ["fetch"; "parse"] ]).
  - unfold diamond. symmetry.
    etrans; [apply perm_swap|]. etrans; [apply perm_skip, perm_swap|]. apply perm_swap.
  - apply (bool_decide_unpack _). vm_compute. reflexivity.
  - intros i x d Hi Hd _. destruct i as [|[|[|i]]]; cbn in Hi; try discriminate;
      inversion Hi; subst x; cbn in Hd.
    + inversion Hd.
    + apply list_elem_of_singleton in Hd. subst d. exists 0%nat. split; [lia|reflexivity].
    + apply elem_of_cons in Hd as [->|Hd].
      * exists 0%nat. split; [lia|reflexivity].
      * apply list_elem_of_singleton in Hd. subst d. exists 1%nat. split; [lia|reflexivity].
Qed.

Lemma optimizePlan_sorts_topologically_witness :
  exists plan',
    Planner.optimizePlan 4 (mkPlan diamond Sequential) = Some (Ok plan')
    /\ tasks plan' ≡ₚ diamond
    /\ (forall a b, dependsOn diamond a b -> before (tasks plan') b a).
Proof.
  apply (optimizePlan_sorts_topologically (mkPlan diamond Sequential) 4).
  - exact diamond_unique_ids.
  - exact diamond_acyclic.
  - cbn. lia.
Defined.

(** Distinct identifiers are needed: of two tasks with one identifier the
    sort keeps the first only. *)
Example topologicalSort_same_identifier :
  Planner.topologicalSort 3
    [ mkTask "fetch" (Some "read_file") []; mkTask "fetch" (Some "web_search") [] ]
  = Some (Ok [ mkTask "fetch" (Some "read_file") [] ]).
Proof. vm_compute. reflexivity. Qed.

(** Two tasks that wait for each other. *)
Definition knot : list Task :=
  [ mkTask "left" (Some "read_file") ["right"];
    mkTask "right" (Some "read_file") ["left"] ].

Example topologicalSort_knot :
  Planner.topologicalSort 3 knot = Some (Err "Circular dependency detected: left").
Proof. vm_compute. reflexivity. Qed.

Lemma knot_unique_ids : NoDup (ids knot).
Proof. apply (bool_decide_unpack _). vm_compute. reflexivity. Qed.

Lemma knot_cycle : exists a, dependsOn knot a a.
Proof.
  exists "left". apply (tc_l _ _ "right").
  - exists (mkTask "left" (Some "read_file") ["right"]). cbn. set_solver.
  - apply tc_once. exists (mkTask "right" (Some "read_file") ["left"]). cbn. set_solver.
Qed.

Lemma optimizePlan_rejects_cycles_witness :
  exists msg,
    Planner.optimizePlan 3 (mkPlan knot Mixed) = Some (Err msg)
    /\ isCycleError knot msg.
Proof.
  apply (optimizePlan_rejects_cycles (mkPlan knot Mixed) 3).
  - exact knot_unique_ids.
  - exact knot_cycle.
  - cbn. lia.
Defined.

End TopologicalSortExamples.

(** ** RLM executor *)

Section RLMFacts.

Import RLM.

(** No variable of the context is above the chunking threshold. *)
Definition noLargeVariable (env : Env) (vars : list (string * JSON)) : Prop :=
  forall key value, (key, value) ∈ vars -> (getSize env value <= 1000)%nat.

Lemma largestLoop_bound (env : Env) (vars : list (string * JSON)) (bound : nat) :
  (forall key value, (key, value) ∈ vars -> (getSize env value <= bound)%nat) ->
  forall largest size, (size <= bound)%nat ->
    (snd (largestLoop env vars largest size) <= bound)%nat.
Proof.
  induction vars as [|[key value] rest IH]; intros Hall largest size Hsize;
    cbn [largestLoop snd].
  - exact Hsize.
  - assert (Hv : (getSize env value <= bound)%nat) by (apply (Hall key); left).
    assert (Hrest : forall k v, (k, v) ∈ rest -> (getSize env v <= bound)%nat)
      by (intros k v Hin; apply (Hall k); now right).
    destruct (size <? getSize env value)%nat; now apply IH.
Qed.

Lemma findLargestVariable_small (env : Env) (vars : list (string * JSON)) :
  noLargeVariable env vars -> findLargestVariable env vars = None.
Proof.
  intros Hsmall. unfold findLargestVariable.
  pose proof (largestLoop_bound env vars 1000 Hsmall None 0%nat ltac:(lia)) as Hb.
  destruct (largestLoop env vars None 0%nat) as [largest size]. cbn in Hb.
  destruct (Nat.ltb_spec 1000 size); [lia | reflexivity].
Qed.

(** *** Variables that hold data *)

Definition allData (vars : list (string * Held)) : Prop :=
  Forall (fun entry => exists v, snd entry = Data v) vars.

Lemma hold_allData (vars : list (string * JSON)) : allData (hold vars).
Proof.
  unfold allData, hold. induction vars as [|[key v] rest IH]; cbn; constructor; eauto.
Qed.

Lemma objSet_allData (key : string) (v : JSON) (vars : list (string * Held)) :
  allData vars -> allData (Js.objSet key (Data v) vars).
Proof.
  unfold allData. induction vars as [|[k x] rest IH]; intros Hall; cbn [Js.objSet].
  - constructor; [cbn; eauto | constructor].
  - apply Forall_cons in Hall as [Hx Hrest].
    destruct (String.eqb k key); constructor; cbn; eauto.
Qed.

Lemma dataOf_hold (vars : list (string * JSON)) : dataOf (hold vars) = Some vars.
Proof.
  induction vars as [|[key v] rest IH]; [reflexivity|].
  cbn [hold List.map fst snd dataOf]. fold (hold rest). now rewrite IH.
Qed.

Lemma findLargest_hold (env : Env) (vars : list (string * JSON)) :
  findLargest env (hold vars) = Ok (findLargestVariable env vars).
Proof. unfold findLargest. now rewrite dataOf_hold. Qed.

Lemma promptEntries_allData (env : Env) (vars : list (string * Held)) :
  allData vars -> exists texts, promptEntries env vars = Ok texts.
Proof.
  unfold allData. induction vars as [|[key h] rest IH]; intros Hall; [now exists []|].
  apply Forall_cons in Hall as [[v Hv] Hrest]. cbn in Hv. subst h.
  destruct (IH Hrest) as [texts Htexts]. cbn [promptEntries]. rewrite Htexts.
  unfold promptEntry. cbn [snd fst].
  assert (Hs : exists s, serializeValue env (Data v) = Some s)
    by (destruct v as [|[]| | | |]; cbn; eauto).
  destruct Hs as [s ->]. cbn. eauto.
Qed.

Lemma buildPrompt_allData (env : Env) (text : string) (vars : list (string * Held)) :
  allData vars -> exists full, buildPromptWithContext env text vars = Ok full.
Proof.
  intros Hall. unfold buildPromptWithContext.
  destruct (promptEntries_allData env vars Hall) as [texts ->]. cbn. eauto.
Qed.

(** *** One call *)

Lemma alter_pushed {A : Type} (f : A -> A) (l : list A) (x : A) :
  alter f (List.length l) (l ++ [x]) = l ++ [f x].
Proof. induction l as [|y l IH]; [reflexivity|]. cbn. now rewrite IH. Qed.

(** The ways the part of [makeRLMCall] before the provider's answer can
    go: refused for its depth, with nothing changed; refused for the
    time, with only the clock read; or recorded in the trajectory, and
    then either the provider is called with the prompt built, or
    building the prompt throws and the provider is not called. *)
Lemma launchCall_cases (exec : Executor) (env : Env) (text : string)
    (ctx : RLMContext) (run : Run) :
  (maxRecursionDepth exec <= Z.of_nat (currentDepth ctx) ->
     launchCall exec env text ctx run = (Rejected (depthError exec), run))
  /\ (Z.of_nat (currentDepth ctx) < maxRecursionDepth exec ->
      maxExecutionTime exec <= clock env (ticks run) - startedAt run ->
      exists run',
        launchCall exec env text ctx run = (Rejected (timeError exec), run')
        /\ calls run' = calls run /\ backendCalls run' = backendCalls run
        /\ startedAt run' = startedAt run /\ ticks run' = S (ticks run))
  /\ (Z.of_nat (currentDepth ctx) < maxRecursionDepth exec ->
      clock env (ticks run) - startedAt run < maxExecutionTime exec ->
      exists run' call,
        (launchCall exec env text ctx run).2 = run'
        /\ calls run' = calls run ++ [call]
        /\ depth call = currentDepth ctx
        /\ callStart call = Some (clock env (S (ticks run)))
        /\ startedAt run' = startedAt run
        /\ (ticks run < ticks run')%nat
        /\ ((exists full,
               buildPromptWithContext env text (variables ctx) = Ok full
               /\ (launchCall exec env text ctx run).1
                  = Started (List.length (calls run)) full
               /\ backendCalls run' = S (backendCalls run))
            \/ (exists msg,
                  buildPromptWithContext env text (variables ctx) = Err msg
                  /\ (launchCall exec env text ctx run).1 = Rejected msg
                  /\ backendCalls run' = backendCalls run))).
Proof.
  unfold launchCall. split; [|split].
  - intros Hdeep.
    destruct (Z.leb_spec (maxRecursionDepth exec) (Z.of_nat (currentDepth ctx)));
      [reflexivity | lia].
  - intros Hdepth Hlate.
    destruct (Z.leb_spec (maxRecursionDepth exec) (Z.of_nat (currentDepth ctx))); [lia|].
    cbn. destruct (Z.geb_spec (clock env (ticks run) - startedAt run)
                     (maxExecutionTime exec)); [|lia].
    eexists. split; [reflexivity|]. repeat split; reflexivity.
  - intros Hdepth Hearly.
    destruct (Z.leb_spec (maxRecursionDepth exec) (Z.of_nat (currentDepth ctx))); [lia|].
    cbn [dateNow nanoid ticks startedAt calls idCount backendCalls].
    destruct (Z.geb_spec (clock env (ticks run) - startedAt run)
                (maxExecutionTime exec)); [lia|].
    destruct (buildPromptWithContext env text (variables ctx)) as [full|msg].
    + eexists _, _. split; [reflexivity|]. cbn.
      split; [reflexivity|]. split; [reflexivity|]. split; [reflexivity|].
      split; [reflexivity|]. split; [lia|]. left. eauto.
    + eexists _, _. split; [reflexivity|].
      cbn [snd fst updateCall calls startedAt ticks backendCalls].
      rewrite alter_pushed.
      split; [reflexivity|]. split; [reflexivity|]. split; [reflexivity|].
      split; [reflexivity|]. split; [lia|]. right. eauto.
Qed.

Lemma settleCall_calls (env : Env) (k : nat) (full : string) (run : Run) :
  List.length (calls (snd (settleCall env k full run))) = List.length (calls run)
  /\ backendCalls (snd (settleCall env k full run)) = backendCalls run.
Proof.
  unfold settleCall. destruct (provider env k full); cbn; rewrite length_alter; auto.
Qed.

End RLMFacts.

Section SemanticNonEmpty.

Import Chunker.






End SemanticNonEmpty.

(** *** Calls that passed the checks *)

Section RLMChecked.

Import RLM.

Variable exec : Executor.
Variable env : Env.

(** A recorded call that passed both checks: it sits at depth 0 or 1,
    below the depth limit, and at the reading of the clock just before
    the one that gave its [startTime] the time limit had not run out. *)
Definition checkedCall (c : RLMCall) : Prop :=
  (depth c <= 1)%nat
  /\ Z.of_nat (depth c) < maxRecursionDepth exec
  /\ exists j, callStart c = Some (clock env (S j))
               /\ clock env j - clock env 0 < maxExecutionTime exec.

(** A run in which every recorded call passed the checks and the
    provider was called for recorded calls only; [exact]: for every one
    of them. *)
Definition checkedRun (exact : bool) (run : Run) : Prop :=
  startedAt run = clock env 0
  /\ Forall checkedCall (calls run)
  /\ (backendCalls run <= List.length (calls run))%nat
  /\ (exact = true -> backendCalls run = List.length (calls run)).

Lemma startRun_checked (exact : bool) : checkedRun exact (startRun env).
Proof. repeat split; cbn; auto. Qed.

Lemma launchCall_checked (exact : bool) (text : string) (ctx : RLMContext) (run : Run) :
  (currentDepth ctx <= 1)%nat ->
  (exact = true -> allData (variables ctx)) ->
  checkedRun exact run ->
  checkedRun exact (launchCall exec env text ctx run).2.
Proof.
  intros Hd Hdata (Hstart & Hall & Hle & Heq).
  destruct (launchCall_cases exec env text ctx run) as (Hdeep & Hlate & Hgo).
  destruct (Z.le_gt_cases (maxRecursionDepth exec) (Z.of_nat (currentDepth ctx)))
    as [Hdepth|Hdepth].
  { rewrite (Hdeep Hdepth). now repeat split. }
  destruct (Z.le_gt_cases (maxExecutionTime exec) (clock env (ticks run) - startedAt run))
    as [Htime|Htime].
  { destruct (Hlate Hdepth Htime) as (run' & -> & Hc & Hb & Hs & _). cbn [snd].
    unfold checkedRun. rewrite Hc, Hb, Hs. now repeat split. }
  destruct (Hgo Hdepth Htime) as (run' & call & -> & Hc & Hdc & Hsc & Hs & _ & Hbuild).
  unfold checkedRun. rewrite Hc, Hs, length_app. cbn [List.length].
  split; [exact Hstart|]. split.
  { apply Forall_app. split; [exact Hall|]. constructor; [|constructor].
    unfold checkedCall. rewrite Hdc. split; [exact Hd|]. split; [exact Hdepth|].
    exists (ticks run). split; [exact Hsc|]. now rewrite <- Hstart. }
  destruct Hbuild as [(full & _ & _ & ->) | (msg & Hbuild & _ & ->)].
  - split; [lia|]. intros He. specialize (Heq He). lia.
  - split; [lia|]. intros He.
    destruct (buildPrompt_allData env text (variables ctx) (Hdata He)) as [full Hfull].
    congruence.
Qed.

Lemma settleCall_checked (exact : bool) (k : nat) (full : string) (run : Run) :
  checkedRun exact run -> checkedRun exact (settleCall env k full run).2.
Proof.
  intros (Hstart & Hall & Hle & Heq). unfold settleCall.
  destruct (provider env k full); cbn [dateNow snd]; unfold updateCall, checkedRun;
    cbn [calls startedAt backendCalls]; rewrite length_alter;
    (split; [exact Hstart|]); (split; [|split; [exact Hle | exact Heq]]);
    apply Forall_alter; try exact Hall; intros c _ Hc; exact Hc.
Qed.

Lemma makeRLMCall_checked (exact : bool) (text : string) (ctx : RLMContext) (run : Run) :
  (currentDepth ctx <= 1)%nat ->
  (exact = true -> allData (variables ctx)) ->
  checkedRun exact run ->
  checkedRun exact (makeRLMCall exec env text ctx run).2.
Proof.
  intros Hd Hdata Hrun. unfold makeRLMCall.
  pose proof (launchCall_checked exact text ctx run Hd Hdata Hrun) as H.
  destruct (launchCall exec env text ctx run) as [[msg|k full] run1]; [exact H|].
  now apply settleCall_checked.
Qed.

Lemma directCall_checked (exact : bool) (task : string) (ctx : RLMContext) (run : Run) :
  (currentDepth ctx <= 1)%nat ->
  (exact = true -> allData (variables ctx)) ->
  checkedRun exact run ->
  checkedRun exact (directCall exec env task ctx run).2.
Proof.
  intros Hd Hdata Hrun. unfold directCall.
  pose proof (makeRLMCall_checked exact task ctx run Hd Hdata Hrun) as H.
  now destruct (makeRLMCall exec env task ctx run).
Qed.

Lemma launchAll_checked (exact : bool) (jobs : list (Run -> Launch * Run)) :
  Forall (fun job => forall run, checkedRun exact run -> checkedRun exact (job run).2) jobs ->
  forall run, checkedRun exact run -> checkedRun exact (launchAll jobs run).2.
Proof.
  induction jobs as [|job rest IH]; intros Hjobs run Hrun; [exact Hrun|].
  apply Forall_cons in Hjobs as [Hjob Hrest]. cbn [launchAll].
  specialize (Hjob run Hrun). destruct (job run) as [l run1].
  specialize (IH Hrest run1 Hjob). destruct (launchAll rest run1) as [ls run2].
  exact IH.
Qed.

Lemma settleLate_checked (exact : bool) (order : list (nat * string)) (run : Run) :
  checkedRun exact run -> checkedRun exact (settleLate env order run).
Proof.
  revert run. induction order as [|[k full] rest IH]; intros run Hrun; [exact Hrun|].
  cbn [settleLate]. destruct (settlesLate env k); apply IH; [|exact Hrun].
  now apply settleCall_checked.
Qed.

Lemma settleInOrder_checked (exact : bool) (order done : list (nat * string)) (run : Run) :
  checkedRun exact run -> checkedRun exact (settleInOrder env order done run).2.
Proof.
  revert done run. induction order as [|[k full] rest IH]; intros done run Hrun;
    [exact Hrun|].
  cbn [settleInOrder]. pose proof (settleCall_checked exact k full run Hrun) as H.
  destruct (settleCall env k full run) as [[r|e] run1]; [now apply IH|].
  now apply settleLate_checked.
Qed.

Lemma awaitAll_checked (exact : bool) (ls : list Launch) (run : Run) :
  checkedRun exact run -> checkedRun exact (awaitAll env ls run).2.
Proof.
  intros Hrun. unfold awaitAll. destruct (firstRejected ls).
  - now apply settleLate_checked.
  - pose proof (settleInOrder_checked exact
                  (foldr (insertByRank (settleRank env)) [] (started ls)) [] run Hrun) as H.
    destruct (settleInOrder env _ [] run) as [[done|e] run1]; exact H.
Qed.

Lemma sequentialLoop_checked (exact : bool) (task : string) (ctx : RLMContext)
    (varName : string) (total : nat) (items : list JSON) :
  currentDepth ctx = 0%nat ->
  (exact = true -> allData (variables ctx)) ->
  forall (i : nat) (acc : JSON) (run : Run),
    checkedRun exact run ->
    checkedRun exact (sequentialLoop exec env task ctx varName total i items acc run).2.
Proof.
  intros Hroot Hdata. induction items as [|item rest IH]; intros i acc run Hrun;
    [exact Hrun|].
  cbn [sequentialLoop].
  match goal with
  | |- context [makeRLMCall exec env ?text ?c run] =>
      pose proof (makeRLMCall_checked exact text c run) as H;
      destruct (makeRLMCall exec env text c run) as [[r|e] run1]
  end; cbn [deeper currentDepth variables] in H; rewrite Hroot in H;
    (assert (H' := H ltac:(lia)
                     ltac:(intros He; unfold num; repeat apply objSet_allData; auto) Hrun));
    clear H.
  - now apply IH.
  - exact H'.
Qed.

(** Every strategy keeps the run checked; the provider is called for
    every recorded call when the variables of the calls all hold data,
    which only recursive decomposition can undo. *)
Lemma processWithStrategy_checked (exact : bool) (task : string) (ctx : RLMContext)
    (strategy : ProcessingStrategy) (run : Run) :
  currentDepth ctx = 0%nat ->
  (exact = true -> allData (variables ctx) /\ strategy <> RecursiveDecomposition) ->
  checkedRun exact run ->
  checkedRun exact (processWithStrategy exec env task ctx strategy run).2.
Proof.
  intros Hroot Hexact Hrun.
  assert (Hd : (currentDepth ctx <= 1)%nat) by lia.
  assert (Hdata : exact = true -> allData (variables ctx)) by (intros He; now apply Hexact).
  assert (Hdeep : forall vars frame, (currentDepth (deeper ctx vars frame) <= 1)%nat)
    by (intros; cbn; lia).
  destruct strategy; cbn [processWithStrategy].
  - (* map-reduce *)
    unfold mapReduceStrategy.
    destruct (findLargest env (variables ctx)) as [[[varName varData]|]|e];
      [|now apply directCall_checked | exact Hrun].
    destruct (_ =? _)%nat; [now apply directCall_checked|].
    match goal with
    | |- context [launchAll ?jobs run] =>
        assert (H1 : checkedRun exact (launchAll jobs run).2);
        [apply launchAll_checked; [|exact Hrun] |
         destruct (launchAll jobs run) as [ls run1]; cbn [snd] in H1]
    end.
    { apply Forall_forall. intros job Hjob.
      apply elem_of_lookup_imap_1 in Hjob as (idx & chunk & -> & _).
      intros r Hr. unfold mapJob. apply launchCall_checked; [apply Hdeep | | exact Hr].
      intros He. cbn [deeper variables]. unfold num. repeat apply objSet_allData. auto. }
    pose proof (awaitAll_checked exact ls run1 H1) as H2.
    destruct (awaitAll env ls run1) as [[mapResults|e] run2]; [|exact H2].
    apply directCall_checked; [apply Hdeep | | exact H2].
    intros He. cbn [deeper variables]. apply objSet_allData. auto.
  - (* recursive decomposition *)
    assert (Hloose : exact = false).
    { destruct exact; [|reflexivity]. now destruct (Hexact eq_refl). }
    subst exact.
    unfold recursiveDecompositionStrategy.
    pose proof (makeRLMCall_checked false (decompositionPrompt task ctx) ctx run Hd
                  ltac:(discriminate) Hrun) as H0.
    destruct (makeRLMCall exec env (decompositionPrompt task ctx) ctx run)
      as [[decomposition|e] run0]; [|exact H0].
    cbn [snd] in H0.
    destruct (jsonParse env decomposition) as [[| | | |subtasks|]|]; try exact H0.
    + match goal with
      | |- context [launchAll ?jobs run0] =>
          assert (H1 : checkedRun false (launchAll jobs run0).2);
          [apply launchAll_checked; [|exact H0] |
           destruct (launchAll jobs run0) as [ls run1]; cbn [snd] in H1]
      end.
      { apply Forall_forall. intros job Hjob.
        apply elem_of_lookup_imap_1 in Hjob as (idx & st & -> & _).
        intros r Hr. unfold subtaskJob. destruct (needsOf env st); [|exact Hr].
        apply launchCall_checked; [apply Hdeep | discriminate | exact Hr]. }
      pose proof (awaitAll_checked false ls run1 H1) as H2.
      destruct (awaitAll env ls run1) as [[results|e] run2]; [|exact H2].
      apply directCall_checked; [apply Hdeep | discriminate | exact H2].
    + apply directCall_checked; [exact Hd | discriminate | exact H0].
  - (* sequential processing *)
    unfold sequentialProcessingStrategy.
    destruct (findLargest env (variables ctx)) as [[[varName varData]|]|e];
      [|now apply directCall_checked | exact Hrun].
    now apply sequentialLoop_checked.
  - now apply directCall_checked.
Qed.

End RLMChecked.

(** *** How many calls a run records *)

Section RLMCounts.

Import RLM.

Variable exec : Executor.
Variable env : Env.

(** What one launch adds to the trajectory: at most one call, and
    exactly one when the provider is called. *)
Definition oneMore (run : Run) (out : Launch * Run) : Prop :=
  (List.length (calls run) <= List.length (calls out.2) <= S (List.length (calls run)))%nat
  /\ (forall k full, out.1 = Started k full ->
        List.length (calls out.2) = S (List.length (calls run))).

Lemma launchCall_count (text : string) (ctx : RLMContext) (run : Run) :
  oneMore run (launchCall exec env text ctx run).
Proof.
  destruct (launchCall_cases exec env text ctx run) as (Hdeep & Hlate & Hgo).
  destruct (Z.le_gt_cases (maxRecursionDepth exec) (Z.of_nat (currentDepth ctx)))
    as [Hdepth|Hdepth].
  { rewrite (Hdeep Hdepth). split; [cbn [snd]; lia | discriminate]. }
  destruct (Z.le_gt_cases (maxExecutionTime exec) (clock env (ticks run) - startedAt run))
    as [Htime|Htime].
  { destruct (Hlate Hdepth Htime) as (run' & -> & Hc & _). unfold oneMore.
    cbn [fst snd]. rewrite Hc. split; [lia | discriminate]. }
  destruct (Hgo Hdepth Htime) as (run' & call & Hrun & Hc & _).
  unfold oneMore. rewrite Hrun, Hc, length_app. cbn. split; [lia | intros; lia].
Qed.

Lemma makeRLMCall_count (text : string) (ctx : RLMContext) (run : Run) :
  let out := makeRLMCall exec env text ctx run in
  (List.length (calls run) <= List.length (calls out.2) <= S (List.length (calls run)))%nat
  /\ (forall s, out.1 = Ok s -> List.length (calls out.2) = S (List.length (calls run))).
Proof.
  cbv zeta. unfold makeRLMCall.
  destruct (launchCall_count text ctx run) as [Hle Hok].
  destruct (launchCall exec env text ctx run) as [[msg|k full] run1]; cbn [fst snd] in *.
  - split; [exact Hle | discriminate].
  - destruct (settleCall_calls env k full run1) as [Hlen _]. rewrite Hlen.
    specialize (Hok k full eq_refl). split; [lia | intros; lia].
Qed.

Lemma directCall_count (task : string) (ctx : RLMContext) (run : Run) :
  let out := directCall exec env task ctx run in
  (List.length (calls run) <= List.length (calls out.2) <= S (List.length (calls run)))%nat
  /\ (forall r, out.1 = Ok r -> List.length (calls out.2) = S (List.length (calls run))).
Proof.
  cbv zeta. unfold directCall.
  destruct (makeRLMCall_count task ctx run) as [Hle Hok].
  destruct (makeRLMCall exec env task ctx run) as [[s|e] run1]; cbn [fst snd rbind] in *.
  - split; [exact Hle|]. intros r _. now apply (Hok s).
  - split; [exact Hle | discriminate].
Qed.

Lemma launchAll_count (jobs : list (Run -> Launch * Run)) :
  Forall (fun job => forall run, oneMore run (job run)) jobs ->
  forall run,
    let out := launchAll jobs run in
    List.length out.1 = List.length jobs
    /\ (List.length (calls run) <= List.length (calls out.2)
        <= List.length (calls run) + List.length jobs)%nat
    /\ (firstRejected out.1 = None ->
        List.length (calls out.2) = (List.length (calls run) + List.length jobs)%nat).
Proof.
  induction jobs as [|job rest IH]; intros Hjobs run; cbv zeta.
  - cbn. repeat split; lia.
  - apply Forall_cons in Hjobs as [Hjob Hrest]. cbn [launchAll].
    destruct (Hjob run) as [Hone Hstarted].
    destruct (job run) as [l run1]. cbn [fst snd] in Hone, Hstarted.
    destruct (IH Hrest run1) as (Hlen & Hle & Heq).
    destruct (launchAll rest run1) as [ls run2]. cbn [fst snd List.length] in *.
    split; [lia|]. destruct l as [msg|k full]; cbn [firstRejected].
    + split; [lia | discriminate].
    + specialize (Hstarted k full eq_refl). split; [lia|].
      intros Hnone. specialize (Heq Hnone). lia.
Qed.

Lemma settleLate_count (order : list (nat * string)) (run : Run) :
  List.length (calls (settleLate env order run)) = List.length (calls run)
  /\ backendCalls (settleLate env order run) = backendCalls run.
Proof.
  revert run. induction order as [|[k full] rest IH]; intros run; [now split|].
  cbn [settleLate]. destruct (settlesLate env k); [|apply IH].
  destruct (IH (settleCall env k full run).2) as [-> ->]. apply settleCall_calls.
Qed.

Lemma settleInOrder_count (order done : list (nat * string)) (run : Run) :
  List.length (calls (settleInOrder env order done run).2) = List.length (calls run)
  /\ backendCalls (settleInOrder env order done run).2 = backendCalls run.
Proof.
  revert done run. induction order as [|[k full] rest IH]; intros done run; [now split|].
  cbn [settleInOrder]. pose proof (settleCall_calls env k full run) as [Hlen Hb].
  destruct (settleCall env k full run) as [[r|e] run1]; cbn [snd] in *.
  - destruct (IH ((k, r) :: done) run1) as [-> ->]. now split.
  - destruct (settleLate_count rest run1) as [-> ->]. now split.
Qed.

Lemma awaitAll_count (ls : list Launch) (run : Run) :
  List.length (calls (awaitAll env ls run).2) = List.length (calls run)
  /\ backendCalls (awaitAll env ls run).2 = backendCalls run
  /\ (forall rs, (awaitAll env ls run).1 = Ok rs -> firstRejected ls = None).
Proof.
  unfold awaitAll. destruct (firstRejected ls) as [msg|].
  - cbn [fst snd]. destruct (settleLate_count
                     (foldr (insertByRank (settleRank env)) [] (started ls)) run) as [-> ->].
    repeat split. discriminate.
  - pose proof (settleInOrder_count
                  (foldr (insertByRank (settleRank env)) [] (started ls)) [] run) as [H1 H2].
    destruct (settleInOrder env _ [] run) as [[done|e] run1]; cbn [fst snd] in *;
      repeat split; auto.
Qed.


End RLMCounts.

(** *** Launches that are all refused *)

Section RLMRefused.

Import RLM.

Variable exec : Executor.
Variable env : Env.






Variable msg : string.
Variable P : Run -> Prop.






End RLMRefused.

Section RLMItems.

Import RLM.

Lemma largestLoop_spec (env : Env) (vars : list (string * JSON)) :
  forall (largest : option (string * JSON)) (size : nat),
    let out := largestLoop env vars largest size in
    (size <= out.2)%nat
    /\ (forall key value, (key, value) ∈ vars -> (getSize env value <= out.2)%nat)
    /\ ((out.1 = largest /\ out.2 = size)
        \/ exists key value,
             out.1 = Some (key, value) /\ (key, value) ∈ vars
             /\ getSize env value = out.2).
Proof.
  induction vars as [|[key value] rest IH]; intros largest size; cbn [largestLoop].
  - cbn. split; [lia|]. split; [intros k v H; inversion H | now left].
  - destruct (Nat.ltb_spec size (getSize env value)) as [Hlt|Hge].
    + destruct (IH (Some (key, value)) (getSize env value)) as (Hle & Hall & Hwho).
      split; [lia|]. split.
      * intros k v Hin. apply elem_of_cons in Hin as [Heq|Hin]; [|now apply (Hall k)].
        injection Heq as -> ->. exact Hle.
      * right. destruct Hwho as [[H1 H2] | (k & v & H1 & Hin & H2)].
        -- exists key, value. split; [exact H1|]. split; [now left | now rewrite H2].
        -- exists k, v. split; [exact H1|]. split; [now right | exact H2].
    + destruct (IH largest size) as (Hle & Hall & Hwho).
      split; [exact Hle|]. split.
      * intros k v Hin. apply elem_of_cons in Hin as [Heq|Hin]; [|now apply (Hall k)].
        injection Heq as -> ->. lia.
      * destruct Hwho as [H | (k & v & H1 & Hin & H2)]; [now left|].
        right. exists k, v. split; [exact H1|]. split; [now right | exact H2].
Qed.



End RLMItems.

(** *** The limits of the RLM executor *)

Section RLMLimits.

Import RLM.

Lemma executeRun_trajectory (exec : Executor) (env : Env) (task : string)
    (vars : list (string * JSON)) (strategy : ProcessingStrategy) :
  let out := processWithStrategy exec env task (rootContext vars) strategy (startRun env) in
  exists traj,
    trajectory (execute exec env task vars strategy) = Some traj
    /\ allCalls traj = calls (snd out)
    /\ totalCalls traj = List.length (calls (snd out))
    /\ backendCalls (snd (executeRun exec env task vars strategy)) = backendCalls (snd out)
    /\ match fst out with
       | Ok r => success (execute exec env task vars strategy) = true
                 /\ result (execute exec env task vars strategy) = Some r
                 /\ error (execute exec env task vars strategy) = None
       | Err e => success (execute exec env task vars strategy) = false
                  /\ error (execute exec env task vars strategy) = Some e
       end.
Proof.
  intros out. subst out. unfold execute, executeRun.
  destruct (processWithStrategy exec env task (rootContext vars) strategy (startRun env))
    as [[r|e] run1]; cbn; eexists; repeat split; reflexivity.
Qed.


(** A call at depth 0 that the limits let through, in a context of
    data: one provider call, one entry more in the trajectory, whatever
    the provider answers. *)
Lemma makeRLMCall_root_once (exec : Executor) (env : Env) (text : string)
    (vars : list (string * JSON)) :
  0 < maxRecursionDepth exec ->
  clock env 1 - clock env 0 < maxExecutionTime exec ->
  let out := makeRLMCall exec env text (rootContext vars) (startRun env) in
  List.length (calls (snd out)) = 1%nat /\ backendCalls (snd out) = 1%nat.
Proof.
  intros Hdepth Htime out. subst out. unfold makeRLMCall.
  destruct (launchCall_cases exec env text (rootContext vars) (startRun env))
    as (_ & _ & Hgo).
  destruct (Hgo Hdepth Htime) as (run' & call & Hrun & Hcalls & _ & _ & _ & _ & Hbuild).
  destruct Hbuild as [(full & _ & Hl & Hb) | (msg & Hbuild & _)].
  - destruct (launchCall exec env text (rootContext vars) (startRun env)) as [l run1].
    cbn [fst snd] in *. subst l run1.
    destruct (settleCall_calls env (List.length (calls (startRun env))) full run') as [Hl Hc].
    rewrite Hl, Hc, Hcalls, Hb. split; reflexivity.
  - destruct (buildPrompt_allData env text (variables (rootContext vars))
                (hold_allData vars)) as [full Hfull]. congruence.
Qed.

(** An environment whose clock advances by [step] milliseconds per reading
    and whose provider answers every call with [answer]; [JSON.parse]
    rejects every text. *)
Definition steadyEnv (step : Z) (answer : string) : Env :=
  {| clock := fun k => step * Z.of_nat k;
     freshId := fun k => Js.cat ["call-"; Js.natToString k];
     provider := fun _ _ => Ok answer;
     settleRank := fun k => k;
     settlesLate := fun _ => false;
     jsonParse := fun _ => None;
     stringify := fun _ => "{}";
     stringifyPretty := fun _ => "{}";
     showNumber := fun _ => "0";
     toText := fun _ => "undefined" |}.

Definition shortContext : list (string * JSON) := [("text", JStr "Short text")].

Lemma shortContext_small (env : Env) : noLargeVariable env shortContext.
Proof.
  intros key value Hin. apply list_elem_of_singleton in Hin. inversion Hin. cbn. lia.
Qed.

(** The executor the constructor builds when no limit is configured. *)
Definition unconfigured : Executor :=
  newExecutor {| cfgMaxRecursionDepth := None; cfgMaxExecutionTime := None |}.

Example recursive_decomposition_short_context :
  totalCalls <$> trajectory
    (execute unconfigured
       (steadyEnv 1 "Sorry, no JSON") "Analyze this" shortContext RecursiveDecomposition)
  = Some 2%nat.
Proof. vm_compute. reflexivity. Qed.

(** A configured depth limit that is negative is kept by the
    constructor, and refuses the root call already. *)
Example negative_depth_makes_no_call :
  let r := execute (newExecutor {| cfgMaxRecursionDepth := Some (-1);
                                   cfgMaxExecutionTime := None |})
             (steadyEnv 1 "A summary") "Analyze this" shortContext TreeTraversal in
  success r = false
  /\ error r = Some "Max recursion depth (-1) exceeded"
  /\ totalCalls <$> trajectory r = Some 0%nat.
Proof. vm_compute. repeat split; reflexivity. Qed.

(** C3, as stated, fails: with the recursive-decomposition strategy a
    context without any large variable costs a decomposition call and,
    its answer being no JSON, a direct call. *)
Lemma recursive_decomposition_makes_two_calls :
  ~ (forall (config : Config) (env : Env) (task : string) (vars : list (string * JSON))
            (strategy : ProcessingStrategy),
       noLargeVariable env vars ->
       exists traj,
         trajectory (execute (newExecutor config) env task vars strategy) = Some traj
         /\ totalCalls traj = 1%nat).
Proof.
  intros H.
  destruct (H {| cfgMaxRecursionDepth := None; cfgMaxExecutionTime := None |}
              (steadyEnv 1 "Sorry, no JSON") "Analyze this" shortContext
              RecursiveDecomposition (shortContext_small _)) as (traj & Htraj & Htotal).
  vm_compute in Htraj. inversion Htraj. subst traj. vm_compute in Htotal. discriminate.
Qed.

(** C3 (amended). Let the depth limit of the executor be positive, the
    time limit not run out at the first check, and no variable of the
    context be above the chunking threshold. Then [execute] with the
    map-reduce, sequential-processing or tree-traversal strategy calls
    the provider exactly once and returns a trajectory with
    [totalCalls = 1]. With the recursive-decomposition strategy the
    trajectory holds at least the decomposition call, and at least two
    calls whenever [execute] succeeds. *)
Theorem small_context_makes_one_call
    (exec : Executor) (env : Env) (task : string) (vars : list (string * JSON))
    (strategy : ProcessingStrategy) :
  0 < maxRecursionDepth exec ->
  clock env 1 - clock env 0 < maxExecutionTime exec ->
  noLargeVariable env vars ->
  exists traj,
    trajectory (execute exec env task vars strategy) = Some traj
    /\ (strategy <> RecursiveDecomposition ->
        totalCalls traj = 1%nat
        /\ backendCalls (snd (executeRun exec env task vars strategy)) = 1%nat)
    /\ (strategy = RecursiveDecomposition ->
        (1 <= totalCalls traj)%nat
        /\ (success (execute exec env task vars strategy) = true ->
            (2 <= totalCalls traj)%nat)).
Proof.
  intros Hdepth Htime Hsmall.
  destruct (executeRun_trajectory exec env task vars strategy)
    as (traj & Htraj & _ & Htotal & Hbackend & Hout).
  exists traj. split; [exact Htraj|]. rewrite Htotal, Hbackend. clear Htraj Htotal Hbackend.
  split.
  - intros Hstrategy.
    pose proof (makeRLMCall_root_once exec env task vars Hdepth Htime) as [Hlen Hcalls].
    assert (Hsame : snd (processWithStrategy exec env task (rootContext vars) strategy
                           (startRun env))
                    = snd (makeRLMCall exec env task (rootContext vars) (startRun env))).
    { destruct strategy; cbn [processWithStrategy]; [| contradiction | |].
      - unfold mapReduceStrategy, directCall. cbn [variables rootContext].
        rewrite findLargest_hold, (findLargestVariable_small env vars Hsmall).
        now destruct (makeRLMCall _ _ _ _ _).
      - unfold sequentialProcessingStrategy, directCall. cbn [variables rootContext].
        rewrite findLargest_hold, (findLargestVariable_small env vars Hsmall).
        now destruct (makeRLMCall _ _ _ _ _).
      - unfold treeTraversalStrategy, directCall. now destruct (makeRLMCall _ _ _ _ _). }
    rewrite Hsame. split; assumption.
  - intros ->. cbn [processWithStrategy] in *. unfold recursiveDecompositionStrategy in *.
    pose proof (makeRLMCall_root_once exec env (decompositionPrompt task (rootContext vars))
                  vars Hdepth Htime) as [Hlen _].
    destruct (makeRLMCall exec env (decompositionPrompt task (rootContext vars))
                (rootContext vars) (startRun env)) as [[decomposition|e] run1];
      cbn [fst snd] in *.
    2: { rewrite Hlen. split; [lia|]. destruct Hout as [-> _]. discriminate. }
    destruct (jsonParse env decomposition) as [[| | | |subtasks|]|];
      cbn [fst snd] in *;
      try (rewrite Hlen; split; [lia|]; destruct Hout as [-> _]; discriminate).
    + set (jobs := imap (subtaskJob exec env (rootContext vars)) subtasks) in *.
      assert (Hjobs : Forall (fun job => forall run, oneMore run (job run)) jobs).
      { apply Forall_forall. intros job Hjob.
        apply elem_of_lookup_imap_1 in Hjob as (idx & st & -> & _).
        intros run. unfold subtaskJob. destruct (needsOf env st).
        - apply launchCall_count.
        - split; [cbn; lia | discriminate]. }
      destruct (launchAll_count jobs Hjobs run1) as (_ & Hle & _).
      destruct (launchAll jobs run1) as [ls run2]. cbn [fst snd] in *.
      destruct (awaitAll_count env ls run2) as (Hsame & _).
      destruct (awaitAll env ls run2) as [[results|e] run3]; cbn [fst snd] in *.
      * match goal with
        | |- context [directCall exec env ?t ?c run3] =>
            pose proof (directCall_count exec env t c run3) as [Hle' Hok'];
            destruct (directCall exec env t c run3) as [[v|e] run4]
        end; cbn [fst snd] in *.
        -- specialize (Hok' v eq_refl). split; lia.
        -- split; [lia|]. destruct Hout as [-> _]. discriminate.
      * split; [lia|]. destruct Hout as [-> _]. discriminate.
    + pose proof (directCall_count exec env task (rootContext vars) run1) as [Hle Hok].
      destruct (directCall exec env task (rootContext vars) run1) as [[v|e] run2];
        cbn [fst snd] in *.
      * specialize (Hok v eq_refl). split; lia.
      * split; [lia|]. destruct Hout as [-> _]. discriminate.
Qed.

Lemma small_context_makes_one_call_witness :
  (exists traj,
     trajectory (execute unconfigured (steadyEnv 1 "A summary") "Analyze this"
                   shortContext MapReduce) = Some traj
     /\ totalCalls traj = 1%nat
     /\ backendCalls (snd (executeRun unconfigured (steadyEnv 1 "A summary")
                             "Analyze this" shortContext MapReduce)) = 1%nat)
  /\ (exists traj,
        trajectory (execute unconfigured (steadyEnv 1 "Sorry, no JSON") "Analyze this"
                      shortContext RecursiveDecomposition) = Some traj
        /\ (2 <= totalCalls traj)%nat).
Proof.
  split.
  - destruct (small_context_makes_one_call unconfigured (steadyEnv 1 "A summary")
                "Analyze this" shortContext MapReduce)
      as (traj & Htraj & Hone & _).
    + vm_compute. reflexivity.
    + vm_compute. reflexivity.
    + apply shortContext_small.
    + exists traj. split; [exact Htraj|]. apply Hone. discriminate.
  - destruct (small_context_makes_one_call unconfigured (steadyEnv 1 "Sorry, no JSON")
                "Analyze this" shortContext RecursiveDecomposition)
      as (traj & Htraj & _ & Hdecompose).
    + vm_compute. reflexivity.
    + vm_compute. reflexivity.
    + apply shortContext_small.
    + exists traj. split; [exact Htraj|].
      apply (Hdecompose eq_refl). vm_compute. reflexivity.
Defined.

End RLMLimits.

Section RLMLimitsChecked.

Import RLM.


(** Eleven items: above the threshold, and two chunks of at most ten. *)
Definition elevenItems : list (string * JSON) :=
  [("rows", JArr (replicate 11 (JStr "row")))].

Example map_reduce_with_zero_depth_config :
  let r := execute (newExecutor {| cfgMaxRecursionDepth := Some 0;
                                   cfgMaxExecutionTime := None |})
             (steadyEnv 1 "A summary") "Count the rows" elevenItems MapReduce in
  success r = true /\ error r = None /\ totalCalls <$> trajectory r = Some 3%nat.
Proof. vm_compute. repeat split; reflexivity. Qed.



Definition shallow : Executor :=
  newExecutor {| cfgMaxRecursionDepth := Some 1; cfgMaxExecutionTime := None |}.


Example map_reduce_depth_exceeded :
  let r := execute shallow (steadyEnv 1 "A summary") "Count the rows" elevenItems MapReduce in
  success r = false
  /\ error r = Some "Max recursion depth (1) exceeded"
  /\ totalCalls <$> trajectory r = Some 0%nat.
Proof. vm_compute. repeat split; reflexivity. Qed.

Example tree_traversal_time_exceeded :
  let r := execute shallow (steadyEnv 400000 "A summary") "Walk the tree" shortContext
             TreeTraversal in
  success r = false
  /\ error r = Some "Max execution time (300000ms) exceeded"
  /\ totalCalls <$> trajectory r = Some 0%nat.
Proof. vm_compute. repeat split; reflexivity. Qed.


(** An environment whose provider fails every call. *)
Definition failingEnv (late : bool) : Env :=
  {| clock := fun k => Z.of_nat k;
     freshId := fun k => Js.cat ["call-"; Js.natToString k];
     provider := fun _ _ => Err "503 Service Unavailable";
     settleRank := fun k => k;
     settlesLate := fun _ => late;
     jsonParse := fun _ => None;
     stringify := fun _ => "{}";
     stringifyPretty := fun _ => "{}";
     showNumber := fun _ => "0";
     toText := fun _ => "undefined" |}.

(** Map-reduce over two chunks with a provider that fails: the failure
    of the first map call rejects the [Promise.all]. The second map call
    is marked failed as well when its provider call fails before
    [execute] returns, and is still running otherwise. *)
Example map_reduce_second_call_settles_late :
  let outcome late :=
    (fun traj => (fun c => (callStatus c, callEnd c)) <$> allCalls traj)
      <$> trajectory (execute unconfigured (failingEnv late) "Count the rows"
                        elevenItems MapReduce) in
  outcome true = Some [(CallFailed, Some 5); (CallFailed, Some 6)]
  /\ outcome false = Some [(CallFailed, Some 5); (CallRunning, None)].
Proof. vm_compute. split; reflexivity. Qed.

(** An environment whose provider answers the decomposition with one
    subtask that needs the variable [toString]. *)
Definition inheritedNeedEnv : Env :=
  {| clock := fun k => Z.of_nat k;
     freshId := fun k => Js.cat ["call-"; Js.natToString k];
     provider := fun _ _ => Ok "[...]";
     settleRank := fun k => k;
     settlesLate := fun _ => false;
     jsonParse := fun _ =>
       Some (JArr [JObj [("subtask", JStr "Summarise"); ("needs", JArr [JStr "toString"])]]);
     stringify := fun _ => "{}";
     stringifyPretty := fun _ => "{}";
     showNumber := fun _ => "0";
     toText := fun v => match v with Some (JStr s) => s | _ => "undefined" end |}.

(** ["toString" in variables] holds for every object, so the subtask's
    context holds the inherited method; the call is recorded, building
    its prompt throws, and the provider is not called for it. *)
Example inherited_need_fails_before_provider :
  let out := executeRun unconfigured inheritedNeedEnv "Analyze this" shortContext
               RecursiveDecomposition in
  success out.1 = false
  /\ error out.1 = Some "Cannot read properties of undefined (reading 'length')"
  /\ (fun traj => callStatus <$> allCalls traj) <$> trajectory out.1
     = Some [CallCompleted; CallFailed]
  /\ totalCalls <$> trajectory out.1 = Some 2%nat
  /\ backendCalls out.2 = 1%nat.
Proof. vm_compute. repeat split; reflexivity. Qed.

End RLMLimitsChecked.

(** ** Executor *)

Section ExecutorFacts.

Import Executor.

(** A limit as the executor's field holds it: comparing a count with the
    field gives what comparing it with the configured number gives, also
    when that number is negative. *)
Lemma limit_compares_alike (limit : Z) (count : nat) :
  (count <? Z.to_nat limit)%nat = (Z.of_nat count <? limit).
Proof.
  destruct (Nat.ltb_spec count (Z.to_nat limit)), (Z.ltb_spec (Z.of_nat count) limit);
    try reflexivity; lia.
Qed.

Lemma newExecutor_limits (config : Config) :
  maxParallelTasks (newExecutor config)
  = Z.to_nat (match cfgMaxParallelTasks config with Some 0 | None => 5 | Some z => z end)
  /\ maxRetries (newExecutor config)
     = Z.to_nat (match cfgMaxRetries config with Some 0 | None => 2 | Some z => z end).
Proof. destruct config as [[[| |]|] [[| |]|]]; split; reflexivity. Qed.

(** What the scheduler never changes in a task: its identifier and its
    dependency list. *)
Definition shape (l : list Task) : list (string * list string) :=
  (fun t => (id t, depsOf t)) <$> l.

Lemma shape_insert (l : list Task) (i : nat) (t t' : Task) :
  l !! i = Some t -> id t' = id t -> depsOf t' = depsOf t ->
  shape (<[i := t']> l) = shape l.
Proof.
  intros Hi Hid Hdeps. unfold shape. rewrite list_fmap_insert. cbn.
  rewrite Hid, Hdeps. apply list_insert_id. now rewrite list_lookup_fmap, Hi.
Qed.

Lemma shape_lookup (l : list Task) (i : nat) (t : Task) :
  l !! i = Some t -> shape l !! i = Some (id t, depsOf t).
Proof. intros H. unfold shape. now rewrite list_lookup_fmap, H. Qed.

Lemma shape_lookup_inv (l : list Task) (i : nat) (x : string) (ds : list string) :
  shape l !! i = Some (x, ds) -> exists t, l !! i = Some t /\ id t = x /\ depsOf t = ds.
Proof.
  unfold shape. rewrite list_lookup_fmap. destruct (l !! i) as [t|]; cbn; [|discriminate].
  intros H. inversion H. eauto.
Qed.

Lemma shape_length (l l' : list Task) : shape l = shape l' -> List.length l = List.length l'.
Proof. intros H. apply (f_equal List.length) in H. unfold shape in H. now rewrite !length_fmap in H. Qed.

Lemma launchMixed_shape (st : State) (job : Z * nat) :
  shape (store (launchMixed st job)) = shape (store st).
Proof.
  unfold launchMixed. destruct (store st !! job.2) as [t|] eqn:Hi; [|reflexivity].
  cbn. now apply (shape_insert _ _ t).
Qed.

Lemma launchPlain_shape (st : State) (job : Z * nat) :
  shape (store (launchPlain st job)) = shape (store st).
Proof.
  unfold launchPlain. destruct (store st !! job.2) as [t|] eqn:Hi; [|reflexivity].
  cbn. now apply (shape_insert _ _ t).
Qed.

Lemma skipOne_shape (st : State) (i : nat) :
  shape (store (skipOne st i)) = shape (store st).
Proof.
  unfold skipOne. destruct (store st !! i) as [t|] eqn:Hi; [|reflexivity].
  cbn. now apply (shape_insert _ _ t).
Qed.

Lemma foldl_shape {A : Type} (f : State -> A -> State) (l : list A) :
  (forall st a, shape (store (f st a)) = shape (store st)) ->
  forall st, shape (store (foldl f st l)) = shape (store st).
Proof.
  intros Hf. induction l as [|a l IH]; intros st; cbn; [reflexivity|].
  now rewrite IH, Hf.
Qed.

Lemma step_shape (exec : ParallelExecutor) (a : Action) (st st' : State) :
  step exec a st = Some st' -> shape (store st') = shape (store st).
Proof.
  destruct a as [clock|i s]; cbn.
  - unfold pass. destruct (exited st); [discriminate|].
    destruct (mode st) as [todo|batches|].
    + destruct (bool_decide _); [|discriminate].
      destruct todo as [|i rest]; intros H; inversion H; subst; [reflexivity|].
      now rewrite launchPlain_shape.
    + destruct (bool_decide _); [|discriminate].
      destruct batches as [|batch rest]; intros H; inversion H; subst; [reflexivity|].
      now rewrite (foldl_shape _ _ launchPlain_shape).
    + intros H. inversion H. subst. unfold mixedPass.
      destruct (_ && _); [reflexivity|]. destruct (_ && _); cbn.
      * now rewrite (foldl_shape _ _ skipOne_shape).
      * now rewrite (foldl_shape _ _ launchMixed_shape).
  - unfold settle. destruct (store st !! i) as [t|] eqn:Hi; [|discriminate].
    destruct (_ && _); [|discriminate]. intros H. inversion H. subst. cbn.
    now apply (shape_insert _ _ t).
Qed.

Lemma run_shape (exec : ParallelExecutor) (acts : list Action) :
  forall st st', run exec acts st = Some st' -> shape (store st') = shape (store st).
Proof.
  induction acts as [|a acts IH]; intros st st'; cbn.
  - intros H. now inversion H.
  - destruct (step exec a st) as [st1|] eqn:Hstep; [|discriminate].
    intros H. rewrite (IH _ _ H). now apply (step_shape exec a).
Qed.

(** Six tasks without dependencies, each bound to a tool. *)
Definition sixIndependent : list Task :=
  (fun name => mkTask name (Some "read_file") []) <$> ["t1"; "t2"; "t3"; "t4"; "t5"; "t6"].

Definition defaultExecutor : ParallelExecutor :=
  newExecutor {| cfgMaxParallelTasks := None; cfgMaxRetries := None |}.

(** C1, at the input where the code departs from it: a mixed plan of
    six independent tasks under the default limit of five. The first
    pass of the loop of [executeMixed] starts all six, and six tasks are
    ['in_progress'] at once. *)
Theorem mixed_pass_starts_more_than_the_limit :
  exists st0 st,
    initState defaultExecutor (mkPlan sixIndependent Mixed) = Some st0
    /\ run defaultExecutor [Loop (fun _ => 0)] st0 = Some st
    /\ maxParallelTasks defaultExecutor = 5%nat
    /\ inProgressCount st = 6%nat
    /\ size (inProgress st) = 6%nat.
Proof.
  eexists _, _. split; [reflexivity|]. split; [vm_compute; reflexivity|].
  split; [reflexivity|]. split; vm_compute; reflexivity.
Qed.

(** Every task whose execution has begun has a recorded result for each
    identifier of its dependency list. The scheduler's pass that starts
    a task leaves the results map as it is, so this holds in the state
    right after a start exactly when it held at the start. *)
Definition startsRespectDependencies (st : State) : Prop :=
  forall i x ds d, i ∈ started st -> shape (store st) !! i = Some (x, ds) -> d ∈ ds ->
    is_Some (results st !! d).

Lemma launchMixed_results (st : State) (job : Z * nat) :
  results (launchMixed st job) = results st.
Proof. unfold launchMixed. now destruct (store st !! job.2). Qed.

Lemma launchMixed_started (st : State) (job : Z * nat) (i : nat) :
  i ∈ started (launchMixed st job) -> i = job.2 \/ i ∈ started st.
Proof.
  unfold launchMixed. destruct (store st !! job.2); cbn; [|now right].
  rewrite elem_of_union, elem_of_singleton. tauto.
Qed.

Definition depsRecorded (st : State) (i : nat) : Prop :=
  forall x ds d, shape (store st) !! i = Some (x, ds) -> d ∈ ds -> is_Some (results st !! d).

Lemma foldl_launchMixed_respects (l : list (Z * nat)) :
  forall st, startsRespectDependencies st ->
    (forall job, job ∈ l -> depsRecorded st job.2) ->
    startsRespectDependencies (foldl launchMixed st l).
Proof.
  induction l as [|job l IH]; intros st Hst Hjobs; cbn; [exact Hst|].
  apply IH.
  - intros i x ds d Hi Hsh Hd. rewrite launchMixed_results.
    rewrite launchMixed_shape in Hsh.
    apply launchMixed_started in Hi as [->|Hi].
    + apply (Hjobs job (list_elem_of_here _ _) x ds d Hsh Hd).
    + apply (Hst i x ds d Hi Hsh Hd).
  - intros job' Hin x ds d Hsh Hd. rewrite launchMixed_results.
    rewrite launchMixed_shape in Hsh.
    apply (Hjobs job' (list_elem_of_further _ _ _ Hin) x ds d Hsh Hd).
Qed.

Lemma jobs_positions (clock : nat -> Z) (l : list nat) (job : Z * nat) :
  job ∈ jobs clock l -> job.2 ∈ l.
Proof.
  unfold jobs. revert clock. induction l as [|i l IH]; intros clock Hin; cbn in Hin.
  - inversion Hin.
  - apply elem_of_cons in Hin as [->|Hin]; [left|right]. apply (IH _ Hin).
Qed.

Lemma readyTasks_ready (exec : ParallelExecutor) (st : State) (i : nat) :
  i ∈ readyTasks exec st ->
  exists t, store st !! i = Some t /\ isReady exec st t = true.
Proof.
  unfold readyTasks. rewrite list_elem_of_In, filter_In. intros [_ H].
  unfold taskHolds in H. destruct (store st !! i) as [t|]; [eauto|discriminate].
Qed.

Lemma areDependenciesMet_recorded (t : Task) (res : gmap string JSON) (d : string) :
  areDependenciesMet t res = true -> d ∈ depsOf t -> is_Some (res !! d).
Proof.
  unfold areDependenciesMet. rewrite forallb_forall. intros H Hd.
  apply list_elem_of_In in Hd. specialize (H d Hd). cbv beta in H.
  now apply bool_decide_eq_true in H.
Qed.

Lemma readyTasks_depsRecorded (exec : ParallelExecutor) (st : State) (i : nat) :
  i ∈ readyTasks exec st -> depsRecorded st i.
Proof.
  intros Hi x ds d Hsh Hd.
  destruct (readyTasks_ready exec st i Hi) as (t & Ht & Hready).
  rewrite (shape_lookup _ _ _ Ht) in Hsh. inversion Hsh. subst x ds.
  unfold isReady in Hready. apply andb_prop in Hready as [Hready _].
  apply andb_prop in Hready as [_ Hmet].
  now apply (areDependenciesMet_recorded t).
Qed.

Lemma skipOne_same (st : State) (i : nat) :
  results (skipOne st i) = results st /\ started (skipOne st i) = started st
  /\ running (skipOne st i) = running st /\ inProgress (skipOne st i) = inProgress st
  /\ mode (skipOne st i) = mode st /\ exited (skipOne st i) = exited st.
Proof. unfold skipOne. destruct (store st !! i); cbn; repeat split; reflexivity. Qed.

Lemma foldl_skipOne_same (l : list nat) :
  forall st,
    results (foldl skipOne st l) = results st /\ started (foldl skipOne st l) = started st
    /\ running (foldl skipOne st l) = running st
    /\ inProgress (foldl skipOne st l) = inProgress st
    /\ mode (foldl skipOne st l) = mode st /\ exited (foldl skipOne st l) = exited st.
Proof.
  induction l as [|i l IH]; intros st; cbn; [repeat split; reflexivity|].
  destruct (IH (skipOne st i)) as (H1 & H2 & H3 & H4 & H5 & H6).
  destruct (skipOne_same st i) as (K1 & K2 & K3 & K4 & K5 & K6).
  repeat split; congruence.
Qed.

Lemma launchMixed_mode (st : State) (job : Z * nat) :
  mode (launchMixed st job) = mode st /\ exited (launchMixed st job) = exited st.
Proof. unfold launchMixed. destruct (store st !! job.2); cbn; split; reflexivity. Qed.

Lemma foldl_launchMixed_mode (l : list (Z * nat)) :
  forall st, mode (foldl launchMixed st l) = mode st
             /\ exited (foldl launchMixed st l) = exited st.
Proof.
  induction l as [|job l IH]; intros st; cbn; [split; reflexivity|].
  destruct (IH (launchMixed st job)) as [H1 H2].
  destruct (launchMixed_mode st job) as [K1 K2]. split; congruence.
Qed.

Lemma step_mixed_mode (exec : ParallelExecutor) (a : Action) (st st' : State) :
  mode st = MixMode -> step exec a st = Some st' -> mode st' = MixMode.
Proof.
  intros Hmode. destruct a as [clock|i s]; cbn.
  - unfold pass. destruct (exited st); [discriminate|]. rewrite Hmode.
    intros H. inversion H. subst. unfold mixedPass.
    destruct (_ && _); [exact Hmode|]. destruct (_ && _); cbn.
    + destruct (foldl_skipOne_same (remainingTasks st) st) as (_ & _ & _ & _ & -> & _).
      exact Hmode.
    + destruct (foldl_launchMixed_mode (jobs clock (readyTasks exec st)) st) as [-> _].
      exact Hmode.
  - unfold settle. destruct (store st !! i) as [t|]; [|discriminate].
    destruct (_ && _); [|discriminate]. intros H. inversion H. subst. cbn.
    rewrite Hmode. now destruct (outcome s).
Qed.

Lemma step_mixed_respects (exec : ParallelExecutor) (a : Action) (st st' : State) :
  mode st = MixMode -> step exec a st = Some st' ->
  startsRespectDependencies st -> startsRespectDependencies st'.
Proof.
  intros Hmode Hstep Hst. pose proof (step_shape exec a st st' Hstep) as Hshape.
  destruct a as [clock|i s]; cbn in Hstep.
  - unfold pass in Hstep. destruct (exited st); [discriminate|]. rewrite Hmode in Hstep.
    inversion Hstep. subst st'. clear Hstep. unfold mixedPass in *.
    destruct (_ && _); [exact Hst|]. destruct (_ && _); cbn in *.
    + destruct (foldl_skipOne_same (remainingTasks st) st) as (Hr & Hs & _).
      intros i x ds d Hi Hsh Hd. cbn in Hi, Hsh |- *. rewrite Hr. rewrite Hs in Hi.
      rewrite Hshape in Hsh. apply (Hst i x ds d Hi Hsh Hd).
    + apply foldl_launchMixed_respects; [exact Hst|].
      intros job Hjob. apply (readyTasks_depsRecorded exec).
      now apply (jobs_positions clock).
  - unfold settle in Hstep. destruct (store st !! i) as [t|]; [|discriminate].
    destruct (_ && _); [|discriminate]. inversion Hstep. subst st'. clear Hstep.
    cbn in Hshape. intros j x ds d Hj Hsh Hd. cbn in Hj, Hsh |- *.
    rewrite Hshape in Hsh. specialize (Hst j x ds d Hj Hsh Hd).
    destruct (outcome s); [|exact Hst].
    apply lookup_insert_is_Some. destruct (decide (id t = d)); [now left|now right].
Qed.

Lemma run_mixed_respects (exec : ParallelExecutor) (acts : list Action) :
  forall st st', mode st = MixMode -> run exec acts st = Some st' ->
    startsRespectDependencies st -> startsRespectDependencies st'.
Proof.
  induction acts as [|a acts IH]; intros st st' Hmode; cbn.
  - intros H. now inversion H.
  - destruct (step exec a st) as [st1|] eqn:Hstep; [|discriminate].
    intros Hrun Hst. apply (IH st1 st' (step_mixed_mode exec a st st1 Hmode Hstep) Hrun).
    now apply (step_mixed_respects exec a st).
Qed.

Lemma initState_store (exec : ParallelExecutor) (plan : TaskPlan) (st0 : State) :
  initState exec plan = Some st0 ->
  store st0 = tasks plan /\ started st0 = ∅ /\ results st0 = ∅ /\ running st0 = ∅
  /\ inProgress st0 = ∅ /\ failedTasks st0 = [] /\ exited st0 = false.
Proof.
  unfold initState. destruct (strategy plan).
  - intros H. inversion H. cbn. repeat split; reflexivity.
  - destruct (createBatches _ _ _); cbn; [|discriminate].
    intros H. inversion H. cbn. repeat split; reflexivity.
  - intros H. inversion H. cbn. repeat split; reflexivity.
Qed.

(** [share] waits for [build]; both run in the first batch. *)
Definition dependentPair : list Task :=
  [ mkTask "share" (Some "write_file") ["build"]; mkTask "build" (Some "terminal") [] ].

(** C2, as stated, fails: [executeParallel] starts a task whatever its
    dependency list says. *)
Lemma parallel_mode_ignores_dependencies :
  ~ (forall (exec : ParallelExecutor) (plan : TaskPlan) (st0 : State)
            (acts : list Action) (st : State),
       strategy plan = Mixed \/ strategy plan = Parallel ->
       initState exec plan = Some st0 ->
       run exec acts st0 = Some st ->
       startsRespectDependencies st).
Proof.
  intros H.
  assert (Hinit : exists st0, initState defaultExecutor (mkPlan dependentPair Parallel)
                              = Some st0) by (eexists; reflexivity).
  destruct Hinit as [st0 Hinit].
  assert (Hrun : exists st, run defaultExecutor [Loop (fun _ => 0)] st0 = Some st).
  { vm_compute in Hinit. inversion Hinit. subst st0. eexists. vm_compute. reflexivity. }
  destruct Hrun as [st Hrun].
  specialize (H defaultExecutor (mkPlan dependentPair Parallel) st0 [Loop (fun _ => 0)] st
                (or_intror eq_refl) Hinit Hrun 0%nat "share" ["build"] "build").
  vm_compute in Hinit. inversion Hinit. subst st0.
  vm_compute in Hrun. inversion Hrun. subst st.
  assert (Hnone : is_Some (@None JSON) -> False) by (intros [v Hv]; discriminate).
  apply Hnone. apply H.
  - vm_compute. reflexivity.
  - reflexivity.
  - left.
Qed.

(** C2 (amended). In every mixed execution of a plan, a task whose
    execution has begun has a recorded result for every identifier of
    its dependency list: no task begins before its dependencies are
    recorded. In a parallel execution the same holds when no task of the
    plan declares a dependency, which is how the planner classifies a
    plan as parallel; [executeParallel] itself does not look at
    dependency lists. *)
Theorem starts_respect_dependencies
    (exec : ParallelExecutor) (plan : TaskPlan) (st0 : State)
    (acts : list Action) (st : State) :
  strategy plan = Mixed
  \/ (strategy plan = Parallel /\ Forall (fun t => depsOf t = []) (tasks plan)) ->
  initState exec plan = Some st0 ->
  run exec acts st0 = Some st ->
  startsRespectDependencies st.
Proof.
  intros Hstrategy Hinit Hrun.
  destruct (initState_store exec plan st0 Hinit) as (Hstore & Hstarted & _).
  destruct Hstrategy as [Hmixed|[_ Hnodeps]].
  - apply (run_mixed_respects exec acts st0 st); [|exact Hrun|].
    + unfold initState in Hinit. rewrite Hmixed in Hinit. now inversion Hinit.
    + intros i x ds d Hi. rewrite Hstarted in Hi. set_solver.
  - intros i x ds d _ Hsh Hd. rewrite (run_shape exec acts st0 st Hrun), Hstore in Hsh.
    apply shape_lookup_inv in Hsh as (t & Ht & _ & Hds).
    rewrite Forall_forall in Hnodeps.
    rewrite (Hnodeps t) in Hds by (apply list_elem_of_lookup; eauto).
    subst ds. inversion Hd.
Qed.

Definition okSettlement (v : JSON) : Settlement :=
  {| outcome := Ok v; retriesUsed := 0; lastStart := 0; endedAt := 1 |}.

Lemma starts_respect_dependencies_witness :
  exists st0 st,
    initState defaultExecutor (mkPlan diamond Mixed) = Some st0
    /\ run defaultExecutor
         [Loop (fun _ => 0); Settle 2 (okSettlement (JStr "data")); Loop (fun _ => 2)] st0
       = Some st
    /\ startsRespectDependencies st.
Proof.
  eexists _, _. split; [reflexivity|]. split; [vm_compute; reflexivity|].
  eapply (starts_respect_dependencies defaultExecutor (mkPlan diamond Mixed) _
            [Loop (fun _ => 0); Settle 2 (okSettlement (JStr "data")); Loop (fun _ => 2)]).
  - left. reflexivity.
  - reflexivity.
  - vm_compute. reflexivity.
Defined.

(** *** Mixed mode: termination and the fate of every task *)

Definition deadlockMessage : string := "Unmet dependencies or deadlock".

(** Where the task at position [i] stands: waiting in [pending]; in
    flight; settled (completed with its result recorded, or failed and
    listed in [failedTasks]); or skipped by the deadlock branch, which
    ends the loop ([ex]). *)
Inductive Phase (ex : bool) (st : State) (i : nat) (t : Task) : Prop :=
| Waiting :
    id t ∈ pending st -> i ∉ started st -> i ∉ running st -> Phase ex st i t
| InFlight :
    i ∈ running st -> i ∈ started st -> id t ∉ pending st -> Phase ex st i t
| SettledOk :
    i ∈ started st -> i ∉ running st -> id t ∉ pending st ->
    status t = Completed -> is_Some (results st !! id t) -> Phase ex st i t
| SettledFailed :
    i ∈ started st -> i ∉ running st -> id t ∉ pending st ->
    status t = Failed -> i ∈ failedTasks st -> Phase ex st i t
| WasSkipped :
    i ∉ started st -> i ∉ running st -> id t ∉ pending st ->
    status t = Skipped -> error t = Some deadlockMessage -> i ∈ failedTasks st ->
    areDependenciesMet t (results st) = false -> ex = true -> Phase ex st i t.

Section Mixed.

Variable ts : list Task.
Hypothesis unique_ids : NoDup (ids ts).

Record MixInv (ex : bool) (st : State) : Prop := {
  mi_mode : mode st = MixMode;
  mi_shape : shape (store st) = shape ts;
  mi_inProgress :
    forall x, (x ∈ inProgress st) <->
              (exists i t, i ∈ running st /\ store st !! i = Some t /\ id t = x);
  mi_running : forall i, i ∈ running st -> is_Some (store st !! i);
  mi_pending : forall x, x ∈ pending st -> exists i t, store st !! i = Some t /\ id t = x;
  mi_phase : forall i t, store st !! i = Some t -> Phase ex st i t;
  mi_exited : ex = true -> running st = ∅;
}.

Lemma position_unique (st : State) (i j : nat) (t t' : Task) :
  shape (store st) = shape ts ->
  store st !! i = Some t -> store st !! j = Some t' -> id t = id t' -> i = j.
Proof.
  intros Hsh Hi Hj Hid.
  assert (Hids : ids (store st) = ids ts).
  { unfold ids. apply (f_equal (fmap fst)) in Hsh. unfold shape in Hsh.
    rewrite <- !list_fmap_compose in Hsh. exact Hsh. }
  eapply NoDup_lookup; [rewrite <- Hids in unique_ids; exact unique_ids | |];
    unfold ids; rewrite list_lookup_fmap.
  - rewrite Hi. reflexivity.
  - rewrite Hj. cbn. now rewrite Hid.
Qed.

(** Starting a waiting task keeps the invariant, lowers the measure's
    [pending] part by one and leaves the other waiting tasks waiting. *)
Lemma launchMixed_inv (st : State) (now : Z) (i : nat) (t : Task) :
  MixInv false st -> store st !! i = Some t ->
  id t ∈ pending st -> i ∉ started st -> i ∉ running st ->
  let st' := launchMixed st (now, i) in
  MixInv false st'
  /\ size (pending st') = (size (pending st) - 1)%nat
  /\ size (running st') = S (size (running st))
  /\ (forall k u, k <> i -> store st !! k = Some u ->
        id u ∈ pending st -> k ∉ started st -> k ∉ running st ->
        store st' !! k = Some u /\ id u ∈ pending st' /\ (k ∉ started st') /\ (k ∉ running st')).
Proof.
  intros [Hmode Hshape Hin Hrun Hpend Hphase Hex] Hi Hp Hs Hr st'.
  subst st'. unfold launchMixed. cbn [snd fst]. rewrite Hi.
  assert (Hlt : (i < List.length (store st))%nat) by (now apply lookup_lt_Some in Hi).
  split; [|split; [|split]].
  - constructor; cbn.
    + exact Hmode.
    + rewrite <- Hshape. now apply (shape_insert _ _ t).
    + intros x. rewrite elem_of_union, elem_of_singleton, Hin. split.
      * intros [->|(j & u & Hj & Hu & Hx)].
        -- exists i, (startTask now t). split; [set_solver|].
           split; [now apply list_lookup_insert_eq | reflexivity].
        -- exists j, u. split; [set_solver|]. split; [|exact Hx].
           rewrite list_lookup_insert_ne; [exact Hu|]. intros ->. contradiction.
      * intros (j & u & Hj & Hu & Hx). destruct (decide (j = i)) as [->|Hne].
        -- rewrite list_lookup_insert_eq in Hu by exact Hlt. inversion Hu. subst u.
           left. now rewrite <- Hx.
        -- right. exists j, u. rewrite list_lookup_insert_ne in Hu by congruence.
           split; [set_solver|]. split; assumption.
    + intros j Hj. destruct (decide (j = i)) as [->|Hne].
      * rewrite list_lookup_insert_eq by exact Hlt. eauto.
      * rewrite list_lookup_insert_ne by congruence. apply Hrun. set_solver.
    + intros x Hx. apply elem_of_difference in Hx as [Hx Hne].
      destruct (Hpend x Hx) as (j & u & Hu & Hid). destruct (decide (j = i)) as [->|Hji].
      * rewrite Hi in Hu. inversion Hu. subst u. set_solver.
      * exists j, u. rewrite list_lookup_insert_ne by congruence. split; assumption.
    + intros j u Hu. destruct (decide (j = i)) as [->|Hne].
      * rewrite list_lookup_insert_eq in Hu by exact Hlt. inversion Hu. subst u.
        apply InFlight; cbn; set_solver.
      * rewrite list_lookup_insert_ne in Hu by congruence.
        assert (Hid : id u <> id t).
        { intros Heq. apply Hne. apply (position_unique st j i u t Hshape Hu Hi Heq). }
        destruct (Hphase j u Hu) as [H1 H2 H3|H1 H2 H3|H1 H2 H3 H4 H5|H1 H2 H3 H4 H5
                                     |H1 H2 H3 H4 H5 H6 H7 H8].
        -- apply Waiting; cbn; set_solver.
        -- apply InFlight; cbn; set_solver.
        -- apply SettledOk; cbn; try assumption; set_solver.
        -- apply SettledFailed; cbn; try assumption; set_solver.
        -- discriminate.
    + discriminate.
  - cbn. rewrite size_difference by set_solver. now rewrite size_singleton.
  - cbn. rewrite size_union by set_solver. now rewrite size_singleton.
  - intros k u Hk Hu Hpk Hsk Hrk. cbn.
    rewrite list_lookup_insert_ne by congruence.
    assert (Hid : id u <> id t).
    { intros Heq. apply Hk. apply (position_unique st k i u t Hshape Hu Hi Heq). }
    split; [exact Hu|]. set_solver.
Qed.

(** A task at position [i] waits in [pending]. *)
Definition waitsAt (st : State) (i : nat) : Prop :=
  exists t, store st !! i = Some t /\ id t ∈ pending st /\ (i ∉ started st) /\ (i ∉ running st).

Lemma foldl_launchMixed_inv (l : list (Z * nat)) :
  forall st, NoDup (l.*2) -> MixInv false st ->
    (forall job, job ∈ l -> waitsAt st job.2) ->
    let st' := foldl launchMixed st l in
    MixInv false st'
    /\ (size (pending st') + List.length l = size (pending st))%nat
    /\ size (running st') = (size (running st) + List.length l)%nat.
Proof.
  induction l as [|[now i] l IH]; intros st Hnd Hinv Hwait; cbn.
  - split; [exact Hinv|]. lia.
  - cbn in Hnd. apply NoDup_cons in Hnd as [Hfresh Hnd].
    destruct (Hwait (now, i) (list_elem_of_here _ _)) as (t & Ht & Hp & Hs & Hr).
    destruct (launchMixed_inv st now i t Hinv Ht Hp Hs Hr) as (Hinv1 & Hsz & Hrn & Hkeep).
    assert (Hwait1 : forall job, job ∈ l -> waitsAt (launchMixed st (now, i)) job.2).
    { intros job Hjob.
      destruct (Hwait job (list_elem_of_further _ _ _ Hjob)) as (u & Hu & Hpu & Hsu & Hru).
      assert (Hne : job.2 <> i).
      { intros Heq. apply Hfresh. rewrite <- Heq. apply list_elem_of_fmap. eauto. }
      destruct (Hkeep job.2 u Hne Hu Hpu Hsu Hru) as (K1 & K2 & K3 & K4).
      exists u. repeat split; assumption. }
    destruct (IH (launchMixed st (now, i)) Hnd Hinv1 Hwait1) as (Hinv2 & Hsz2 & Hrn2).
    split; [exact Hinv2|].
    assert (Hpos : (0 < size (pending st))%nat).
    { destruct (decide (size (pending st) = 0%nat)) as [Hz|]; [|lia].
      apply size_empty_inv in Hz. set_solver. }
    split; lia.
Qed.

Lemma jobs_snd (clock : nat -> Z) (l : list nat) : (jobs clock l).*2 = l.
Proof.
  unfold jobs. revert clock. induction l as [|i l IH]; intros clock; cbn; [reflexivity|].
  f_equal. apply IH.
Qed.

Lemma jobs_length (clock : nat -> Z) (l : list nat) :
  List.length (jobs clock l) = List.length l.
Proof. unfold jobs. apply length_imap. Qed.

Lemma positions_NoDup (st : State) (p : nat -> bool) :
  NoDup (List.filter p (positions st)).
Proof.
  apply NoDup_ListNoDup, List.NoDup_filter, NoDup_ListNoDup, NoDup_seq.
Qed.

Lemma readyTasks_wait (exec : ParallelExecutor) (st : State) (i : nat) :
  MixInv false st -> i ∈ readyTasks exec st -> waitsAt st i.
Proof.
  intros Hinv Hi. destruct (readyTasks_ready exec st i Hi) as (t & Ht & Hready).
  unfold isReady in Hready. apply andb_prop in Hready as [Hready _].
  apply andb_prop in Hready as [Hpend _]. apply bool_decide_eq_true in Hpend.
  exists t. split; [exact Ht|]. split; [exact Hpend|].
  destruct (mi_phase _ _ Hinv i t Ht) as [H1 H2 H3|H1 H2 H3|H1 H2 H3 H4 H5|H1 H2 H3 H4 H5
                                         |H1 H2 H3 H4 H5 H6 H7 H8];
    try contradiction; try discriminate. split; assumption.
Qed.

Definition unmetAt (st : State) (i : nat) : Prop :=
  forall t, store st !! i = Some t -> areDependenciesMet t (results st) = false.

(** Skipping a waiting task whose dependencies are unmet, with nothing
    in flight. *)
Lemma skipOne_inv (st : State) (i : nat) :
  MixInv true st -> waitsAt st i -> unmetAt st i ->
  let st' := skipOne st i in
  MixInv true st'
  /\ pending st' ⊆ pending st
  /\ (forall u, store st' !! i = Some u -> id u ∉ pending st')
  /\ (forall k, k <> i -> waitsAt st k -> unmetAt st k -> waitsAt st' k /\ unmetAt st' k).
Proof.
  intros [Hmode Hshape Hin Hrun Hpend Hphase Hex] (t & Hi & Hp & Hs & Hr) Hunmet st'.
  subst st'. unfold skipOne. rewrite Hi.
  assert (Hlt : (i < List.length (store st))%nat) by (now apply lookup_lt_Some in Hi).
  assert (Hnone : running st = ∅) by (now apply Hex).
  split; [|split; [|split]].
  - constructor; cbn.
    + exact Hmode.
    + rewrite <- Hshape. now apply (shape_insert _ _ t).
    + intros x. rewrite Hin. split; intros (j & u & Hj & _); set_solver.
    + intros j Hj. set_solver.
    + intros x Hx. apply elem_of_difference in Hx as [Hx Hne].
      destruct (Hpend x Hx) as (j & u & Hu & Hid). destruct (decide (j = i)) as [->|Hji].
      * rewrite Hi in Hu. inversion Hu. subst u. set_solver.
      * exists j, u. rewrite list_lookup_insert_ne by congruence. split; assumption.
    + intros j u Hu. destruct (decide (j = i)) as [->|Hne].
      * rewrite list_lookup_insert_eq in Hu by exact Hlt. inversion Hu. subst u.
        apply WasSkipped; cbn; try reflexivity; try assumption; try set_solver.
      * rewrite list_lookup_insert_ne in Hu by congruence.
        assert (Hid : id u <> id t).
        { intros Heq. apply Hne. apply (position_unique st j i u t Hshape Hu Hi Heq). }
        destruct (Hphase j u Hu) as [H1 H2 H3|H1 H2 H3|H1 H2 H3 H4 H5|H1 H2 H3 H4 H5
                                     |H1 H2 H3 H4 H5 H6 H7 H8].
        -- apply Waiting; cbn; set_solver.
        -- apply InFlight; cbn; set_solver.
        -- apply SettledOk; cbn; try assumption; set_solver.
        -- apply SettledFailed; cbn; try assumption; set_solver.
        -- apply WasSkipped; cbn; try assumption; set_solver.
    + intros _. exact Hnone.
  - cbn. set_solver.
  - cbn. intros u Hu. rewrite list_lookup_insert_eq in Hu by exact Hlt. inversion Hu.
    cbn. set_solver.
  - intros k Hk (u & Hu & Hpu & Hsu & Hru) Huk. cbn.
    assert (Hid : id u <> id t).
    { intros Heq. apply Hk. apply (position_unique st k i u t Hshape Hu Hi Heq). }
    split.
    + exists u. cbn. rewrite list_lookup_insert_ne by congruence.
      split; [exact Hu|]. split; [set_solver|]. split; assumption.
    + intros u'. cbn. rewrite list_lookup_insert_ne by congruence. apply Huk.
Qed.

Lemma foldl_skipOne_pending (l : list nat) :
  forall st, pending (foldl skipOne st l) ⊆ pending st.
Proof.
  induction l as [|i l IH]; intros st; cbn; [reflexivity|].
  etrans; [apply IH|]. unfold skipOne. destruct (store st !! i); cbn; set_solver.
Qed.

Lemma foldl_skipOne_inv (l : list nat) :
  forall st, NoDup l -> MixInv true st ->
    (forall i, i ∈ l -> waitsAt st i /\ unmetAt st i) ->
    let st' := foldl skipOne st l in
    MixInv true st'
    /\ (forall i u, i ∈ l -> store st' !! i = Some u -> id u ∉ pending st').
Proof.
  induction l as [|i l IH]; intros st Hnd Hinv Hall; cbn.
  - split; [exact Hinv|]. intros i u Hi. inversion Hi.
  - apply NoDup_cons in Hnd as [Hfresh Hnd].
    destruct (Hall i (list_elem_of_here _ _)) as [Hw Hu].
    destruct (skipOne_inv st i Hinv Hw Hu) as (Hinv1 & Hsub & Hgone & Hkeep).
    assert (Hall1 : forall k, k ∈ l -> waitsAt (skipOne st i) k /\ unmetAt (skipOne st i) k).
    { intros k Hk. destruct (Hall k (list_elem_of_further _ _ _ Hk)) as [Hwk Huk].
      apply Hkeep; [|assumption|assumption]. intros ->. contradiction. }
    destruct (IH (skipOne st i) Hnd Hinv1 Hall1) as (Hinv2 & Hgone2).
    split; [exact Hinv2|].
    intros k u Hk Hku. apply elem_of_cons in Hk as [->|Hk]; [|now apply (Hgone2 k)].
    intros Hin. apply (foldl_skipOne_pending l) in Hin.
    pose proof (foldl_shape skipOne l skipOne_shape (skipOne st i)) as Hsh.
    pose proof (shape_lookup _ _ _ Hku) as Hl. rewrite Hsh in Hl.
    apply shape_lookup_inv in Hl as (u0 & Hu0 & Hid & _).
    rewrite <- Hid in Hin. apply (Hgone u0 Hu0 Hin).
Qed.

(** A promise settles. *)
Lemma settle_inv (exec : ParallelExecutor) (i : nat) (s : Settlement) (st st' : State) :
  MixInv (exited st) st -> settle exec i s st = Some st' ->
  MixInv (exited st') st'
  /\ exited st' = exited st /\ pending st' = pending st
  /\ S (size (running st')) = size (running st).
Proof.
  intros [Hmode Hshape Hin Hrun Hpend Hphase Hex]. unfold settle.
  destruct (store st !! i) as [t|] eqn:Hi; [|discriminate].
  destruct (bool_decide (i ∈ running st)) eqn:Hri; [|discriminate].
  apply bool_decide_eq_true in Hri.
  destruct (admissible exec t s); [|discriminate].
  cbn [andb]. intros H. inversion H. subst st'. clear H. cbn [exited pending running].
  assert (Hlt : (i < List.length (store st))%nat) by (now apply lookup_lt_Some in Hi).
  assert (Hlive : exited st = false).
  { destruct (exited st); [|reflexivity]. rewrite (Hex eq_refl) in Hri. set_solver. }
  split; [|split; [reflexivity|split; [reflexivity|]]].
  - rewrite Hlive in *. constructor; cbn.
    + rewrite Hmode. now destruct (outcome s).
    + rewrite <- Hshape. now apply (shape_insert _ _ t).
    + intros x. rewrite Hmode. rewrite elem_of_difference, elem_of_singleton, Hin. split.
      * intros [(j & u & Hj & Hu & Hx) Hne]. exists j, u.
        assert (j <> i) by (intros ->; rewrite Hi in Hu; inversion Hu; congruence).
        rewrite list_lookup_insert_ne by congruence. split; [set_solver|]. split; assumption.
      * intros (j & u & Hj & Hu & Hx). apply elem_of_difference in Hj as [Hj Hji].
        assert (Hne : j <> i) by set_solver.
        rewrite list_lookup_insert_ne in Hu by congruence. split; [eauto|].
        intros Heq. apply Hne. apply (position_unique st j i u t Hshape Hu Hi).
        congruence.
    + intros j Hj. apply elem_of_difference in Hj as [Hj Hji].
      rewrite list_lookup_insert_ne by set_solver. now apply Hrun.
    + intros x Hx. destruct (Hpend x Hx) as (j & u & Hu & Hid).
      destruct (decide (j = i)) as [->|Hji].
      * exists i, (settleTask exec s t). rewrite list_lookup_insert_eq by exact Hlt.
        split; [reflexivity|]. rewrite Hi in Hu. inversion Hu. now subst u.
      * exists j, u. rewrite list_lookup_insert_ne by congruence. split; assumption.
    + assert (Hout_i : i ∉ running st ∖ {[i]}) by set_solver.
      intros j u Hu. destruct (decide (j = i)) as [->|Hne].
      * rewrite list_lookup_insert_eq in Hu by exact Hlt. inversion Hu. subst u. clear Hu.
        destruct (Hphase i t Hi) as [H1 H2 H3|H1 H2 H3|H1 H2 H3 H4 H5|H1 H2 H3 H4 H5
                                     |H1 H2 H3 H4 H5 H6 H7 H8]; try contradiction.
        destruct (outcome s) as [v|e] eqn:Hout.
        -- apply SettledOk; cbn; [exact H2 | exact Hout_i | exact H3 | now rewrite Hout |].
           rewrite lookup_insert_eq. eauto.
        -- apply SettledFailed; cbn; [exact H2 | exact Hout_i | exact H3 | now rewrite Hout |].
           apply elem_of_app. right. left.
      * rewrite list_lookup_insert_ne in Hu by congruence.
        assert (Hout_j : j ∉ running st -> j ∉ running st ∖ {[i]}) by set_solver.
        destruct (Hphase j u Hu) as [H1 H2 H3|H1 H2 H3|H1 H2 H3 H4 H5|H1 H2 H3 H4 H5
                                     |H1 H2 H3 H4 H5 H6 H7 H8].
        -- apply Waiting; cbn; [exact H1 | exact H2 | now apply Hout_j].
        -- apply InFlight; cbn; [|exact H2 | exact H3].
           apply elem_of_difference. split; [exact H1|]. now rewrite elem_of_singleton.
        -- apply SettledOk; cbn; [exact H1 | now apply Hout_j | exact H3 | exact H4 |].
           destruct (outcome s); [|assumption]. apply lookup_insert_is_Some.
           destruct (decide (id t = id u)); [now left | now right].
        -- apply SettledFailed; cbn; [exact H1 | now apply Hout_j | exact H3 | exact H4 |].
           destruct (outcome s); [assumption|]. apply elem_of_app. now left.
        -- discriminate.
    + discriminate.
  - assert (Hpos : (0 < size (running st))%nat).
    { destruct (decide (size (running st) = 0%nat)) as [Hz|]; [|lia].
      apply size_empty_inv in Hz. set_solver. }
    rewrite size_difference by set_solver. rewrite size_singleton. lia.
Qed.

(** What decreases with every pass that does something and with every
    promise that settles. *)
Definition measure (st : State) : nat :=
  (2 * size (pending st) + size (running st) + (if exited st then 0 else 1))%nat.

(** The pass of [executeMixed] from [st] only sleeps: nothing is ready
    and something is in progress. *)
Definition idle (exec : ParallelExecutor) (st : State) : bool :=
  (List.length (readyTasks exec st) =? 0)%nat && negb (size (inProgress st) =? 0)%nat.

Definition Good (st : State) : Prop :=
  MixInv (exited st) st /\ (exited st = true -> pending st = ∅).

Lemma Phase_weaken (st : State) (i : nat) (t : Task) :
  Phase false st i t -> Phase true st i t.
Proof.
  intros [H1 H2 H3|H1 H2 H3|H1 H2 H3 H4 H5|H1 H2 H3 H4 H5|H1 H2 H3 H4 H5 H6 H7 H8].
  - now apply Waiting.
  - now apply InFlight.
  - now apply SettledOk.
  - now apply SettledFailed.
  - discriminate.
Qed.

Lemma Phase_setExited (st : State) (i : nat) (t : Task) :
  Phase true st i t -> Phase true (setExited st) i t.
Proof.
  intros [H1 H2 H3|H1 H2 H3|H1 H2 H3 H4 H5|H1 H2 H3 H4 H5|H1 H2 H3 H4 H5 H6 H7 H8].
  - now apply Waiting.
  - now apply InFlight.
  - now apply SettledOk.
  - now apply SettledFailed.
  - now apply WasSkipped.
Qed.

Lemma MixInv_setExited (st : State) :
  MixInv true st -> MixInv true (setExited st).
Proof.
  intros [Hmode Hshape Hin Hrun Hpend Hphase Hex]. constructor; cbn; try assumption.
  intros i t Ht. apply Phase_setExited. now apply Hphase.
Qed.

Lemma nothing_in_flight (ex : bool) (st : State) :
  MixInv ex st -> size (inProgress st) = 0%nat -> running st = ∅.
Proof.
  intros Hinv Hz. apply size_empty_inv in Hz. apply leibniz_equiv in Hz.
  apply set_eq. intros i. split; [|set_solver]. intros Hi.
  destruct (mi_running _ _ Hinv i Hi) as [t Ht].
  assert (Hin : id t ∈ inProgress st) by (apply (mi_inProgress _ _ Hinv); eauto).
  rewrite Hz in Hin. set_solver.
Qed.

Lemma MixInv_stopping (st : State) :
  MixInv false st -> running st = ∅ -> MixInv true st.
Proof.
  intros [Hmode Hshape Hin Hrun Hpend Hphase Hex] Hnone. constructor; try assumption.
  - intros i t Ht. apply Phase_weaken. now apply Hphase.
  - intros _. exact Hnone.
Qed.

Lemma remainingTasks_spec (st : State) (i : nat) :
  i ∈ remainingTasks st <-> exists t, store st !! i = Some t /\ id t ∈ pending st.
Proof.
  unfold remainingTasks, taskHolds, positions. rewrite list_elem_of_In, filter_In, in_seq.
  split.
  - intros [_ H]. destruct (store st !! i) as [t|]; [|discriminate].
    apply bool_decide_eq_true in H. eauto.
  - intros (t & Ht & Hp). split.
    + apply lookup_lt_Some in Ht. lia.
    + rewrite Ht. now apply bool_decide_eq_true.
Qed.

Lemma not_ready_unmet (exec : ParallelExecutor) (st : State) (i : nat) (t : Task) :
  (0 < maxParallelTasks exec)%nat ->
  readyTasks exec st = [] -> size (inProgress st) = 0%nat ->
  store st !! i = Some t -> id t ∈ pending st ->
  areDependenciesMet t (results st) = false.
Proof.
  intros Hmax Hready Hz Ht Hp.
  destruct (areDependenciesMet t (results st)) eqn:Hmet; [|reflexivity].
  assert (Hin : i ∈ readyTasks exec st).
  { unfold readyTasks, positions. rewrite list_elem_of_In, filter_In, in_seq. split.
    - apply lookup_lt_Some in Ht. lia.
    - unfold taskHolds, isReady. rewrite Ht, Hmet, Hz.
      rewrite bool_decide_eq_true_2 by exact Hp. cbn.
      destruct (maxParallelTasks exec); [lia | reflexivity]. }
  rewrite Hready in Hin. inversion Hin.
Qed.

Lemma idle_in_flight (exec : ParallelExecutor) (st : State) :
  Good st -> idle exec st = true -> running st <> ∅.
Proof.
  intros [Hinv _] Hidle Hnone. unfold idle in Hidle.
  apply andb_prop in Hidle as [_ Hbusy]. apply negb_true_iff, Nat.eqb_neq in Hbusy.
  apply Hbusy. destruct (decide (size (inProgress st) = 0%nat)) as [Hz|Hnz]; [exact Hz|].
  exfalso. assert (Hne : inProgress st <> ∅).
  { intros Hempty. apply Hnz. rewrite Hempty. apply size_empty. }
  apply set_choose_L in Hne as [x Hx].
  apply (mi_inProgress _ _ Hinv) in Hx as (i & t & Hi & _). rewrite Hnone in Hi.
  set_solver.
Qed.

(** One pass of the loop of [executeMixed]. *)
Lemma mixedPass_good (exec : ParallelExecutor) (clock : nat -> Z) (st : State) :
  (0 < maxParallelTasks exec)%nat ->
  Good st -> exited st = false ->
  let st' := mixedPass exec clock st in
  Good st'
  /\ (if idle exec st then st' = st else (measure st' < measure st)%nat).
Proof.
  intros Hmax [Hinv _] Hlive st'. subst st'. rewrite Hlive in Hinv.
  unfold mixedPass, idle, measure.
  destruct (Nat.eqb_spec (size (pending st)) 0) as [Hp0|Hp];
    destruct (Nat.eqb_spec (size (inProgress st)) 0) as [Hi0|Hi]; cbn [andb negb].
  - (* nothing pending, nothing in progress: the loop ends *)
    pose proof (nothing_in_flight false st Hinv Hi0) as Hnone.
    split.
    + split; cbn.
      * apply MixInv_setExited. now apply MixInv_stopping.
      * intros _. apply size_empty_inv in Hp0. now apply leibniz_equiv in Hp0.
    + rewrite andb_false_r. cbn. rewrite Hlive. lia.
  - (* nothing pending, something in progress *)
    destruct (Nat.eqb_spec (List.length (readyTasks exec st)) 0) as [Hr0|Hr]; cbn [andb].
    + apply length_zero_iff_nil in Hr0. rewrite Hr0. cbn. split; [|reflexivity].
      split; [now rewrite Hlive | rewrite Hlive; discriminate].
    + exfalso. destruct (readyTasks exec st) as [|i l] eqn:Hready; [cbn in Hr; lia|].
      assert (Hin : i ∈ readyTasks exec st) by (rewrite Hready; left).
      destruct (readyTasks_wait exec st i Hinv Hin) as (t & _ & Hpend & _).
      apply size_empty_inv in Hp0. apply leibniz_equiv in Hp0. rewrite Hp0 in Hpend.
      set_solver.
  - (* something pending, nothing in progress *)
    pose proof (nothing_in_flight false st Hinv Hi0) as Hnone.
    destruct (Nat.eqb_spec (List.length (readyTasks exec st)) 0) as [Hr0|Hr]; cbn [andb].
    + (* deadlock: the remaining tasks are skipped *)
      apply length_zero_iff_nil in Hr0.
      assert (Hall : forall i, i ∈ remainingTasks st -> waitsAt st i /\ unmetAt st i).
      { intros i Hin. apply remainingTasks_spec in Hin as (t & Ht & Hpend). split.
        - exists t. split; [exact Ht|]. split; [exact Hpend|].
          destruct (mi_phase _ _ Hinv i t Ht)
            as [H1 H2 H3|H1 H2 H3|H1 H2 H3 H4 H5|H1 H2 H3 H4 H5|H1 H2 H3 H4 H5 H6 H7 H8];
            try contradiction. split; assumption.
        - intros u Hu. rewrite Ht in Hu. inversion Hu. subst u.
          now apply (not_ready_unmet exec st i t). }
      destruct (foldl_skipOne_inv (remainingTasks st) st (positions_NoDup st _)
                  (MixInv_stopping st Hinv Hnone) Hall) as (Hinv' & Hgone).
      destruct (foldl_skipOne_same (remainingTasks st) st)
        as (Hres & Hst & Hrun & Hinp & Hmode & Hex).
      pose proof (foldl_skipOne_pending (remainingTasks st) st) as Hsub.
      split.
      * split; cbn; [now apply MixInv_setExited|]. intros _.
        apply set_eq. intros x. split; [|set_solver]. intros Hx. exfalso.
        destruct (mi_pending _ _ Hinv' x Hx) as (k & u & Hu & Hid).
        pose proof (shape_lookup _ _ _ Hu) as Hl.
        rewrite (foldl_shape skipOne _ skipOne_shape st) in Hl.
        apply shape_lookup_inv in Hl as (u0 & Hu0 & Hid0 & _).
        assert (Hk : k ∈ remainingTasks st).
        { apply remainingTasks_spec. exists u0. split; [exact Hu0|].
          rewrite Hid0, Hid. now apply Hsub. }
        apply (Hgone k u Hk Hu). now rewrite Hid.
      * cbn. rewrite Hrun, Hlive. apply subseteq_size in Hsub. lia.
    + (* something is ready: it is started *)
      destruct (foldl_launchMixed_inv (jobs clock (readyTasks exec st)) st) as (Hinv' & Hsz & Hrn).
      { rewrite jobs_snd. apply positions_NoDup. }
      { exact Hinv. }
      { intros job Hjob. apply (readyTasks_wait exec st _ Hinv).
        now apply (jobs_positions clock). }
      destruct (foldl_launchMixed_mode (jobs clock (readyTasks exec st)) st) as [_ Hex].
      rewrite jobs_length in Hsz, Hrn. split.
      * split; rewrite Hex, Hlive; [exact Hinv' | discriminate].
      * rewrite Hex, Hlive. lia.
  - (* something pending, something in progress *)
    destruct (Nat.eqb_spec (List.length (readyTasks exec st)) 0) as [Hr0|Hr]; cbn [andb].
    + apply length_zero_iff_nil in Hr0. rewrite Hr0. cbn. split; [|reflexivity].
      split; [now rewrite Hlive | rewrite Hlive; discriminate].
    + destruct (foldl_launchMixed_inv (jobs clock (readyTasks exec st)) st) as (Hinv' & Hsz & Hrn).
      { rewrite jobs_snd. apply positions_NoDup. }
      { exact Hinv. }
      { intros job Hjob. apply (readyTasks_wait exec st _ Hinv).
        now apply (jobs_positions clock). }
      destruct (foldl_launchMixed_mode (jobs clock (readyTasks exec st)) st) as [_ Hex].
      rewrite jobs_length in Hsz, Hrn. split.
      * split; rewrite Hex, Hlive; [exact Hinv' | discriminate].
      * rewrite Hex, Hlive. lia.
Qed.

(** The action changes nothing: a pass that only sleeps. *)
Definition sleeps (exec : ParallelExecutor) (a : Action) (st : State) : bool :=
  match a with
  | Loop _ => idle exec st
  | Settle _ _ => false
  end.

(** The number of actions of a run that are no sleeping pass. *)
Fixpoint work (exec : ParallelExecutor) (acts : list Action) (st : State) : nat :=
  match acts with
  | [] => 0
  | a :: rest =>
      match step exec a st with
      | Some st' => ((if sleeps exec a st then 0 else 1) + work exec rest st')%nat
      | None => 0
      end
  end.

Lemma step_good (exec : ParallelExecutor) (a : Action) (st st' : State) :
  (0 < maxParallelTasks exec)%nat ->
  Good st -> step exec a st = Some st' ->
  Good st' /\ (if sleeps exec a st then st' = st else (measure st' < measure st)%nat).
Proof.
  intros Hmax Hgood. destruct a as [clock|i s]; cbn [step sleeps].
  - unfold pass. destruct (exited st) eqn:Hlive; [discriminate|].
    destruct Hgood as [Hinv Hp]. rewrite Hlive in Hinv.
    rewrite (mi_mode _ _ Hinv). intros H. inversion H. subst st'.
    apply mixedPass_good; [exact Hmax | | exact Hlive].
    split; [now rewrite Hlive | exact Hp].
  - intros Hstep. destruct Hgood as [Hinv Hp].
    destruct (settle_inv exec i s st st' Hinv Hstep) as (Hinv' & Hex & Hpend & Hsize).
    split.
    + split; [exact Hinv'|]. rewrite Hex, Hpend. exact Hp.
    + unfold measure. rewrite Hex, Hpend. lia.
Qed.

Lemma run_good (exec : ParallelExecutor) (acts : list Action) :
  (0 < maxParallelTasks exec)%nat ->
  forall st st', Good st -> run exec acts st = Some st' ->
    Good st' /\ (work exec acts st + measure st' <= measure st)%nat.
Proof.
  intros Hmax. induction acts as [|a acts IH]; intros st st' Hgood; cbn [run work].
  - intros H. inversion H. subst st'. split; [exact Hgood | lia].
  - destruct (step exec a st) as [st1|] eqn:Hstep; [|discriminate].
    intros Hrun. destruct (step_good exec a st st1 Hmax Hgood Hstep) as [Hgood1 Hm].
    destruct (IH st1 st' Hgood1 Hrun) as [Hgood' Hw]. split; [exact Hgood'|].
    destruct (sleeps exec a st); [subst st1|]; lia.
Qed.

Lemma init_good (exec : ParallelExecutor) (plan : TaskPlan) (st0 : State) :
  tasks plan = ts -> strategy plan = Mixed -> initState exec plan = Some st0 ->
  Good st0 /\ measure st0 = (2 * List.length ts + 1)%nat.
Proof.
  intros Hts Hmixed. unfold initState. rewrite Hmixed, Hts. intros H. inversion H.
  subst st0. clear H. split; [split|].
  - cbn. constructor; cbn.
    + reflexivity.
    + reflexivity.
    + intros x. split; [set_solver|]. intros (i & t & Hi & _). set_solver.
    + intros i Hi. set_solver.
    + intros x Hx. apply elem_of_list_to_set, list_elem_of_fmap in Hx as (t & -> & Ht).
      apply list_elem_of_lookup in Ht as [i Hi]. eauto.
    + intros i t Ht. apply Waiting; cbn; [|set_solver|set_solver].
      apply elem_of_list_to_set, list_elem_of_fmap. exists t. split; [reflexivity|].
      apply list_elem_of_lookup. eauto.
    + discriminate.
  - cbn. discriminate.
  - unfold measure. cbn. rewrite size_empty.
    fold (ids ts). rewrite size_list_to_set by exact unique_ids.
    unfold ids. rewrite length_fmap. lia.
Qed.

(** While the loop runs, something can always happen, and it is no
    sleeping pass. *)
Lemma good_progress (exec : ParallelExecutor) (st : State) :
  (0 < maxParallelTasks exec)%nat ->
  Good st -> exited st = false ->
  exists a st', step exec a st = Some st' /\ (measure st' < measure st)%nat.
Proof.
  intros Hmax Hgood Hlive. destruct (decide (running st = ∅)) as [Hnone|Hsome].
  - exists (Loop (fun _ => 0)).
    assert (Hstep : step exec (Loop (fun _ => 0)) st
                    = Some (mixedPass exec (fun _ => 0) st)).
    { cbn. unfold pass. rewrite Hlive.
      destruct Hgood as [Hinv _]. now rewrite (mi_mode _ _ Hinv). }
    eexists. split; [exact Hstep|].
    destruct (step_good exec _ st _ Hmax Hgood Hstep) as [_ Hm]. cbn [sleeps] in Hm.
    destruct (idle exec st) eqn:Hidle; [|exact Hm].
    destruct (idle_in_flight exec st Hgood Hidle Hnone).
  - apply set_choose_L in Hsome as [i Hi].
    destruct Hgood as [Hinv Hp].
    destruct (mi_running _ _ Hinv i Hi) as [t Ht].
    set (r0 := default 0%nat (retries t)).
    set (s := {| outcome := Err "tool failed";
                 retriesUsed := (Nat.max r0 (maxRetries exec) - r0)%nat;
                 lastStart := 0; endedAt := 0 |}).
    assert (Hstep : exists st', settle exec i s st = Some st').
    { unfold settle. rewrite Ht. rewrite bool_decide_eq_true_2 by exact Hi.
      assert (Hadm : admissible exec t s = true).
      { unfold admissible. cbn. fold r0. apply Nat.eqb_eq. lia. }
      rewrite Hadm. cbn. eauto. }
    destruct Hstep as [st' Hstep]. exists (Settle i s), st'. split; [exact Hstep|].
    destruct (settle_inv exec i s st st' Hinv Hstep) as (_ & Hex & Hpend & Hsize).
    unfold measure. rewrite Hex, Hpend. lia.
Qed.

(** Once the loop has ended, nothing is pending or in flight, and every
    task was either executed, ending completed or failed, or skipped
    with the deadlock message and listed in [failedTasks], its
    dependencies being unmet. *)
Definition settledOrSkipped (st : State) : Prop :=
  running st = ∅ /\ pending st = ∅
  /\ forall i t, store st !! i = Some t ->
       (i ∈ started st
        /\ ((status t = Completed /\ is_Some (results st !! id t))
            \/ (status t = Failed /\ i ∈ failedTasks st)))
       \/ ((i ∉ started st) /\ status t = Skipped /\ error t = Some deadlockMessage
           /\ i ∈ failedTasks st /\ areDependenciesMet t (results st) = false).

Lemma good_final (st : State) : Good st -> exited st = true -> settledOrSkipped st.
Proof.
  intros [Hinv Hp] Hex. rewrite Hex in Hinv.
  pose proof (mi_exited _ _ Hinv eq_refl) as Hnone. specialize (Hp Hex).
  split; [exact Hnone|]. split; [exact Hp|]. intros i t Ht.
  destruct (mi_phase _ _ Hinv i t Ht)
    as [H1 H2 H3|H1 H2 H3|H1 H2 H3 H4 H5|H1 H2 H3 H4 H5|H1 H2 H3 H4 H5 H6 H7 H8].
  - rewrite Hp in H1. set_solver.
  - rewrite Hnone in H1. set_solver.
  - left. split; [exact H1|]. left. split; assumption.
  - left. split; [exact H1|]. right. split; assumption.
  - right. repeat split; assumption.
Qed.

End Mixed.

(** The constructor gives a positive limit unless a negative one is
    configured. *)
Lemma newExecutor_limit_positive (config : Config) :
  (forall z, cfgMaxParallelTasks config = Some z -> 0 <= z) ->
  (0 < maxParallelTasks (newExecutor config))%nat.
Proof.
  destruct config as [[z|] r]; cbn; intros H; [|lia].
  specialize (H z eq_refl). destruct z; cbn; lia.
Qed.

(** [build] has no dependencies; [share] waits for [build]. *)
Definition buildThenShare : list Task :=
  [ mkTask "build" (Some "terminal") []; mkTask "share" (Some "terminal") ["build"] ].

(** A configured limit of -1: [|| 5] keeps it. *)
Definition negativeLimit : Config :=
  {| cfgMaxParallelTasks := Some (-1); cfgMaxRetries := None |}.

(** Under a negative limit no task is ever ready: the first pass of the
    loop skips every task, [build] included, and the loop ends. *)
Example negative_limit_outcome :
  exists st0 st,
    initState (newExecutor negativeLimit) (mkPlan buildThenShare Mixed) = Some st0
    /\ run (newExecutor negativeLimit) [Loop (fun _ => 0)] st0 = Some st
    /\ exited st = true
    /\ (status <$> store st) = [Skipped; Skipped]
    /\ (error <$> store st)
       = [Some "Unmet dependencies or deadlock"; Some "Unmet dependencies or deadlock"]
    /\ failedTasks st = [0%nat; 1%nat]
    /\ (fun t => areDependenciesMet t (results st)) <$> store st = [true; false].
Proof.
  eexists _, _. split; [reflexivity|]. split; [vm_compute; reflexivity|].
  repeat split; vm_compute; reflexivity.
Qed.

(** C7, as stated, fails: the constructor keeps a negative
    [maxParallelTasks], under which [inProgress.size < maxParallelTasks]
    never holds; the loop still ends, but it skips every task, also a
    task whose dependencies are met. *)
Lemma negative_limit_skips_ready_tasks :
  ~ (forall (config : Config) (plan : TaskPlan) (st0 st : State) (acts : list Action),
       strategy plan = Mixed ->
       NoDup (ids (tasks plan)) ->
       initState (newExecutor config) plan = Some st0 ->
       run (newExecutor config) acts st0 = Some st ->
       exited st = true ->
       forall i t, store st !! i = Some t ->
         status t = Skipped -> areDependenciesMet t (results st) = false).
Proof.
  intros H.
  destruct negative_limit_outcome as (st0 & st & Hinit & Hrun & Hexit & Hstatus & _ & _ & Hdeps).
  assert (Hnd : NoDup (ids buildThenShare))
    by (apply (bool_decide_unpack _); vm_compute; reflexivity).
  destruct (store st) as [|t [|u rest]] eqn:Hstore; try discriminate Hstatus.
  specialize (H negativeLimit (mkPlan buildThenShare Mixed) st0 st [Loop (fun _ => 0)]
                eq_refl Hnd Hinit Hrun Hexit 0%nat t).
  rewrite Hstore in H. cbn in Hstatus, Hdeps.
  injection Hstatus as Hskipped _. injection Hdeps as Hmet _.
  specialize (H eq_refl Hskipped). congruence.
Qed.

(** C7 (amended). Under a positive limit on parallel tasks, every mixed
    execution of a plan with distinct task identifiers terminates: of the
    actions of any run, at most [2 n + 1] (for [n] tasks) are anything
    but a pass that only sleeps; the loop sleeps only while some tool
    call is still in flight; as long as the loop has not ended something
    can happen that brings it closer to its end; and when it has ended
    every task whose dependencies were never met is ['skipped'] with the
    deadlock message and listed in [failedTasks], while every other task
    was executed and ended completed or failed. *)
Theorem mixed_execution_terminates
    (exec : ParallelExecutor) (plan : TaskPlan) (st0 : State) (acts : list Action)
    (st : State) :
  (0 < maxParallelTasks exec)%nat ->
  strategy plan = Mixed ->
  NoDup (ids (tasks plan)) ->
  initState exec plan = Some st0 ->
  run exec acts st0 = Some st ->
  (work exec acts st0 + measure st <= 2 * List.length (tasks plan) + 1)%nat
  /\ (idle exec st = true -> running st <> ∅)
  /\ (exited st = false ->
      exists a st', step exec a st = Some st' /\ (measure st' < measure st)%nat)
  /\ (exited st = true -> settledOrSkipped st).
Proof.
  intros Hmax Hmixed Hnd Hinit Hrun.
  destruct (init_good (tasks plan) Hnd exec plan st0 eq_refl Hmixed Hinit)
    as [Hgood0 Hm0].
  destruct (run_good (tasks plan) Hnd exec acts Hmax st0 st Hgood0 Hrun)
    as [Hgood Hwork].
  split; [lia|]. split; [|split].
  - now apply (idle_in_flight (tasks plan)).
  - now apply (good_progress (tasks plan) Hnd).
  - now apply (good_final (tasks plan)).
Qed.

(** [parse] waits for [fetch], which has no tool and fails; [log] is
    independent. *)
Definition brokenChain : list Task :=
  [ mkTask "fetch" None []; mkTask "parse" (Some "edit_file") ["fetch"];
    mkTask "log" (Some "terminal") [] ].

Definition noToolSettlement : Settlement :=
  {| outcome := Err "Task has no tool specified"; retriesUsed := 2;
     lastStart := 1; endedAt := 2 |}.

Definition brokenChainRun : list Action :=
  [ Loop (fun _ => 0); Settle 0 noToolSettlement; Settle 2 (okSettlement (JStr "done"));
    Loop (fun _ => 3) ].

Definition plainConfig : Config := {| cfgMaxParallelTasks := None; cfgMaxRetries := None |}.

Example brokenChain_outcome :
  exists st0 st,
    initState (newExecutor plainConfig) (mkPlan brokenChain Mixed) = Some st0
    /\ run (newExecutor plainConfig) brokenChainRun st0 = Some st
    /\ exited st = true
    /\ (status <$> store st) = [Failed; Skipped; Completed]
    /\ (error <$> store st)
       = [Some "Task has no tool specified"; Some "Unmet dependencies or deadlock"; None]
    /\ failedTasks st = [0%nat; 1%nat]
    /\ reportSuccess (report (mkPlan brokenChain Mixed) st) = false.
Proof.
  eexists _, _. split; [reflexivity|]. split; [vm_compute; reflexivity|].
  repeat split; vm_compute; reflexivity.
Qed.

Lemma brokenChain_unique_ids : NoDup (ids brokenChain).
Proof. apply (bool_decide_unpack _). vm_compute. reflexivity. Qed.

Lemma mixed_execution_terminates_witness :
  exists st0 st,
    initState (newExecutor plainConfig) (mkPlan brokenChain Mixed) = Some st0
    /\ run (newExecutor plainConfig) brokenChainRun st0 = Some st
    /\ (work (newExecutor plainConfig) brokenChainRun st0 + measure st
        <= 2 * List.length brokenChain + 1)%nat
    /\ (idle (newExecutor plainConfig) st = true -> running st <> ∅)
    /\ (exited st = false ->
        exists a st', step (newExecutor plainConfig) a st = Some st'
                      /\ (measure st' < measure st)%nat)
    /\ (exited st = true -> settledOrSkipped st).
Proof.
  eexists _, _. split; [reflexivity|]. split; [vm_compute; reflexivity|].
  apply (mixed_execution_terminates (newExecutor plainConfig) (mkPlan brokenChain Mixed)).
  - cbn. lia.
  - reflexivity.
  - exact brokenChain_unique_ids.
  - reflexivity.
  - vm_compute. reflexivity.
Defined.

(** Tasks [A] and [B] without dependencies and [C] depending on both, in
    mixed mode with a limit of two: [A] and [B] start together, [C] once
    both have settled, and three results are recorded. *)
Example mixed_three_tasks :
  let exec := newExecutor {| cfgMaxParallelTasks := Some 2; cfgMaxRetries := None |} in
  let plan := mkPlan [ mkTask "A" (Some "read_file") []; mkTask "B" (Some "read_file") [];
                       mkTask "C" (Some "write_file") ["A"; "B"] ] Mixed in
  exists st0 st1 st,
    initState exec plan = Some st0
    /\ run exec [Loop (fun _ => 0)] st0 = Some st1
    /\ status <$> store st1 = [InProgress; InProgress; Pending]
    /\ run exec [ Settle 0 (okSettlement (JStr "a")); Settle 1 (okSettlement (JStr "b"));
                  Loop (fun _ => 2); Settle 2 (okSettlement (JStr "c")); Loop (fun _ => 3) ] st1
       = Some st
    /\ exited st = true
    /\ completedTasks (reportPlan (report plan st)) = 3%nat
    /\ reportSuccess (report plan st) = true.
Proof.
  eexists _, _, _. split; [reflexivity|]. split; [vm_compute; reflexivity|].
  split; [vm_compute; reflexivity|]. split; [vm_compute; reflexivity|].
  repeat split; vm_compute; reflexivity.
Qed.

(** *** Parallel mode keeps the limit *)

Lemma createBatches_sizes {A : Type} (fuel : nat) (batchSize : nat) :
  forall (items : list A) (batches : list (list A)),
    createBatches fuel items batchSize = Some batches ->
    Forall (fun b => (List.length b <= batchSize)%nat) batches.
Proof.
  induction fuel as [|fuel IH]; intros items batches; cbn; [discriminate|].
  destruct items as [|x items]; [intros H; inversion H; constructor|].
  destruct (createBatches fuel (drop batchSize (x :: items)) batchSize) as [rest|] eqn:Hrest;
    cbn; [|discriminate].
  intros H. inversion H. subst batches. constructor; [|now apply (IH _ _ Hrest)].
  rewrite length_take. lia.
Qed.

Definition parallelInv (exec : ParallelExecutor) (st : State) : Prop :=
  (size (running st) <= maxParallelTasks exec)%nat
  /\ exists batches, mode st = ParMode batches
       /\ Forall (fun b => (List.length b <= maxParallelTasks exec)%nat) batches.

Lemma launchPlain_running (st : State) (job : Z * nat) :
  (size (running (launchPlain st job)) <= S (size (running st)))%nat
  /\ mode (launchPlain st job) = mode st.
Proof.
  unfold launchPlain. destruct (store st !! job.2); cbn; [|split; [lia|reflexivity]].
  split; [|reflexivity].
  rewrite size_union_alt, size_singleton.
  assert (size (running st ∖ {[job.2]}) <= size (running st))%nat
    by (apply subseteq_size; set_solver).
  lia.
Qed.

Lemma foldl_launchPlain_running (l : list (Z * nat)) :
  forall st, (size (running (foldl launchPlain st l)) <= size (running st) + List.length l)%nat
             /\ mode (foldl launchPlain st l) = mode st.
Proof.
  induction l as [|job l IH]; intros st; cbn; [split; [lia|reflexivity]|].
  destruct (IH (launchPlain st job)) as [H1 H2].
  destruct (launchPlain_running st job) as [K1 K2]. split; [lia|congruence].
Qed.

(** In a parallel execution the number of tasks in flight never exceeds
    the limit: a batch holds at most [maxParallelTasks] tasks and the
    next one starts when the last has settled. *)
Lemma parallel_mode_keeps_limit
    (exec : ParallelExecutor) (plan : TaskPlan) (st0 : State)
    (acts : list Action) (st : State) :
  strategy plan = Parallel ->
  initState exec plan = Some st0 ->
  run exec acts st0 = Some st ->
  (size (running st) <= maxParallelTasks exec)%nat.
Proof.
  intros Hpar Hinit Hrun.
  assert (Hinv0 : parallelInv exec st0).
  { unfold initState in Hinit. rewrite Hpar in Hinit.
    destruct (createBatches _ _ _) as [batches|] eqn:Hb; [|discriminate].
    inversion Hinit. subst st0. split; cbn.
    - rewrite size_empty. lia.
    - exists batches. split; [reflexivity|]. now apply (createBatches_sizes _ _ _ _ Hb). }
  clear Hinit. cut (parallelInv exec st); [now intros [H _]|].
  revert st0 st Hrun Hinv0. induction acts as [|a acts IH]; intros st0 st; cbn.
  - intros H. now inversion H.
  - destruct (step exec a st0) as [st1|] eqn:Hstep; [|discriminate].
    intros Hrun Hinv0. apply (IH st1 st Hrun). clear IH Hrun.
    destruct Hinv0 as (Hsize & batches & Hmode & Hall).
    destruct a as [clock|i s]; cbn in Hstep.
    + unfold pass in Hstep. destruct (exited st0); [discriminate|]. rewrite Hmode in Hstep.
      destruct (bool_decide (running st0 = ∅)) eqn:Hidle; [|discriminate].
      apply bool_decide_eq_true in Hidle.
      destruct batches as [|batch rest]; inversion Hstep; subst st1; clear Hstep.
      * split; cbn; [exact Hsize|]. exists []. split; [exact Hmode|constructor].
      * apply Forall_cons in Hall as [Hbatch Hrest].
        destruct (foldl_launchPlain_running (jobs clock batch) (setMode (ParMode rest) st0))
          as [Hrn Hm].
        rewrite jobs_length in Hrn. cbn in Hrn, Hm. rewrite Hidle, size_empty in Hrn.
        split; [lia|]. exists rest. split; assumption.
    + unfold settle in Hstep. destruct (store st0 !! i); [|discriminate].
      destruct (_ && _); [|discriminate]. inversion Hstep. subst st1. clear Hstep.
      split; cbn.
      * etrans; [apply subseteq_size|exact Hsize]. set_solver.
      * exists batches. rewrite Hmode. split; [now destruct (outcome s)|exact Hall].
Qed.

End ExecutorFacts.

(** ** Chunking of arrays *)

Section ArrayChunks.

Import Chunker.

Lemma chunkArrayLoop_returns {A : Type} (data : list A) (size : Z) (fuel : nat) :
  0 < size ->
  forall (i : Z) (chunks : list (list A)),
    0 <= i ->
    Z.max 0 (Z.of_nat (List.length data) - i) < Z.of_nat fuel ->
    exists out, chunkArrayLoop fuel data size i chunks = Some out.
Proof.
  intros Hsize. induction fuel as [|fuel IH]; intros i chunks Hi Hfuel; cbn.
  - lia.
  - destruct (Z.ltb_spec i (Z.of_nat (List.length data))); [|eauto].
    apply IH; lia.
Qed.

(** The fuel [RLM.chunkTen] gives to [chunkArray] is enough. *)
Lemma chunkArray_ten (items : list JSON) :
  exists chunks,
    chunkArray (S (List.length items)) items
      {| method := FixedSize; chunkSize := Some 10; overlap := None;
         separator := None; customChunker := None |} = Some chunks
    /\ RLM.chunkTen items = chunks.
Proof.
  unfold RLM.chunkTen, chunkArray. cbn [chunkSize orDefaultZ].
  destruct (chunkArrayLoop_returns items 10 (S (List.length items)) ltac:(lia) 0 []
              ltac:(lia) ltac:(lia)) as [out Hout].
  rewrite Hout. eauto.
Qed.

Example chunkTen_sizes :
  List.length <$> RLM.chunkTen (replicate 25 JNull) = [10; 10; 5]%nat.
Proof. vm_compute. reflexivity. Qed.

Example semanticChunking_sentences :
  semanticChunking "One. Two! Three? rest" 9 = ["One. Two!"; "Three?"].
Proof. vm_compute. reflexivity. Qed.

End ArrayChunks.

(* ================================================================== *)
(** * Further properties of the chunker *)

Section ChunkArrayFacts.

Import Chunker.

Context {A : Type}.

(** The loop invariant of [chunkArrayLoop]: the chunks pushed so far spell
    the items before the cursor. *)
Lemma chunkArrayLoop_spec (data : list A) (size : Z) (fuel : nat) :
  1 <= size ->
  forall (a : nat) (chunks : list (list A)),
    (Z.max 0 (Z.of_nat (List.length data) - Z.of_nat a) < Z.of_nat fuel) ->
    concat chunks = take a data ->
    Forall (fun c => (1 <= List.length c)%nat /\ Z.of_nat (List.length c) <= size) chunks ->
    exists out,
      chunkArrayLoop fuel data size (Z.of_nat a) chunks = Some out
      /\ concat out = data
      /\ Forall (fun c => (1 <= List.length c)%nat /\ Z.of_nat (List.length c) <= size) out.
Proof.
  intros Hsize. induction fuel as [|fuel IH]; intros a chunks Hfuel Hcat Hall; [lia|].
  cbn [chunkArrayLoop].
  destruct (Z.ltb_spec (Z.of_nat a) (Z.of_nat (List.length data))) as [Hlt|Hge].
  - unfold JSString.clampIndex.
    destruct (Z.ltb_spec (Z.of_nat a) 0); [lia|].
    destruct (Z.ltb_spec (Z.of_nat a + size) 0); [lia|].
    rewrite (Z.min_l (Z.of_nat a)) by lia. rewrite Nat2Z.id.
    remember (Z.to_nat (Z.max (Z.min (Z.of_nat a + size) (Z.of_nat (List.length data))
                                    - Z.of_nat a) 0)) as k eqn:Hkdef.
    assert (Hk : (1 <= k)%nat /\ Z.of_nat k <= size
                 /\ (k = Z.to_nat size \/ (a + k)%nat = List.length data)).
    { clear IH Hall Hcat. lia. }
    destruct Hk as (Hk1 & Hk2 & Hk3).
    replace (Z.of_nat a + size) with (Z.of_nat (a + Z.to_nat size)) by lia.
    apply IH.
    + lia.
    + rewrite concat_app, Hcat. cbn. rewrite app_nil_r.
      rewrite <- take_take_drop. destruct Hk3 as [->|Hend]; [reflexivity|].
      f_equal. rewrite (take_ge _ k) by (rewrite length_drop; lia).
      rewrite (take_ge _ (Z.to_nat size)) by (rewrite length_drop; lia). reflexivity.
    + apply Forall_app. split; [exact Hall|]. constructor; [|constructor].
      rewrite length_take, length_drop. lia.
  - eexists. split; [reflexivity|]. split; [|exact Hall].
    rewrite Hcat. apply take_ge. lia.
Qed.

(** X1. [chunkArray] with a chunk size of at least one returns (any fuel
    above the number of items is enough) chunks that are never empty, hold
    at most [chunkSize] items each and, put end to end, are the array. *)
Theorem chunkArray_partitions (data : list A) (strategy : ChunkingStrategy)
    (size : Z) (fuel : nat) :
  orDefaultZ (chunkSize strategy) 10 = size ->
  1 <= size ->
  (List.length data < fuel)%nat ->
  exists chunks,
    chunkArray fuel data strategy = Some chunks
    /\ concat chunks = data
    /\ Forall (fun c => (1 <= List.length c)%nat /\ Z.of_nat (List.length c) <= size) chunks.
Proof.
  intros Hdef Hsize Hfuel. unfold chunkArray. rewrite Hdef.
  apply (chunkArrayLoop_spec data size fuel Hsize 0 []); [lia | reflexivity | constructor].
Qed.

End ChunkArrayFacts.

Lemma chunkArray_partitions_witness :
  exists chunks,
    Chunker.chunkArray 8 [1; 2; 3; 4; 5; 6; 7]%nat
      {| Chunker.method := Chunker.FixedSize; Chunker.chunkSize := Some 3;
         Chunker.overlap := None; Chunker.separator := None;
         Chunker.customChunker := None |} = Some chunks
    /\ concat chunks = [1; 2; 3; 4; 5; 6; 7]%nat
    /\ Forall (fun c => (1 <= List.length c)%nat /\ Z.of_nat (List.length c) <= 3) chunks.
Proof.
  apply (chunkArray_partitions [1; 2; 3; 4; 5; 6; 7]%nat _ 3 8);
    [reflexivity | lia | cbn; lia].
Defined.

Section OverlapFacts.

Import Chunker.

(** With no bound on the array the loop has no end. *)
Lemma fixedSizeLoop_stuck (text : string) (size ovl : Z) :
  1 <= size -> size <= ovl -> ovl < Z.of_nat (String.length text) ->
  forall (fuel : nat) (start : Z) (chunks : list string),
    start <= 0 -> fixedSizeLoop fuel text size ovl start chunks = None.
Proof.
  intros Hsize Hovl Hlen. induction fuel as [|fuel IH]; intros start chunks Hstart;
    [reflexivity|].
  cbn [fixedSizeLoop].
  destruct (Z.ltb_spec start (Z.of_nat (String.length text))); [|lia].
  rewrite Z.min_l by lia.
  destruct (Z.geb_spec (start + size - ovl) (Z.of_nat (String.length text) - ovl)); [lia|].
  apply IH. lia.
Qed.

(** The loop keeps pushing until the array is full. *)
Lemma fixedSizeLoopWithin_overflows (limit : nat) (text : string) (size ovl : Z) :
  1 <= size -> size <= ovl -> ovl < Z.of_nat (String.length text) ->
  forall (fuel : nat) (start : Z) (chunks : list string),
    start <= 0 -> (limit - List.length chunks < fuel)%nat ->
    fixedSizeLoopWithin limit fuel text size ovl start chunks
    = Some (Err "Invalid array length").
Proof.
  intros Hsize Hovl Hlen. induction fuel as [|fuel IH]; intros start chunks Hstart Hfuel;
    [lia|].
  cbn [fixedSizeLoopWithin].
  destruct (Z.ltb_spec start (Z.of_nat (String.length text))); [|lia].
  destruct (Nat.leb_spec limit (List.length chunks)); [reflexivity|].
  rewrite Z.min_l by lia.
  destruct (Z.geb_spec (start + size - ovl) (Z.of_nat (String.length text) - ovl)); [lia|].
  apply IH; [lia|]. rewrite length_app. cbn. lia.
Qed.

Lemma fixedSizeLoop_grows (text : string) (size ovl : Z) :
  forall (fuel : nat) (start : Z) (chunks out : list string),
    fixedSizeLoop fuel text size ovl start chunks = Some out ->
    (List.length chunks <= List.length out)%nat.
Proof.
  induction fuel as [|fuel IH]; intros start chunks out; [discriminate|].
  cbn [fixedSizeLoop]. destruct (_ <? _); [|intros H; injection H as <-; lia].
  destruct (_ >=? _).
  - intros H. injection H as <-. rewrite length_app. cbn. lia.
  - intros H. apply IH in H. rewrite length_app in H. cbn in H. lia.
Qed.

(** A result that fits in an array is the result in the engine. *)
Lemma fixedSizeLoopWithin_fits (limit : nat) (text : string) (size ovl : Z) :
  forall (fuel : nat) (start : Z) (chunks out : list string),
    fixedSizeLoop fuel text size ovl start chunks = Some out ->
    (List.length out <= limit)%nat ->
    fixedSizeLoopWithin limit fuel text size ovl start chunks = Some (Ok out).
Proof.
  induction fuel as [|fuel IH]; intros start chunks out; [discriminate|].
  cbn [fixedSizeLoop fixedSizeLoopWithin].
  destruct (_ <? _); [|intros H _; injection H as <-; reflexivity].
  intros H Hfit.
  assert (Hroom : (List.length chunks < limit)%nat).
  { destruct (_ >=? _).
    - injection H as <-. rewrite length_app in Hfit. cbn in Hfit. lia.
    - apply fixedSizeLoop_grows in H. rewrite length_app in H. cbn in H. lia. }
  destruct (Nat.leb_spec limit (List.length chunks)); [lia|].
  destruct (_ >=? _); [now injection H as <- | now apply IH].
Qed.

(** X2. With an overlap that is not smaller than the chunk size, on a
    text longer than the overlap, the cursor of fixed-size chunking does
    not advance and the exit test of the loop never holds: the loop
    pushes chunks until the array is full, and the call ends with the
    [RangeError] ["Invalid array length"], whatever the bound of the
    engine on the length of an array. It returns no chunks. *)
Theorem fixed_size_chunking_overflows_on_large_overlap
    (text : string) (size ovl : Z) (limit fuel : nat) :
  1 <= size -> size <= ovl -> ovl < Z.of_nat (String.length text) ->
  (limit < fuel)%nat ->
  fixedSizeChunkingWithin limit fuel text size ovl = Some (Err "Invalid array length")
  /\ forall chunks, fixedSizeChunking fuel text size ovl <> Some chunks.
Proof.
  intros Hsize Hovl Hlen Hfuel. split.
  - apply fixedSizeLoopWithin_overflows; auto; cbn; lia.
  - intros chunks. unfold fixedSizeChunking.
    rewrite (fixedSizeLoop_stuck text size ovl Hsize Hovl Hlen fuel 0 []) by lia.
    discriminate.
Qed.

Lemma fixed_size_chunking_overflows_on_large_overlap_witness :
  fixedSizeChunkingWithin 1000 1001 "hello world" 2 2 = Some (Err "Invalid array length")
  /\ forall chunks, fixedSizeChunking 1001 "hello world" 2 2 <> Some chunks.
Proof.
  apply (fixed_size_chunking_overflows_on_large_overlap "hello world" 2 2 1000 1001);
    cbn; lia.
Defined.

End OverlapFacts.

(* ================================================================== *)
(** * Fixed-size chunking with overlap *)

Section OverlapCover.

Import Chunker.

(** [c.slice(ovl)]: a chunk without the characters it repeats. *)
Definition dropOverlap (ovl : nat) (c : string) : string :=
  String.substring ovl (String.length c - ovl) c.

(** The first chunk followed by what every later chunk adds to it. *)
Definition stitch (ovl : nat) (chunks : list string) : string :=
  match chunks with
  | [] => EmptyString
  | c :: rest => String.append c (JSString.join (List.map (dropOverlap ovl) rest))
  end.

Lemma append_assoc (x y z : string) :
  String.append (String.append x y) z = String.append x (String.append y z).
Proof.
  induction x as [|c x IH]; [reflexivity|]. rewrite !append_String. now rewrite IH.
Qed.

Lemma stitch_snoc (ovl : nat) (chunks : list string) (c : string) :
  chunks <> [] ->
  stitch ovl (chunks ++ [c]) = String.append (stitch ovl chunks) (dropOverlap ovl c).
Proof.
  destruct chunks as [|c0 rest]; [congruence|]. intros _.
  cbn [stitch app]. rewrite List.map_app, join_app, append_assoc.
  cbn [List.map JSString.join fold_right]. now rewrite append_empty_r.
Qed.

Lemma substring_length (s : string) (a k : nat) :
  (a + k <= String.length s)%nat -> String.length (String.substring a k s) = k.
Proof.
  revert a k. induction s as [|c s IH]; intros a k Hle; simpl in *.
  - assert (a = 0%nat) by lia. assert (k = 0%nat) by lia. subst. reflexivity.
  - destruct a as [|a]; destruct k as [|k]; simpl; try reflexivity.
    + f_equal. apply IH. lia.
    + apply IH. lia.
    + apply IH. lia.
Qed.

Lemma substring_substring (s : string) (a k j m : nat) :
  (a + k <= String.length s)%nat -> (j + m <= k)%nat ->
  String.substring j m (String.substring a k s) = String.substring (a + j) m s.
Proof.
  revert a k j m. induction s as [|c s IH]; intros a k j m Hle Hjm; simpl in *.
  - assert (a = 0%nat) by lia. assert (k = 0%nat) by lia. subst.
    assert (j = 0%nat) by lia. assert (m = 0%nat) by lia. subst. reflexivity.
  - destruct a as [|a].
    + destruct k as [|k].
      * assert (j = 0%nat) by lia. assert (m = 0%nat) by lia. subst. reflexivity.
      * simpl. destruct j as [|j].
        -- destruct m as [|m]; [reflexivity|]. f_equal.
           apply (IH 0%nat k 0%nat m); lia.
        -- apply (IH 0%nat k j m); lia.
    + simpl. apply IH; lia.
Qed.

(** The loop of [fixedSizeLoop] after its first round: the text is read up
    to [a], the cursor stands [ovl] characters before it. *)
Lemma fixedSizeLoop_overlap (text : string) (size : Z) (ovl fuel : nat) :
  Z.of_nat ovl < size ->
  forall (a : nat) (chunks : list string),
    (ovl <= a)%nat -> (a < String.length text)%nat ->
    (String.length text - a < fuel)%nat ->
    chunks <> [] ->
    stitch ovl chunks = String.substring 0 a text ->
    Forall (fun c => Z.of_nat (String.length c) <= size) chunks ->
    exists out,
      fixedSizeLoop fuel text size (Z.of_nat ovl) (Z.of_nat a - Z.of_nat ovl) chunks
      = Some out
      /\ stitch ovl out = text
      /\ Forall (fun c => Z.of_nat (String.length c) <= size) out.
Proof.
  intros Hovl. induction fuel as [|fuel IH]; intros a chunks Hoa Ha Hfuel Hne Hst Hall;
    [lia|].
  cbn [fixedSizeLoop].
  destruct (Z.ltb_spec (Z.of_nat a - Z.of_nat ovl) (Z.of_nat (String.length text)));
    [|lia].
  remember (Z.to_nat (Z.min (Z.of_nat a - Z.of_nat ovl + size)
                        (Z.of_nat (String.length text)))) as b eqn:Hbdef.
  assert (Hb : Z.min (Z.of_nat a - Z.of_nat ovl + size) (Z.of_nat (String.length text))
               = Z.of_nat b) by lia.
  rewrite Hb. assert (Hab : (a < b <= String.length text)%nat) by lia.
  replace (Z.of_nat a - Z.of_nat ovl) with (Z.of_nat (a - ovl)) by lia.
  rewrite slice_in_range by lia.
  set (piece := String.substring (a - ovl) (b - (a - ovl)) text).
  assert (Hlen : String.length piece = (b - (a - ovl))%nat)
    by (apply substring_length; lia).
  assert (Hst' : stitch ovl (chunks ++ [piece]) = String.substring 0 b text).
  { rewrite stitch_snoc by assumption. rewrite Hst. unfold dropOverlap.
    rewrite Hlen. unfold piece. rewrite substring_substring by lia.
    replace (a - ovl + ovl)%nat with a by lia.
    replace (b - (a - ovl) - ovl)%nat with (b - a)%nat by lia.
    rewrite substring_split by lia. f_equal. lia. }
  assert (Hall' : Forall (fun c => Z.of_nat (String.length c) <= size)
                    (chunks ++ [piece])).
  { apply Forall_app. split; [exact Hall|]. constructor; [|constructor]. lia. }
  destruct (Z.geb_spec (Z.of_nat b - Z.of_nat ovl)
              (Z.of_nat (String.length text) - Z.of_nat ovl)) as [Hend|Hmore].
  - eexists. split; [reflexivity|]. split; [|exact Hall'].
    rewrite Hst'. assert (b = String.length text) by lia. subst b.
    rewrite H0. apply substring_all.
  - apply IH; try assumption; try lia. now destruct chunks.
Qed.

(** X3. Fixed-size chunking with an overlap below the chunk size
    terminates (any fuel above the length of the text is enough), every
    chunk has at most [size] characters, and the text is the first chunk
    followed by every later chunk without its first [ovl] characters:
    consecutive chunks share exactly the overlap and nothing is lost. *)
Theorem fixed_size_chunking_overlap_covers
    (split : string -> string -> list string) (text : string) (size : Z)
    (ovl fuel : nat) (sep : option string) (cc : option (string -> list string)) :
  Z.of_nat ovl < size ->
  (String.length text < fuel)%nat ->
  exists chunks,
    chunkString split fuel text
      {| method := FixedSize; chunkSize := Some size;
         overlap := Some (Z.of_nat ovl);
         separator := sep; customChunker := cc |} = Some (Ok chunks)
    /\ stitch ovl chunks = text
    /\ Forall (fun c => Z.of_nat (String.length c) <= size) chunks.
Proof.
  intros Hovl Hfuel. unfold chunkString, fixedSizeChunking.
  cbn [method chunkSize overlap].
  assert (Hsz : orDefaultZ (Some size) 1000 = size)
    by (destruct size; simpl; lia || reflexivity).
  assert (Hov : orDefaultZ (Some (Z.of_nat ovl)) 0 = Z.of_nat ovl)
    by (destruct (Z.of_nat ovl); reflexivity).
  rewrite Hsz, Hov. destruct fuel as [|fuel]; [lia|].
  cbn [fixedSizeLoop].
  destruct (Z.ltb_spec 0 (Z.of_nat (String.length text))) as [Hpos|Hzero].
  - remember (Z.to_nat (Z.min (0 + size) (Z.of_nat (String.length text)))) as b eqn:Hbdef.
    assert (Hb : Z.min (0 + size) (Z.of_nat (String.length text)) = Z.of_nat b) by lia.
    rewrite Hb.
    change (JSString.slice text 0 (Z.of_nat b))
      with (JSString.slice text (Z.of_nat 0) (Z.of_nat b)).
    rewrite slice_in_range by lia. rewrite Nat.sub_0_r. cbn [app].
    assert (Hlen : String.length (String.substring 0 b text) = b)
      by (apply substring_length; lia).
    destruct (Z.geb_spec (Z.of_nat b - Z.of_nat ovl)
                (Z.of_nat (String.length text) - Z.of_nat ovl)) as [Hend|Hmore].
    + eexists. split; [reflexivity|]. split.
      * cbn [stitch List.map JSString.join fold_right]. rewrite append_empty_r.
        assert (b = String.length text) by lia. subst b. rewrite H. apply substring_all.
      * constructor; [lia | constructor].
    + destruct (fixedSizeLoop_overlap text size ovl fuel Hovl b
                  [String.substring 0 b text]) as (out & Hrun & Hout & Hall);
        try lia; try congruence.
      * cbn [stitch List.map JSString.join fold_right]. apply append_empty_r.
      * constructor; [lia | constructor].
      * rewrite Hrun. simpl. eauto.
  - eexists. split; [reflexivity|]. split; [|constructor].
    destruct text; [reflexivity | simpl in Hzero; lia].
Qed.

End OverlapCover.

(** The text ["hello world"] in chunks of five characters that overlap in
    two. *)
Lemma fixed_size_chunking_overlap_covers_witness :
  exists chunks,
    Chunker.chunkString (fun _ _ => []) 12 "hello world"
      {| Chunker.method := Chunker.FixedSize; Chunker.chunkSize := Some 5;
         Chunker.overlap := Some (Z.of_nat 2);
         Chunker.separator := None; Chunker.customChunker := None |} = Some (Ok chunks)
    /\ stitch 2 chunks = "hello world"
    /\ Forall (fun c => Z.of_nat (String.length c) <= 5) chunks.
Proof.
  apply (fixed_size_chunking_overlap_covers (fun _ _ => []) "hello world" 5 2 12
           None None); [lia | simpl; lia].
Defined.

Example fixedSizeChunking_overlap_hello :
  Chunker.fixedSizeChunking 12 "hello world" 5 2
  = Some ["hello"; "lo wo"; "world"].
Proof. reflexivity. Qed.

(* ================================================================== *)
(** * Sentence chunking *)

Section SemanticFacts.

Import Chunker.

(** No [.], [!] or [?] occurs in the string. *)
Fixpoint unterminated (s : string) : bool :=
  match s with
  | EmptyString => true
  | String c rest => (negb (isTerminator c) && unterminated rest)%bool
  end.

Lemma matchSentences_unterminated (tail : string) :
  unterminated tail = true ->
  forall mode, matchSentences mode tail = matchSentences mode EmptyString.
Proof.
  induction tail as [|c tail IH]; intros Hun mode; [reflexivity|].
  simpl in Hun. apply andb_true_iff in Hun as [Hc Htail].
  apply negb_true_iff in Hc. cbn [matchSentences]. rewrite Hc.
  destruct mode; rewrite (IH Htail); reflexivity.
Qed.

Lemma matchSentences_append (s tail : string) :
  unterminated tail = true ->
  forall mode, matchSentences mode (String.append s tail) = matchSentences mode s.
Proof.
  intros Hun. induction s as [|c s IH]; intros mode.
  - apply matchSentences_unterminated, Hun.
  - rewrite append_String. cbn [matchSentences].
    destruct mode, (isTerminator c); rewrite ?IH; reflexivity.
Qed.

(** X4. Text after the last sentence terminator is lost: when the text
    holds at least one sentence (a run of other characters followed by
    [.], [!] or [?]), appending characters without a terminator does not
    change the chunks of [semanticChunking]. *)
Theorem semantic_chunking_drops_unterminated_tail
    (text tail : string) (targetSize : Z) :
  matchSentences Skipping text <> [] ->
  unterminated tail = true ->
  semanticChunking (String.append text tail) targetSize
  = semanticChunking text targetSize.
Proof.
  intros Hsome Hun. unfold semanticChunking.
  rewrite (matchSentences_append text tail Hun).
  destruct (matchSentences Skipping text); [congruence | reflexivity].
Qed.

Lemma semantic_chunking_drops_unterminated_tail_witness :
  semanticChunking (String.append "Done. " "and then some") 100
  = semanticChunking "Done. " 100.
Proof.
  apply (semantic_chunking_drops_unterminated_tail "Done. " "and then some" 100);
    [discriminate | reflexivity].
Defined.

Example semanticChunking_loses_tail :
  semanticChunking "Done. and then some" 100 = ["Done."].
Proof. reflexivity. Qed.

(** *** Trimming *)

Lemma trimStart_shape (s : string) :
  trimStart s = EmptyString
  \/ exists c r, trimStart s = String c r /\ isWhite c = false.
Proof.
  induction s as [|c s IH]; [now left|]. cbn [trimStart].
  destruct (isWhite c) eqn:Hc; [exact IH|]. right. eauto.
Qed.

Lemma trimEnd_head (c : ascii) (r : string) :
  isWhite c = false -> exists r', trimEnd (String c r) = String c r'.
Proof.
  intros Hc. cbn [trimEnd]. rewrite Hc. destruct (trimEnd r); eauto.
Qed.

Lemma trimEnd_idempotent (s : string) : trimEnd (trimEnd s) = trimEnd s.
Proof.
  induction s as [|c s IH]; [reflexivity|]. cbn [trimEnd].
  destruct (trimEnd s) as [|d r] eqn:Hs.
  - destruct (isWhite c) eqn:Hc; [reflexivity|]. cbn [trimEnd]. now rewrite Hc.
  - change (trimEnd (String c (String d r))) with
      (match trimEnd (String d r) with
       | EmptyString => if isWhite c then EmptyString else String c EmptyString
       | rest' => String c rest'
       end).
    rewrite IH. reflexivity.
Qed.

Lemma trim_idempotent (s : string) : trim (trim s) = trim s.
Proof.
  unfold trim. destruct (trimStart_shape s) as [Hs | (c & r & Hs & Hc)]; rewrite Hs.
  - reflexivity.
  - destruct (trimEnd_head c r Hc) as (r' & Hr). 
    assert (Hfix : trimStart (trimEnd (String c r)) = trimEnd (String c r)).
    { rewrite Hr. cbn [trimStart]. now rewrite Hc. }
    rewrite Hfix. apply trimEnd_idempotent.
Qed.

Definition trimmed (s : string) : Prop := trim s = s.

Lemma semanticLoop_trimmed (sentences : list string) (targetSize : Z) :
  forall chunks cur,
    Forall trimmed chunks ->
    Forall trimmed (semanticLoop sentences targetSize chunks cur).1.
Proof.
  induction sentences as [|s rest IH]; intros chunks cur Hall; [exact Hall|].
  cbn [semanticLoop].
  destruct ((strlen cur + strlen s >? targetSize) && (strlen cur >? 0))%bool.
  - apply IH. apply Forall_app. split; [exact Hall|].
    constructor; [apply trim_idempotent | constructor].
  - apply IH, Hall.
Qed.

(** X5. Every chunk returned for a string by the sentence method or by
    the separator method carries no white space at either end (trimming
    it again changes nothing), whatever the host's [split] returns; the
    chunks of the separator method are moreover non-empty. *)
Theorem text_chunks_are_trimmed
    (split : string -> string -> list string) (fuel : nat) (text : string)
    (strategy : ChunkingStrategy) (chunks : list string) :
  method strategy = Semantic \/ method strategy = Structural ->
  chunkString split fuel text strategy = Some (Ok chunks) ->
  Forall trimmed chunks
  /\ (method strategy = Structural -> Forall (fun c => c <> EmptyString) chunks).
Proof.
  intros Hm Hrun. unfold chunkString in Hrun.
  destruct Hm as [Hm | Hm]; rewrite Hm in Hrun; injection Hrun as <-.
  - split; [|congruence]. unfold semanticChunking.
    set (sentences := match matchSentences Skipping text with
                      | [] => [text] | ms => ms end).
    pose proof (semanticLoop_trimmed sentences
                  (orDefaultZ (chunkSize strategy) 1000) [] EmptyString
                  (Forall_nil_2 _)) as Hloop.
    destruct (semanticLoop sentences _ [] EmptyString) as [cs cur].
    cbn [fst] in Hloop. destruct (strlen cur >? 0); [|exact Hloop].
    apply Forall_app. split; [exact Hloop|].
    constructor; [apply trim_idempotent | constructor].
  - unfold structuralChunking. split; [|intros _].
    + apply List.Forall_forall. intros c Hin.
      apply List.filter_In in Hin as [Hin _].
      apply List.in_map_iff in Hin as (y & <- & _). apply trim_idempotent.
    + apply List.Forall_forall. intros c Hin.
      apply List.filter_In in Hin as [_ Hlen]. intros ->. discriminate.
Qed.

End SemanticFacts.

Lemma text_chunks_are_trimmed_witness :
  Forall trimmed ["One. Two!"; "Three?"]
  /\ (Chunker.Semantic = Chunker.Structural ->
      Forall (fun c => c <> EmptyString) ["One. Two!"; "Three?"]).
Proof.
  apply (text_chunks_are_trimmed (fun _ _ => []) 0 "One. Two! Three? rest"
           {| Chunker.method := Chunker.Semantic; Chunker.chunkSize := Some 9;
              Chunker.overlap := None; Chunker.separator := None;
              Chunker.customChunker := None |});
    [left; reflexivity | reflexivity].
Defined.

(** A text of white space only comes back as one empty chunk from the
    sentence method. *)
Example semanticChunking_blank : Chunker.semanticChunking "   " 10 = [EmptyString].
Proof. reflexivity. Qed.

(* ================================================================== *)
(** * Chunking of code *)

Section CodeChunks.

Import Chunker DataChunker.

Lemma joinWith_cons (sep x : string) (xs : list string) :
  xs <> [] ->
  Js.joinWith sep (x :: xs) = String.append x (String.append sep (Js.joinWith sep xs)).
Proof. destruct xs; [congruence | reflexivity]. Qed.

Lemma joinWith_snoc (sep : string) (xs : list string) (y : string) :
  xs <> [] ->
  Js.joinWith sep (xs ++ [y])
  = String.append (Js.joinWith sep xs) (String.append sep y).
Proof.
  induction xs as [|x xs IH]; [congruence|]. intros _.
  destruct xs as [|x' xs].
  - reflexivity.
  - change ((x :: x' :: xs) ++ [y]) with (x :: ((x' :: xs) ++ [y])).
    rewrite joinWith_cons by (simpl; congruence).
    rewrite IH by congruence.
    rewrite (joinWith_cons sep x (x' :: xs)) by congruence.
    now rewrite !append_assoc.
Qed.

Lemma splitChar_nonempty (sep : ascii) (s : string) : splitChar sep s <> [].
Proof.
  induction s as [|c s IH]; simpl; [congruence|].
  destruct (Ascii.eqb c sep); [congruence|]. destruct (splitChar sep s); congruence.
Qed.

(** [s.split(c).join(c)] is [s]. *)
Lemma joinWith_splitChar (sep : ascii) (s : string) :
  Js.joinWith (String sep EmptyString) (splitChar sep s) = s.
Proof.
  induction s as [|c s IH]; [reflexivity|]. cbn [splitChar].
  pose proof (splitChar_nonempty sep s) as Hne.
  destruct (Ascii.eqb_spec c sep) as [-> | Hc].
  - rewrite joinWith_cons by assumption. rewrite IH. reflexivity.
  - destruct (splitChar sep s) as [|piece pieces]; [congruence|].
    destruct pieces as [|p ps].
    + cbn in IH |- *. now rewrite IH.
    + rewrite joinWith_cons in IH by congruence.
      rewrite joinWith_cons by congruence. rewrite append_String. now rewrite IH.
Qed.

(** What [chunkCode] returns from the state of its loop. *)
Definition emit (chunks cur : list string) : list string :=
  if (0 <? length cur)%nat then chunks ++ [Js.joinWith Js.nl cur] else chunks.

Lemma emit_nil (chunks : list string) : emit chunks [] = chunks.
Proof. reflexivity. Qed.

Lemma emit_cons (chunks : list string) (l : string) (cur : list string) :
  emit chunks (l :: cur) = chunks ++ [Js.joinWith Js.nl (l :: cur)].
Proof. reflexivity. Qed.

(** The loop invariant of [codeLoop]: chunks and current lines spell the
    lines read so far. *)
Lemma codeLoop_join (lines : list string) (maxSize : Z) :
  forall (done chunks cur : list string) (size : Z),
    Js.joinWith Js.nl (emit chunks cur) = Js.joinWith Js.nl done ->
    (emit chunks cur = [] <-> done = []) ->
    let '(chunks', cur') := codeLoop lines maxSize chunks cur size in
    Js.joinWith Js.nl (emit chunks' cur') = Js.joinWith Js.nl (done ++ lines).
Proof.
  induction lines as [|line rest IH]; intros done chunks cur size Hjoin Hemp.
  - cbn [codeLoop]. now rewrite app_nil_r.
  - cbn [codeLoop].
    replace (done ++ line :: rest) with ((done ++ [line]) ++ rest)
      by (now rewrite <- app_assoc).
    destruct cur as [|l cur].
    + (* nothing in the current chunk: the line opens it *)
      rewrite andb_false_r. cbn [app]. apply IH.
      * rewrite emit_nil in Hjoin, Hemp. rewrite emit_cons.
        destruct chunks as [|c cs].
        -- assert (done = []) as -> by now apply Hemp. reflexivity.
        -- assert (done <> []) by (intros Hd; apply Hemp in Hd; congruence).
           rewrite !joinWith_snoc by congruence. now rewrite Hjoin.
      * rewrite emit_cons. split; intros H; destruct chunks, done; discriminate.
    + assert (Hdone : done <> []).
      { intros Hd. apply Hemp in Hd. rewrite emit_cons in Hd.
        destruct chunks; discriminate. }
      rewrite emit_cons in Hjoin.
      cbn [length Nat.ltb Nat.leb]. rewrite andb_true_r.
      destruct (size + (strlen line + 1) >? maxSize).
      * apply IH.
        -- rewrite emit_cons.
           rewrite (joinWith_snoc Js.nl (chunks ++ _)) by now destruct chunks.
           rewrite (joinWith_snoc Js.nl done) by assumption.
           now rewrite Hjoin.
        -- rewrite emit_cons. split; intros H; [destruct chunks | destruct done]; discriminate.
      * apply IH.
        -- change ((l :: cur) ++ [line]) with (l :: (cur ++ [line])).
           rewrite emit_cons. change (l :: (cur ++ [line])) with ((l :: cur) ++ [line]).
           rewrite (joinWith_snoc Js.nl (l :: cur)) by congruence.
           rewrite (joinWith_snoc Js.nl done) by assumption.
           rewrite <- Hjoin. destruct chunks as [|c cs].
           ++ reflexivity.
           ++ rewrite !joinWith_snoc by congruence. now rewrite !append_assoc.
        -- change ((l :: cur) ++ [line]) with (l :: (cur ++ [line])).
           rewrite emit_cons. split; intros H; [destruct chunks | destruct done]; discriminate.
Qed.

(** The loop run from its initial state over the lines of [code]. *)
Lemma codeLoop_lines_joined (code : string) (size : Z) :
  let '(chunks, cur) := codeLoop (splitChar "010" code) size [] [] 0 in
  Js.joinWith Js.nl (emit chunks cur) = code.
Proof.
  pose proof (codeLoop_join (splitChar "010" code) size
                [] [] [] 0 eq_refl (conj (fun _ => eq_refl) (fun _ => eq_refl))) as H.
  destruct (codeLoop (splitChar "010" code) size [] [] 0) as [chunks cur].
  rewrite H. cbn [app]. apply (joinWith_splitChar "010").
Qed.

(** X6. [chunkCode] loses nothing: the chunks joined with line feeds are
    the code again, for every code, language and size limit (also a limit
    of zero or below). *)
Theorem chunkCode_round_trip (code language : string) (maxSize : option Z) :
  Js.joinWith Js.nl (chunkCode code language maxSize) = code.
Proof.
  unfold chunkCode.
  pose proof (codeLoop_lines_joined code (default 2000 maxSize)) as H.
  destruct (codeLoop (splitChar "010" code) (default 2000 maxSize) [] [] 0)
    as [chunks cur].
  exact H.
Qed.

End CodeChunks.

Section CodeChunkSizes.

Import Chunker DataChunker.

Lemma length_append (x y : string) :
  String.length (String.append x y) = (String.length x + String.length y)%nat.
Proof.
  induction x as [|c x IH]; [reflexivity|]. rewrite append_String. simpl. now rewrite IH.
Qed.

Variable all : list string.
Variable maxSize : Z.

(** A chunk within the limit, or one line of the code on its own. *)
Definition fits (c : string) : Prop := strlen c < maxSize \/ In c all.

(** The size counter of [codeLoop] is the length of the chunk being
    filled, plus one; a chunk of several lines is within the limit. *)
Definition counted (cur : list string) (size : Z) : Prop :=
  (cur = [] /\ size = 0)
  \/ (cur <> [] /\ size = strlen (Js.joinWith Js.nl cur) + 1
      /\ ((exists l, cur = [l] /\ In l all) \/ size <= maxSize)).

Lemma counted_fits (cur : list string) (size : Z) :
  cur <> [] -> counted cur size -> fits (Js.joinWith Js.nl cur).
Proof.
  intros Hne [[Hnil _] | (_ & Hsize & [(l & -> & Hin) | Hle])]; [congruence | |].
  - right. exact Hin.
  - left. lia.
Qed.

Lemma codeLoop_fits (lines : list string) :
  Forall (fun l => In l all) lines ->
  forall (chunks cur : list string) (size : Z),
    Forall fits chunks -> counted cur size ->
    let '(chunks', cur') := codeLoop lines maxSize chunks cur size in
    Forall fits (emit chunks' cur').
Proof.
  induction lines as [|line rest IH]; intros Hlines chunks cur size Hall Hcnt.
  - cbn [codeLoop]. unfold emit. destruct cur as [|l cur]; [exact Hall|].
    cbn [length Nat.ltb Nat.leb]. apply Forall_app. split; [exact Hall|].
    constructor; [|constructor]. now apply (counted_fits _ size).
  - apply Forall_cons in Hlines as [Hline Hrest]. cbn [codeLoop].
    assert (Hone : counted [line] (strlen line + 1)).
    { right. split; [congruence|]. split; [reflexivity|]. left. eauto. }
    destruct cur as [|l cur].
    + rewrite andb_false_r. cbn [app].
      destruct Hcnt as [[_ ->] | [Hne _]]; [|congruence]. now apply IH.
    + cbn [length Nat.ltb Nat.leb]. rewrite andb_true_r.
      destruct (Z.gtb_spec (size + (strlen line + 1)) maxSize) as [Hgt | Hle].
      * apply IH; [exact Hrest | | exact Hone].
        apply Forall_app. split; [exact Hall|]. constructor; [|constructor].
        now apply (counted_fits _ size).
      * apply IH; [exact Hrest | exact Hall |].
        destruct Hcnt as [[Hnil _] | (_ & Hsize & _)]; [congruence|].
        right. split; [now destruct cur|]. split; [|right; exact Hle].
        rewrite (joinWith_snoc Js.nl (l :: cur)) by congruence.
        unfold strlen in *. rewrite !length_append. cbn [Js.nl String.length]. lia.
Qed.

End CodeChunkSizes.

Section CodeChunkFacts.

Import Chunker DataChunker.

(** X7. Every chunk of [chunkCode] is shorter than the size limit, or is
    one line of the code on its own (a line is never cut, so a line as
    long as the limit or longer makes a chunk above it). *)
Theorem chunkCode_chunk_sizes (code language : string) (maxSize : option Z) :
  Forall (fun c => strlen c < default 2000 maxSize \/ In c (splitChar "010" code))
    (chunkCode code language maxSize).
Proof.
  unfold chunkCode.
  pose proof (codeLoop_fits (splitChar "010" code) (default 2000 maxSize)
                (splitChar "010" code)) as H.
  specialize (H ltac:(now apply List.Forall_forall) [] [] 0 (Forall_nil_2 _)
                (or_introl (conj eq_refl eq_refl))).
  destruct (codeLoop (splitChar "010" code) (default 2000 maxSize) [] [] 0)
    as [chunks cur].
  exact H.
Qed.


End CodeChunkFacts.

Example chunkCode_three_lines :
  DataChunker.chunkCode (String.append "ab" (String.append Js.nl (String.append "cd" (String.append Js.nl "efgh")))) "ts" (Some 6)
  = [String.append "ab" (String.append Js.nl "cd"); "efgh"].
Proof. reflexivity. Qed.

(** A path without a dot is its own extension. *)
Example isCode_bare_name :
  DataChunker.isCode "py" = true /\ DataChunker.isCode "notes.txt" = false
  /\ DataChunker.isCode "src/main.rs" = true.
Proof. repeat split; reflexivity. Qed.

(* ================================================================== *)
(** * Extraction of the JSON text from a response *)

Section ExtractJSONFacts.

Import Validation.

(** The character [c] does not occur in [s]. *)
Fixpoint lacks (c : ascii) (s : string) : bool :=
  match s with
  | EmptyString => true
  | String d rest => (negb (Ascii.eqb d c) && lacks c rest)%bool
  end.

(** [r] is a piece of [text] that opens with [{] and closes with [}]. *)
Definition bracedPieceOf (text r : string) : Prop :=
  exists pre body post,
    r = String "{" (String.append body "}")
    /\ text = String.append pre (String.append r post).

Lemma append_empty_l (s : string) : String.append EmptyString s = s.
Proof. reflexivity. Qed.

(** Right-nested appends with the characters in front. *)
Ltac string_norm := repeat (rewrite append_assoc || rewrite append_String).

Lemma stripPrefix_Some (p s r : string) :
  Js.stripPrefix p s = Some r -> s = String.append p r.
Proof.
  revert s. induction p as [|a p IH]; intros s H; simpl in H.
  - now injection H as ->.
  - destruct s as [|b s]; [discriminate|].
    destruct (Ascii.eqb_spec a b) as [-> | _]; [|discriminate].
    rewrite append_String. f_equal. now apply IH.
Qed.

Lemma skipSpace_suffix (s : string) :
  exists ws, s = String.append ws (skipSpace s).
Proof.
  induction s as [|c s (ws & IH)]; [now exists EmptyString|].
  cbn [skipSpace]. destruct (isSpace c).
  - exists (String c ws). rewrite append_String. now rewrite <- IH.
  - now exists EmptyString.
Qed.

Lemma lazyBody_Some (s b : string) :
  lazyBody s = Some b ->
  exists b0 post, b = String.append b0 "}" /\ s = String.append b post.
Proof.
  revert b. induction s as [|c s IH]; intros b H; [discriminate|].
  cbn [lazyBody] in H.
  destruct (Ascii.eqb_spec c "}") as [-> | Hc]; cbn [andb] in H.
  - destruct (closesFence s).
    + injection H as <-. exists EmptyString, s. split; reflexivity.
    + destruct (lazyBody s) as [b'|]; [|discriminate]. injection H as <-.
      destruct (IH b' eq_refl) as (b0 & post & -> & Hs).
      exists (String "}" b0), post. rewrite !append_String. split; [reflexivity|].
      now rewrite <- Hs.
  - destruct (lazyBody s) as [b'|]; [|discriminate]. injection H as <-.
    destruct (IH b' eq_refl) as (b0 & post & -> & Hs).
    exists (String c b0), post. rewrite !append_String. split; [reflexivity|].
    now rewrite <- Hs.
Qed.

Lemma fencedAt_Some (s g : string) : fencedAt s = Some g -> bracedPieceOf s g.
Proof.
  unfold fencedAt. destruct (Js.stripPrefix fence s) as [afterFence|] eqn:Hf;
    [|discriminate].
  apply stripPrefix_Some in Hf.
  set (afterTag := match Js.stripPrefix "json" afterFence with
                   | Some r => r | None => afterFence end).
  assert (Htag : exists tag, afterFence = String.append tag afterTag).
  { unfold afterTag. destruct (Js.stripPrefix "json" afterFence) eqn:Hj.
    - apply stripPrefix_Some in Hj. eauto.
    - now exists EmptyString. }
  destruct Htag as (tag & Htag). destruct (skipSpace_suffix afterTag) as (ws & Hws).
  destruct (skipSpace afterTag) as [|c body]; [discriminate|].
  destruct (Ascii.eqb_spec c "{") as [-> | Hc].
  - intros H. destruct (lazyBody body) as [b|] eqn:Hb; [|discriminate].
    injection H as <-. destruct (lazyBody_Some _ _ Hb) as (b0 & post & -> & Hbody).
    exists (String.append fence (String.append tag ws)), b0, post.
    split; [reflexivity|]. rewrite Hf, Htag, Hws, Hbody.
    string_norm. reflexivity.
  - intros H. exfalso. revert H.
    destruct c as [[] [] [] [] [] [] [] []]; try discriminate. now elim Hc.
Qed.

Lemma bracedPieceOf_skip (c : ascii) (s r : string) :
  bracedPieceOf s r -> bracedPieceOf (String c s) r.
Proof.
  intros (pre & body & post & Hr & Hs). exists (String c pre), body, post.
  split; [exact Hr|]. rewrite append_String. now rewrite <- Hs.
Qed.

Lemma firstFenced_Some (s g : string) : firstFenced s = Some g -> bracedPieceOf s g.
Proof.
  induction s as [|c s IH]; cbn [firstFenced].
  - destruct (fencedAt EmptyString) eqn:Hf; [|discriminate].
    intros H. injection H as <-. now apply fencedAt_Some.
  - destruct (fencedAt (String c s)) eqn:Hf.
    + intros H. injection H as <-. now apply fencedAt_Some.
    + intros H. apply bracedPieceOf_skip. now apply IH.
Qed.

Lemma upToLastBrace_Some (s r : string) :
  upToLastBrace s = Some r ->
  exists body post,
    r = String.append body "}" /\ s = String.append r post /\ lacks "}" post = true.
Proof.
  revert r. induction s as [|c s IH]; intros r H; [discriminate|].
  cbn [upToLastBrace] in H. destruct (upToLastBrace s) as [r'|] eqn:Hs.
  - injection H as <-. destruct (IH r' eq_refl) as (body & post & -> & Hs' & Hpost).
    exists (String c body), post. rewrite !append_String.
    split; [reflexivity|]. split; [now rewrite <- Hs' | exact Hpost].
  - destruct (Ascii.eqb_spec c "}") as [-> | Hc]; [|discriminate].
    injection H as <-. exists EmptyString, s. split; [reflexivity|].
    split; [reflexivity|]. clear IH. induction s as [|d s IHs]; [reflexivity|].
    cbn [upToLastBrace] in Hs. destruct (upToLastBrace s); [discriminate|].
    destruct (Ascii.eqb_spec d "}") as [-> | Hd]; [discriminate|].
    cbn [lacks]. rewrite IHs by reflexivity.
    destruct (Ascii.eqb_spec d "}"); [contradiction | reflexivity].
Qed.

Lemma greedyObject_Some (s r : string) : greedyObject s = Some r -> bracedPieceOf s r.
Proof.
  induction s as [|c s IH]; [discriminate|]. cbn [greedyObject].
  destruct (Ascii.eqb_spec c "{") as [-> | Hc].
  - destruct (upToLastBrace s) as [r'|] eqn:Hs; [|discriminate].
    intros H. injection H as <-.
    destruct (upToLastBrace_Some _ _ Hs) as (body & post & -> & Hs' & _).
    exists EmptyString, body, post. split; [reflexivity|].
    rewrite append_empty_l, append_String. now rewrite <- Hs'.
  - intros H. apply bracedPieceOf_skip. now apply IH.
Qed.

Lemma extractJSON_piece (text r : string) :
  extractJSON text = Some r -> bracedPieceOf text r.
Proof.
  unfold extractJSON. destruct (firstFenced text) as [g|] eqn:Hf.
  - intros H. injection H as <-. now apply firstFenced_Some.
  - apply greedyObject_Some.
Qed.

(** X9. Whatever [extractJSON] returns is a piece of the response text
    that opens with [{] and closes with [}]: nothing is invented, and
    the fence and the language tag of a code block are left out. *)
Theorem extractJSON_returns_braced_piece (text r : string) :
  extractJSON text = Some r ->
  exists pre body post,
    r = String "{" (String.append body "}")
    /\ text = String.append pre (String.append r post).
Proof.
  unfold extractJSON. destruct (firstFenced text) as [g|] eqn:Hf; intros H.
  - injection H as <-. apply firstFenced_Some in Hf. exact Hf.
  - apply greedyObject_Some in H. exact H.
Qed.

Lemma upToLastBrace_found (x y : string) :
  upToLastBrace (String.append x (String "}" y)) <> None.
Proof.
  induction x as [|c x IH].
  - rewrite append_empty_l. cbn [upToLastBrace].
    destruct (upToLastBrace y); [discriminate | rewrite Ascii.eqb_refl; discriminate].
  - rewrite append_String. cbn [upToLastBrace].
    destruct (upToLastBrace (String.append x (String "}" y))); [discriminate | congruence].
Qed.

Lemma greedyObject_found (pre mid post : string) :
  greedyObject (String.append pre (String "{" (String.append mid (String "}" post))))
  <> None.
Proof.
  induction pre as [|c pre IH].
  - rewrite append_empty_l. cbn [greedyObject Ascii.eqb Bool.eqb].
    pose proof (upToLastBrace_found mid post).
    destruct (upToLastBrace _); [discriminate | congruence].
  - rewrite append_String. cbn [greedyObject].
    destruct (Ascii.eqb c "{"); [|exact IH].
    pose proof (upToLastBrace_found (String.append pre (String "{" mid)) post) as H.
    rewrite append_assoc, append_String in H.
    destruct (upToLastBrace _); [discriminate | congruence].
Qed.

(** X10. [extractJSON] returns [null] exactly for the texts in which no
    [{] is followed, somewhere later, by a [}]. *)
Theorem extractJSON_null_iff (text : string) :
  extractJSON text = None
  <-> (forall pre mid post,
         text <> String.append pre (String "{" (String.append mid (String "}" post)))).
Proof.
  split.
  - intros Hnone pre mid post ->. unfold extractJSON in Hnone.
    destruct (firstFenced _); [discriminate|].
    now apply (greedyObject_found pre mid post).
  - intros Hno. destruct (extractJSON text) as [r|] eqn:Hr; [|reflexivity].
    apply extractJSON_piece in Hr as (pre & body & post & -> & Htext).
    exfalso. apply (Hno pre body post). rewrite Htext.
    rewrite !append_String. f_equal. f_equal. rewrite append_assoc. reflexivity.
Qed.

Lemma fencedAt_backquote (s : string) :
  lacks "`" s = true -> fencedAt s = None.
Proof.
  unfold fencedAt. change fence with "```".
  destruct s as [|c s]; [reflexivity|]. cbn [lacks].
  intros H. apply andb_true_iff in H as [Hc _]. apply negb_true_iff in Hc.
  cbn [Js.stripPrefix]. rewrite Ascii.eqb_sym, Hc. reflexivity.
Qed.

Lemma firstFenced_backquote (s : string) :
  lacks "`" s = true -> firstFenced s = None.
Proof.
  induction s as [|c s IH]; intros H.
  - reflexivity.
  - cbn [firstFenced]. rewrite (fencedAt_backquote _ H).
    cbn [lacks] in H. apply andb_true_iff in H as [_ H]. now apply IH.
Qed.

Lemma upToLastBrace_lacks (s : string) :
  lacks "}" s = true -> upToLastBrace s = None.
Proof.
  induction s as [|c s IH]; [reflexivity|]. cbn [lacks upToLastBrace].
  intros H. apply andb_true_iff in H as [Hc H]. rewrite (IH H).
  apply negb_true_iff in Hc. now rewrite Hc.
Qed.

Lemma upToLastBrace_last (mid post : string) :
  lacks "}" post = true ->
  upToLastBrace (String.append mid (String "}" post)) = Some (String.append mid "}").
Proof.
  intros Hpost. induction mid as [|c mid IH].
  - rewrite append_empty_l. cbn [upToLastBrace]. rewrite (upToLastBrace_lacks _ Hpost).
    now rewrite Ascii.eqb_refl.
  - rewrite !append_String. cbn [upToLastBrace]. now rewrite IH.
Qed.

Lemma lacks_append (c : ascii) (x y : string) :
  lacks c (String.append x y) = (lacks c x && lacks c y)%bool.
Proof.
  induction x as [|d x IH]; [reflexivity|]. rewrite append_String. cbn [lacks].
  rewrite IH. now rewrite andb_assoc.
Qed.

(** X11. In a response without a backquote (so without a code block)
    [extractJSON] returns the text from the first [{] to the last [}]
    after it, with everything between them, balanced or not. *)
Theorem extractJSON_plain_first_to_last (pre mid post : string) :
  lacks "`" (String.append pre (String "{" (String.append mid (String "}" post)))) = true ->
  lacks "{" pre = true ->
  lacks "}" post = true ->
  extractJSON (String.append pre (String "{" (String.append mid (String "}" post))))
  = Some (String "{" (String.append mid "}")).
Proof.
  intros Hbq Hpre Hpost. unfold extractJSON. rewrite (firstFenced_backquote _ Hbq).
  clear Hbq. induction pre as [|c pre IH].
  - rewrite append_empty_l. cbn [greedyObject Ascii.eqb Bool.eqb].
    now rewrite (upToLastBrace_last mid post Hpost).
  - rewrite append_String. cbn [greedyObject]. cbn [lacks] in Hpre.
    apply andb_true_iff in Hpre as [Hc Hpre]. apply negb_true_iff in Hc.
    rewrite Hc. now apply IH.
Qed.

End ExtractJSONFacts.

Lemma extractJSON_returns_braced_piece_witness :
  exists pre body post,
    "{a}" = String "{" (String.append body "}")
    /\ "see {a} and b" = String.append pre (String.append "{a}" post).
Proof.
  apply (extractJSON_returns_braced_piece "see {a} and b" "{a}"). reflexivity.
Defined.

Lemma extractJSON_plain_first_to_last_witness :
  Validation.extractJSON
    (String.append "x" (String "{" (String.append "a} {b" (String "}" " y"))))
  = Some (String "{" (String.append "a} {b" "}")).
Proof.
  apply (extractJSON_plain_first_to_last "x" "a} {b" " y"); reflexivity.
Defined.

(* ================================================================== *)
(** * Plans built by the planner *)

Section PlannerPlans.

Import Planner.

(** The identifier the planner gives the task at position [k]. *)
Definition taskId (k : nat) : string := Js.cat ["task-"; Js.natToString k].

Lemma natToString_inj (n m : nat) : Js.natToString n = Js.natToString m -> n = m.
Proof.
  unfold Js.natToString. intros H.
  apply (f_equal NilEmpty.uint_of_string) in H. rewrite !NilEmpty.usu in H.
  injection H as H. apply (f_equal Nat.of_uint) in H.
  now rewrite !DecimalNat.Unsigned.of_to in H.
Qed.

Lemma taskId_inj (n m : nat) : taskId n = taskId m -> n = m.
Proof.
  unfold taskId, Js.cat. cbn [String.concat]. rewrite !append_String, !append_empty_l.
  intros H. injection H as H. now apply natToString_inj.
Qed.

Lemma NoDup_taskIds (n : nat) : NoDup (taskId <$> seq 0 n).
Proof.
  apply NoDup_fmap_2; [|apply NoDup_seq]. intros a b. apply taskId_inj.
Qed.

(** What [planTask] and [replan] promise of a list of tasks: the task at
    position [k] is called [task-k] and waits. *)
Definition freshTasks (l : list Task) : Prop :=
  ids l = taskId <$> seq 0 (List.length l)
  /\ Forall (fun t => status t = Pending /\ result t = None /\ error t = None) l.

Lemma parsePlanResponse_fresh (env : Env) (response : string) (tools : list string)
    (l : list Task) :
  parsePlanResponse env response tools = Ok l -> freshTasks l.
Proof.
  unfold parsePlanResponse. destruct (Validation.extractJSON response); [|discriminate].
  destruct (Validation.safeJSONParse _ _ _) as [planData|]; [|discriminate].
  destruct (Js.get planData "tasks") as [[| | | |defs|]|]; try discriminate.
  intros H. injection H as <-. split.
  - unfold ids. rewrite fmap_imap, length_imap.
    rewrite <- (imap_seq_0 defs taskId). apply imap_ext. reflexivity.
  - apply Forall_forall. intros t Ht.
    apply elem_of_lookup_imap_1 in Ht as (i & d & -> & _). now cbn.
Qed.

Lemma fallback_fresh (env : Env) (request : string) :
  freshTasks (tasks (createFallbackPlan env request)).
Proof. split; [reflexivity|]. cbn. constructor; [now cbn | constructor]. Qed.

Lemma planTask_fresh (env : Env) (request : string) (context : PlanningContext) :
  freshTasks (tasks (planTask env request context))
  /\ totalTasks (planTask env request context)
     = List.length (tasks (planTask env request context)).
Proof.
  unfold planTask.
  destruct (rbind _ _) as [l|msg] eqn:Hr; [|split; [apply fallback_fresh | reflexivity]].
  split; [|reflexivity]. cbn [tasks]. unfold rbind in Hr.
  destruct (callLLM env _) as [response|]; [|discriminate].
  now apply parsePlanResponse_fresh in Hr.
Qed.

(** X12. Every plan [planTask] returns, whatever the backend answers, is
    well formed: its tasks are called [task-0], [task-1], ... in order,
    so the identifiers are distinct; every task is pending without
    result or error; and [totalTasks] is the number of tasks. *)
Theorem planTask_plan_is_well_formed
    (env : Env) (request : string) (context : PlanningContext) :
  let plan := planTask env request context in
  ids (tasks plan) = taskId <$> seq 0 (totalTasks plan)
  /\ NoDup (ids (tasks plan))
  /\ Forall (fun t => status t = Pending /\ result t = None /\ error t = None)
       (tasks plan)
  /\ completedTasks plan = 0%nat.
Proof.
  intros plan. destruct (planTask_fresh env request context) as [[Hids Hall] Htotal].
  fold plan in Hids, Hall, Htotal. split; [now rewrite Htotal|].
  split; [rewrite Hids; apply NoDup_taskIds|]. split; [exact Hall|].
  unfold plan, planTask. now destruct (rbind _ _).
Qed.

(** X13. The tasks [replan] returns are numbered from [task-0] again:
    whenever the original plan comes from [planTask], the replacement
    task at a position the plan also has carries the identifier of the
    plan's task at that position. Identifiers of replanned tasks are not
    fresh with respect to the plan. *)
Theorem replan_reuses_identifiers
    (env env' : Env) (request : string) (context : PlanningContext)
    (failedTask : Task) (error : string) (k : nat) (t : Task) :
  replan env' (planTask env request context) failedTask error !! k = Some t ->
  (k < totalTasks (planTask env request context))%nat ->
  exists t0, tasks (planTask env request context) !! k = Some t0 /\ id t0 = id t.
Proof.
  intros Hk Hlt. destruct (planTask_fresh env request context) as [[Hids _] Htotal].
  set (plan := planTask env request context) in *.
  assert (Hnew : freshTasks (replan env' plan failedTask error)).
  { unfold replan. destruct (rbind _ _) as [l|msg] eqn:Hr; [|split; [reflexivity|constructor]].
    unfold rbind in Hr. destruct (callLLM env' _) as [response|]; [|discriminate].
    now apply parsePlanResponse_fresh in Hr. }
  destruct Hnew as [Hnew _].
  assert (Hid : id t = taskId k).
  { assert (H : ids (replan env' plan failedTask error) !! k = Some (id t))
      by (unfold ids; now rewrite list_lookup_fmap, Hk).
    rewrite Hnew, list_lookup_fmap in H.
    apply lookup_lt_Some in Hk. rewrite lookup_seq_lt in H by exact Hk.
    cbn [fmap option_fmap option_map] in H. rewrite Nat.add_0_l in H.
    now injection H. }
  rewrite Htotal in Hlt. destruct (lookup_lt_is_Some_2 _ _ Hlt) as [t0 Ht0].
  exists t0. split; [exact Ht0|].
  assert (H : ids (tasks plan) !! k = Some (id t0))
    by (unfold ids; now rewrite list_lookup_fmap, Ht0).
  rewrite Hids, list_lookup_fmap, lookup_seq_lt in H by exact Hlt.
  cbn [fmap option_fmap option_map] in H. rewrite Nat.add_0_l in H.
  injection H as H. congruence.
Qed.

End PlannerPlans.

(** A backend whose every answer parses to a plan of one task. *)
Definition oneTaskEnv : Planner.Env :=
  {| Planner.callLLM := fun _ => Ok "{}";
     Planner.jsonParse :=
       fun _ => Some (JObj [("tasks", JArr [JObj [("description", JStr "try again")]])]);
     Planner.nanoid := "plan-1";
     Planner.dateNow := 0 |}.

Lemma replan_reuses_identifiers_witness :
  exists t0,
    tasks (Planner.planTask oneTaskEnv "Summarise the report"
             {| conversationHistory := []; availableTools := [] |}) !! 0%nat = Some t0
    /\ id t0 = "task-0".
Proof.
  apply (replan_reuses_identifiers oneTaskEnv oneTaskEnv "Summarise the report"
           {| conversationHistory := []; availableTools := [] |}
           (mkTask "task-0" None []) "boom" 0
           (Planner.toTask 0 (JObj [("description", JStr "try again")])));
    [reflexivity | vm_compute; lia].
Defined.

Example replan_fails_empty :
  Planner.replan refusingEnv (mkPlan [] Sequential) (mkTask "task-0" None []) "boom" = [].
Proof. reflexivity. Qed.

(* ================================================================== *)
(** * Plans that are already in order *)

Section SortedPlans.

Import Planner.

Lemma visitDeps_all_visited (fuel : nat) (ts : list Task) (deps : list string)
    (st : SortState) :
  (1 <= fuel)%nat ->
  (forall d u, d ∈ deps -> findTask ts d = Some u -> id u ∈ visited st) ->
  visitDeps (visit fuel ts) ts deps st = Some (Ok st).
Proof.
  intros Hfuel. induction deps as [|d rest IH]; intros Hall; [reflexivity|].
  cbn [visitDeps]. destruct (findTask ts d) as [u|] eqn:Hu.
  - destruct fuel as [|fuel']; [lia|]. cbn [visit].
    destruct (decide (id u ∈ visited st)) as [_|Hno].
    + apply IH. intros d' u' Hd'. apply Hall. now right.
    + exfalso. apply Hno. apply (Hall d u); [now left | exact Hu].
  - apply IH. intros d' u' Hd'. apply Hall. now right.
Qed.

Lemma idSet_snoc (done : list Task) (x : Task) :
  idSet (done ++ [x]) = {[id x]} ∪ idSet done.
Proof.
  unfold idSet, ids. rewrite fmap_app, list_to_set_app_L. cbn. set_solver.
Qed.

(** On a list that is in order the sort visits every task with its
    dependencies already visited, and appends it. *)
Lemma visitAll_ordered (fuel : nat) (ts : list Task) :
  (2 <= fuel)%nat -> NoDup (ids ts) -> ordered ts ts ->
  forall (todo done : list Task) (st : SortState),
    ts = done ++ todo -> sorted st = done -> visited st = idSet done ->
    visiting st = ∅ ->
    exists st', visitAll fuel ts todo st = Some (Ok st') /\ sorted st' = ts.
Proof.
  intros Hfuel Hnd Hord. induction todo as [|x rest IH]; intros done st Hts Hs Hv Hg.
  - exists st. split; [reflexivity|]. now rewrite Hs, Hts, app_nil_r.
  - cbn [visitAll]. destruct fuel as [|fuel']; [lia|]. cbn [visit].
    assert (Hx : ts !! List.length done = Some x)
      by (rewrite Hts; apply list_lookup_middle; reflexivity).
    assert (Hfresh : id x ∉ idSet done).
    { unfold idSet. rewrite elem_of_list_to_set. intros Hin.
      unfold ids in Hnd. rewrite Hts, fmap_app in Hnd.
      apply NoDup_app in Hnd as (_ & Hdis & _). apply (Hdis _ Hin). cbn. now left. }
    destruct (decide (id x ∈ visited st)) as [Hin|_]; [now rewrite Hv in Hin|].
    destruct (decide (id x ∈ visiting st)) as [Hin|_]; [rewrite Hg in Hin; set_solver|].
    rewrite visitDeps_all_visited; [|lia|].
    + apply (IH (done ++ [x])); cbn.
      * now rewrite <- app_assoc.
      * now rewrite Hs.
      * now rewrite Hv, idSet_snoc.
      * rewrite Hg. set_solver.
    + cbn. intros d u Hd Hu. rewrite Hv.
      destruct (findTask_Some ts d u Hu) as [Hin Hid].
      destruct (Hord _ x d Hx Hd) as (j & Hj & Hdj).
      { rewrite <- Hid. now apply id_in_ids. }
      unfold idSet. rewrite elem_of_list_to_set, Hid.
      unfold ids in Hdj. rewrite Hts, fmap_app, lookup_app_l in Hdj
        by (now rewrite length_fmap).
      apply list_elem_of_lookup. eauto.
Qed.

Lemma topologicalSort_ordered (fuel : nat) (ts : list Task) :
  ts = [] \/ (2 <= fuel)%nat -> NoDup (ids ts) -> ordered ts ts ->
  topologicalSort fuel ts = Some (Ok ts).
Proof.
  intros [-> | Hfuel] Hnd Hord; [reflexivity|]. unfold topologicalSort.
  destruct (visitAll_ordered fuel ts Hfuel Hnd Hord ts []
              {| sorted := []; visited := ∅; visiting := ∅ |})
    as (st' & -> & Hs); try reflexivity.
  now rewrite Hs.
Qed.

(** X14. [optimizePlan] leaves a plan that is already in order as it
    is: when the identifiers are distinct and every dependency that
    names a task of the plan stands before the task that needs it, the
    tasks come back in the same order (a recursion depth of two is
    enough), and only the strategy is computed anew. *)
Theorem optimizePlan_keeps_ordered_plan (fuel : nat) (plan : TaskPlan) :
  (2 <= fuel)%nat ->
  NoDup (ids (tasks plan)) ->
  ordered (tasks plan) (tasks plan) ->
  exists plan',
    optimizePlan fuel plan = Some (Ok plan')
    /\ tasks plan' = tasks plan
    /\ strategy plan' = determinePlanStrategy (tasks plan)
    /\ totalTasks plan' = totalTasks plan.
Proof.
  intros Hfuel Hnd Hord. unfold optimizePlan.
  rewrite (topologicalSort_ordered fuel (tasks plan) (or_intror Hfuel) Hnd Hord).
  eexists. split; [reflexivity|]. repeat split.
Qed.

(** X15. [optimizePlan] is idempotent: optimising the plan it returned
    returns that plan again. *)
Theorem optimizePlan_is_idempotent (fuel : nat) (plan plan' : TaskPlan) :
  NoDup (ids (tasks plan)) ->
  (List.length (tasks plan) < fuel)%nat ->
  optimizePlan fuel plan = Some (Ok plan') ->
  optimizePlan fuel plan' = Some (Ok plan').
Proof.
  intros Hnd Hfuel. unfold optimizePlan at 1.
  pose proof (topologicalSort_spec (tasks plan) Hnd fuel Hfuel) as Hspec.
  destruct (topologicalSort fuel (tasks plan)) as [[l|msg]|]; try discriminate.
  destruct Hspec as (Hperm & Hnd' & Hord). intros H. injection H as <-.
  unfold optimizePlan. cbn [tasks].
  rewrite (topologicalSort_ordered fuel l); [reflexivity | | exact Hnd' |].
  - destruct l as [|x l]; [now left|]. right.
    apply Permutation_length in Hperm. cbn in Hperm. lia.
  - intros i x d Hi Hd Hin. apply (Hord i x d Hi Hd).
    assert (Hids : ids l ≡ₚ ids (tasks plan)) by (unfold ids; now rewrite Hperm).
    now rewrite <- Hids.
Qed.

End SortedPlans.

Lemma optimizePlan_keeps_ordered_plan_witness :
  exists plan',
    Planner.optimizePlan 2
      (mkPlan [mkTask "fetch" None []; mkTask "parse" None ["fetch"; "missing"]] Mixed)
    = Some (Ok plan')
    /\ tasks plan' = [mkTask "fetch" None []; mkTask "parse" None ["fetch"; "missing"]]
    /\ strategy plan' = Sequential
    /\ totalTasks plan' = 2%nat.
Proof.
  apply (optimizePlan_keeps_ordered_plan 2
           (mkPlan [mkTask "fetch" None []; mkTask "parse" None ["fetch"; "missing"]]
              Mixed)).
  - lia.
  - apply (bool_decide_unpack _). vm_compute. reflexivity.
  - intros i x d Hi Hd Hin.
    destruct i as [|[|i]]; cbn in Hi; inversion Hi; subst x; cbn in Hd.
    + inversion Hd.
    + exists 0%nat. split; [lia|]. cbn in Hin.
      apply elem_of_cons in Hd as [-> | Hd]; [reflexivity|].
      apply elem_of_cons in Hd as [-> | Hd]; [|inversion Hd].
      exfalso. apply elem_of_cons in Hin as [Hin | Hin]; [discriminate|].
      apply elem_of_cons in Hin as [Hin | Hin]; [discriminate | inversion Hin].
Defined.

Lemma optimizePlan_is_idempotent_witness :
  Planner.optimizePlan 4
    {| planId := "plan"; originalRequest := "request";
       tasks := [mkTask "fetch" (Some "read_file") [];
                 mkTask "parse" (Some "edit_file") ["fetch"];
                 mkTask "report" (Some "write_file") ["fetch"; "parse"]];
       strategy := Sequential; createdAt := 0; planStatus := Planning;
       completedTasks := 0; totalTasks := 3 |}
  = Some (Ok {| planId := "plan"; originalRequest := "request";
       tasks := [mkTask "fetch" (Some "read_file") [];
                 mkTask "parse" (Some "edit_file") ["fetch"];
                 mkTask "report" (Some "write_file") ["fetch"; "parse"]];
       strategy := Sequential; createdAt := 0; planStatus := Planning;
       completedTasks := 0; totalTasks := 3 |}).
Proof.
  apply (optimizePlan_is_idempotent 4 (mkPlan diamond Sequential)).
  - apply diamond_unique_ids.
  - vm_compute. lia.
  - vm_compute. reflexivity.
Defined.

(* ================================================================== *)
(** * The trajectory of an RLM execution *)

Section RLMTrajectoryFacts.

Import RLM.

(** X16. Whatever the strategy, the provider and the limits, the
    trajectory [execute] returns holds only calls at depth 0 or 1, each
    below the depth limit, and [totalCalls] is the number of calls
    recorded. The provider is called for recorded calls only, and with
    the map-reduce, sequential-processing and tree-traversal strategies
    for every one of them. The executor never goes deeper than one
    level below the root, so a depth limit of two or more is never
    reached. *)
Theorem rlm_trajectory_is_shallow (exec : Executor) (env : Env) (task : string)
    (vars : list (string * JSON)) (strategy : ProcessingStrategy) :
  exists traj,
    trajectory (execute exec env task vars strategy) = Some traj
    /\ Forall (fun c => (depth c <= 1)%nat /\ Z.of_nat (depth c) < maxRecursionDepth exec)
         (allCalls traj)
    /\ totalCalls traj = List.length (allCalls traj)
    /\ (backendCalls (executeRun exec env task vars strategy).2 <= totalCalls traj)%nat
    /\ (strategy <> RecursiveDecomposition ->
        backendCalls (executeRun exec env task vars strategy).2 = totalCalls traj)
    /\ (maxDepth traj = None \/ maxDepth traj = Some 0%nat \/ maxDepth traj = Some 1%nat).
Proof.
  destruct (executeRun_trajectory exec env task vars strategy)
    as (traj & Htraj & Hcalls & Htotal & Hback & _).
  pose proof (processWithStrategy_checked exec env false task (rootContext vars) strategy
                (startRun env) eq_refl ltac:(discriminate) (startRun_checked exec env false))
    as (_ & Hall & Hle & _).
  assert (Hshallow : Forall (fun c => (depth c <= 1)%nat
                                      /\ Z.of_nat (depth c) < maxRecursionDepth exec)
                       (calls (processWithStrategy exec env task (rootContext vars)
                                 strategy (startRun env)).2)).
  { eapply Forall_impl; [exact Hall|]. intros c (Hd & Hlimit & _). now split. }
  exists traj. split; [exact Htraj|]. rewrite Hcalls. split; [exact Hshallow|].
  split; [exact Htotal|]. split; [now rewrite Htotal, Hback|]. split.
  { intros Hstrategy.
    pose proof (processWithStrategy_checked exec env true task (rootContext vars) strategy
                  (startRun env) eq_refl
                  ltac:(intros _; split; [apply hold_allData | exact Hstrategy])
                  (startRun_checked exec env true)) as (_ & _ & _ & Heq).
    now rewrite Htotal, Hback, Heq. }
  assert (Hmax : maxDepth traj
                 = maxOf (List.map depth
                            (calls (processWithStrategy exec env task (rootContext vars)
                                      strategy (startRun env)).2))).
  { unfold execute, executeRun in Htraj.
    destruct (processWithStrategy exec env task (rootContext vars) strategy (startRun env))
      as [[r|e] run1]; cbn in Htraj; injection Htraj as <-; reflexivity. }
  rewrite Hmax. clear - Hshallow.
  destruct (calls _) as [|c cs]; [now left|]. right.
  apply Forall_cons in Hshallow as [[Hc _] Hcs]. cbn [List.map maxOf].
  assert (Hfold : forall d, (d <= 1)%nat ->
            (foldl Nat.max d (List.map depth cs) <= 1)%nat).
  { induction cs as [|c' cs IH]; intros d Hd; [exact Hd|].
    apply Forall_cons in Hcs as [[Hc' _] Hcs]. cbn. apply IH; [exact Hcs | lia]. }
  specialize (Hfold (depth c) Hc).
  destruct (foldl Nat.max (depth c) (List.map depth cs)) as [|[|n]]; [now left | now right | lia].
Qed.

End RLMTrajectoryFacts.

(* ================================================================== *)
(** * Helpers of the RLM executor *)

Section RLMHelpers.

Import RLM.

(** X17. [findLargestVariable] returns a variable of the context whose
    size is above 1000 and at least the size of every other variable; it
    returns [null] exactly when no variable is above 1000. *)
Theorem findLargestVariable_is_largest (env : Env) (vars : list (string * JSON)) :
  match findLargestVariable env vars with
  | Some (key, value) =>
      (key, value) ∈ vars
      /\ (1000 < getSize env value)%nat
      /\ forall key' value', (key', value') ∈ vars ->
           (getSize env value' <= getSize env value)%nat
  | None => forall key value, (key, value) ∈ vars -> (getSize env value <= 1000)%nat
  end.
Proof.
  unfold findLargestVariable.
  destruct (largestLoop_spec env vars None 0%nat) as (_ & Hall & Hwho).
  destruct (largestLoop env vars None 0%nat) as [largest size]. cbn [fst snd] in *.
  destruct (Nat.ltb_spec 1000 size) as [Hbig|Hsmall].
  - destruct Hwho as [[-> ->] | (k & v & -> & Hin & Hsize)]; [lia|].
    split; [exact Hin|]. split; [lia|]. intros k' v' Hin'. rewrite Hsize.
    now apply (Hall k').
  - intros k v Hin. specialize (Hall k v Hin). lia.
Qed.

End RLMHelpers.

(* ================================================================== *)
(** * One task and its retries *)

Section ExecuteTaskFacts.

Import Executor.

Variable exec : ParallelExecutor.
Variable invoke : nat -> Result JSON.
Variable clock : nat -> Z.

(** The task as its last attempt leaves it: the attempt started at the
    [j]-th clock reading, with [r] retries counted. *)
Definition lastAttempt (j r : nat) (t : Task) : Task :=
  {| id := id t; description := description t; status := InProgress; tool := tool t;
     args := args t; dependencies := dependencies t; result := result t;
     error := error t; startTime := Some (clock j); endTime := Some (clock (S j));
     retries := Some r |}.

Definition hasTool (t : Task) : bool :=
  match tool t with
  | Some (String _ _) => true
  | _ => false
  end.

(** The retry loop: from the [k]-th entry on, with [r] retries counted
    so far. *)
Lemma executeTask_loop (fuel : nat) :
  forall (k : nat) (u : Task),
    (maxRetries exec - orDefault (retries u) 0 < fuel)%nat ->
    exists out j,
      (k <= j)%nat
      /\ executeTask fuel exec invoke clock k u
         = Some (out, lastAttempt j (orDefault (retries u) 0 + (j - k)) u)
      /\ match out with
         | Ok _ =>
             hasTool u = true /\ out = invoke j
             /\ (orDefault (retries u) 0 + (j - k)
                 <= Nat.max (orDefault (retries u) 0) (maxRetries exec))%nat
         | Err e =>
             (if hasTool u then invoke j = Err e else e = "Task has no tool specified")
             /\ (orDefault (retries u) 0 + (j - k)
                 = Nat.max (orDefault (retries u) 0) (maxRetries exec))%nat
         end
      /\ (forall i, (k <= i < j)%nat ->
            if hasTool u then exists e, invoke i = Err e else True).
Proof.
  induction fuel as [|fuel IH]; intros k u Hfuel; [lia|].
  cbn [executeTask]. set (r := orDefault (retries u) 0).
  assert (Hr : retries (startTask (clock k) u) = Some r) by reflexivity.
  assert (Htool : tool (startTask (clock k) u) = tool u) by reflexivity.
  rewrite Htool, Hr. change (default 0%nat (Some r)) with r.
  assert (Hdone : setEndTime (clock (S k)) (startTask (clock k) u) = lastAttempt k (r + (k - k)) u).
  { unfold lastAttempt, setEndTime. cbn. now rewrite Nat.sub_diag, Nat.add_0_r. }
  set (attempt := match tool u with
                  | Some (String _ _) => invoke k
                  | _ => Err "Task has no tool specified"
                  end).
  assert (Hattempt : if hasTool u then attempt = invoke k
                     else attempt = Err "Task has no tool specified").
  { unfold attempt, hasTool. destruct (tool u) as [[|c s]|]; reflexivity. }
  destruct attempt as [v|e] eqn:Hout.
  - exists (Ok v), k. split; [lia|]. rewrite Hdone. split; [reflexivity|].
    split; [|intros i Hi; lia].
    destruct (hasTool u); [|discriminate]. split; [reflexivity|].
    split; [now rewrite <- Hattempt | lia].
  - destruct (Nat.ltb_spec r (maxRetries exec)) as [Hlt|Hge].
    + destruct (IH (S k) (bumpRetries (startTask (clock k) u))) as (out & j & Hj & Hrun & Hres & Hbefore).
      { cbn. fold r. lia. }
      assert (Hr' : orDefault (retries (bumpRetries (startTask (clock k) u))) 0 = S r)
        by reflexivity.
      rewrite Hr' in Hrun, Hres.
      assert (Htool' : hasTool (bumpRetries (startTask (clock k) u)) = hasTool u)
        by reflexivity.
      rewrite Htool' in Hres, Hbefore.
      exists out, j. split; [lia|]. split.
      * rewrite Hrun. replace (S r + (j - S k))%nat with (r + (j - k))%nat by lia.
        reflexivity.
      * replace (r + (j - k))%nat with (S r + (j - S k))%nat by lia.
        split.
        -- destruct out as [v|e']; [|destruct Hres as [H1 H2]; split; [exact H1 | lia]].
           destruct Hres as (H1 & H2 & H3). split; [exact H1|]. split; [exact H2 | lia].
        -- intros i Hi. destruct (decide (i = k)) as [->|Hne]; [|apply Hbefore; lia].
           destruct (hasTool u); [|exact I]. exists e. now rewrite <- Hattempt.
    + exists (Err e), k. split; [lia|]. rewrite Hdone. split; [reflexivity|].
      split; [|intros i Hi; lia]. split; [|lia].
      destruct (hasTool u); [now rewrite <- Hattempt | congruence].
Qed.

(** X18. [executeTask] ends after at most [maxRetries] retries, and how
    it ends is what the scheduler's model takes a settlement to be: the
    promise settles with the tool's result or with the last error, the
    retry budget decides when it gives up ([admissible]), and the task
    object, once the caller's [try]/[catch] has run, is the one the
    model computes from the settlement ([settleTask]). *)
Theorem executeTask_settles_admissibly (fuel : nat) (t : Task) :
  (maxRetries exec < fuel)%nat ->
  exists out t' used,
    executeTask fuel exec invoke clock 0 t = Some (out, t')
    /\ (used <= maxRetries exec)%nat
    /\ let s := {| outcome := out; retriesUsed := used;
                   lastStart := clock used; endedAt := clock (S used) |} in
       admissible exec (startTask (clock 0) t) s = true
       /\ concludeTask out t' = settleTask exec s (startTask (clock 0) t).
Proof.
  intros Hfuel.
  destruct (executeTask_loop fuel 0 t ltac:(lia)) as (out & j & _ & Hrun & Hres & _).
  rewrite Nat.sub_0_r in Hrun, Hres. set (r := orDefault (retries t) 0) in *.
  exists out, (lastAttempt j (r + j) t), j. split; [exact Hrun|].
  assert (Hj : (j <= maxRetries exec)%nat) by (destruct out; lia).
  split; [exact Hj|]. cbv zeta. split.
  - unfold admissible. cbn [outcome retriesUsed].
    change (retries (startTask (clock 0) t)) with (Some r).
    change (default 0%nat (Some r)) with r.
    change (tool (startTask (clock 0) t)) with (tool t).
    destruct out as [v|e].
    + destruct Hres as (Htool & _ & Hle). unfold hasTool in Htool.
      destruct (tool t) as [[|c s]|]; try discriminate. apply Nat.leb_le. exact Hle.
    + destruct Hres as [_ Heq]. apply Nat.eqb_eq. exact Heq.
  - unfold concludeTask, settleTask, lastAttempt. cbn [outcome retriesUsed lastStart endedAt].
    change (retries (startTask (clock 0) t)) with (Some r).
    change (default 0%nat (Some r)) with r.
    destruct out; reflexivity.
Qed.

(** X19. A task without a tool can never succeed, yet it is retried
    like any other: [executeTask] ends with the error 'Task has no tool
    specified' only after the whole retry budget is used up, without
    ever reaching the tool registry. *)
Theorem executeTask_without_tool (fuel : nat) (t : Task) :
  hasTool t = false ->
  (maxRetries exec < fuel)%nat ->
  exists t',
    executeTask fuel exec invoke clock 0 t
    = Some (Err "Task has no tool specified", t')
    /\ retries t' = Some (Nat.max (orDefault (retries t) 0) (maxRetries exec))
    /\ startTime t'
       = Some (clock (Nat.max (orDefault (retries t) 0) (maxRetries exec)
                      - orDefault (retries t) 0)).
Proof.
  intros Htool Hfuel.
  destruct (executeTask_loop fuel 0 t ltac:(lia)) as (out & j & _ & Hrun & Hres & _).
  rewrite Nat.sub_0_r in Hrun, Hres. rewrite Htool in Hres.
  destruct out as [v|e]; [destruct Hres as [H _]; discriminate|].
  destruct Hres as [-> Heq]. eexists. split; [exact Hrun|].
  cbn [lastAttempt retries startTime]. split; [now rewrite Heq|].
  f_equal. f_equal. lia.
Qed.

End ExecuteTaskFacts.

Lemma executeTask_settles_admissibly_witness :
  exists out t' used,
    Executor.executeTask 3 defaultExecutor
      (fun k => if (k <? 1)%nat then Err "busy" else Ok (JStr "done")) Z.of_nat 0
      (mkTask "fetch" (Some "read_file") []) = Some (out, t')
    /\ (used <= 2)%nat
    /\ let s := {| Executor.outcome := out; Executor.retriesUsed := used;
                   Executor.lastStart := Z.of_nat used;
                   Executor.endedAt := Z.of_nat (S used) |} in
       Executor.admissible defaultExecutor
         (Executor.startTask (Z.of_nat 0) (mkTask "fetch" (Some "read_file") [])) s = true
       /\ Executor.concludeTask out t'
          = Executor.settleTask defaultExecutor s
              (Executor.startTask (Z.of_nat 0) (mkTask "fetch" (Some "read_file") [])).
Proof.
  apply (executeTask_settles_admissibly defaultExecutor
           (fun k => if (k <? 1)%nat then Err "busy" else Ok (JStr "done")) Z.of_nat 3
           (mkTask "fetch" (Some "read_file") [])).
  vm_compute. lia.
Defined.

Lemma executeTask_without_tool_witness :
  exists t',
    Executor.executeTask 3 defaultExecutor (fun _ => Ok JNull) Z.of_nat 0
      (mkTask "fetch" None [])
    = Some (Err "Task has no tool specified", t')
    /\ retries t' = Some 2%nat
    /\ startTime t' = Some 2.
Proof.
  apply (executeTask_without_tool defaultExecutor (fun _ => Ok JNull) Z.of_nat 3
           (mkTask "fetch" None [])); [reflexivity | vm_compute; lia].
Defined.

Example executeTask_second_attempt :
  fst <$> Executor.executeTask 3 defaultExecutor
            (fun k => if (k <? 1)%nat then Err "busy" else Ok (JStr "done")) Z.of_nat 0
            (mkTask "fetch" (Some "read_file") [])
  = Some (Ok (JStr "done")).
Proof. reflexivity. Qed.

(* ================================================================== *)
(** * Batches *)

Section BatchFacts.

Import Executor.

Context {A : Type}.

(** X20. [createBatches] with a batch size of at least one returns (any
    fuel above the number of items is enough) batches that are
    non-empty, hold at most [batchSize] items each and, put one after
    the other, are the items in their order. *)
Theorem createBatches_partitions (items : list A) (batchSize fuel : nat) :
  (1 <= batchSize)%nat ->
  (List.length items < fuel)%nat ->
  exists batches,
    createBatches fuel items batchSize = Some batches
    /\ concat batches = items
    /\ Forall (fun b => (1 <= List.length b <= batchSize)%nat) batches.
Proof.
  intros Hsize. revert items. induction fuel as [|fuel IH]; intros items Hfuel; [lia|].
  destruct items as [|x items]; cbn [createBatches].
  - exists []. split; [reflexivity|]. split; [reflexivity | constructor].
  - destruct (IH (drop batchSize (x :: items))) as (rest & -> & Hcat & Hall).
    { rewrite length_drop. cbn in *. lia. }
    eexists. split; [reflexivity|]. split.
    + cbn [concat]. rewrite Hcat. apply take_drop.
    + constructor; [|exact Hall]. rewrite length_take. cbn [List.length]. lia.
Qed.

(** With a batch size of zero the loop of [createBatches] does not
    advance: it returns for no fuel, unless there is nothing to batch. *)
Lemma createBatches_zero (items : list A) (fuel : nat) :
  items <> [] -> createBatches fuel items 0 = None.
Proof.
  intros Hne. induction fuel as [|fuel IH]; [reflexivity|].
  destruct items as [|x items]; [congruence|]. cbn [createBatches].
  rewrite drop_0, IH. reflexivity.
Qed.

End BatchFacts.

Lemma createBatches_partitions_witness :
  exists batches,
    Executor.createBatches 8 (seq 0 7) 3 = Some batches
    /\ concat batches = seq 0 7
    /\ Forall (fun b => (1 <= List.length b <= 3)%nat) batches.
Proof. apply (createBatches_partitions (seq 0 7) 3 8); simpl; lia. Defined.

(* ================================================================== *)
(** * Sequential execution *)

Section SequentialFacts.

Import Executor.

Variable exec : ParallelExecutor.

(** The task at position [j] is completed and its result is recorded. *)
Definition completedAt (st : State) (j : nat) : Prop :=
  exists t, store st !! j = Some t /\ status t = Completed
            /\ is_Some (results st !! id t).

(** What holds between two steps of [executeSequential]: the loop
    stands before position [k]. *)
Record SeqInv (st : State) (k : nat) (todo : list nat) : Prop := {
  si_mode : mode st = SeqMode todo;
  si_todo : todo = [] \/ todo = seq k (List.length (store st) - k);
  si_started : forall i, i ∈ started st -> (i < k)%nat;
  si_running : forall i, i ∈ running st -> S i = k;
  si_before : todo <> [] -> forall j, (j < k)%nat -> j ∈ running st \/ completedAt st j;
  si_order : forall i j, i ∈ started st -> (j < i)%nat -> completedAt st j;
  si_failed : (List.length (failedTasks st) <= 1)%nat;
  si_stopped : failedTasks st <> [] -> todo = [] /\ running st = ∅;
}.

Lemma completedAt_insert (st st' : State) (i j : nat) (t' : Task) :
  j <> i -> store st' = <[i := t']> (store st) ->
  (forall x, is_Some (results st !! x) -> is_Some (results st' !! x)) ->
  completedAt st j -> completedAt st' j.
Proof.
  intros Hne Hstore Hres (t & Ht & Hs & Hr). exists t.
  rewrite Hstore, list_lookup_insert_ne by congruence. auto.
Qed.

Lemma seq_pass (clock : nat -> Z) (st st' : State) (k : nat) (todo : list nat) :
  SeqInv st k todo -> pass exec clock st = Some st' ->
  exists k' todo', SeqInv st' k' todo'.
Proof.
  intros Hinv. unfold pass. destruct (exited st); [discriminate|].
  rewrite (si_mode _ _ _ Hinv).
  destruct (bool_decide (running st = ∅)) eqn:Hidle; [|discriminate].
  apply bool_decide_eq_true in Hidle.
  destruct todo as [|i rest].
  - intros H. injection H as <-. exists k, []. destruct Hinv. now constructor.
  - destruct (si_todo _ _ _ Hinv) as [Hnil|Hseq]; [discriminate|].
    set (n := List.length (store st)) in *.
    assert (Hk : (k < n)%nat) by (destruct (n - k)%nat eqn:E; [discriminate | lia]).
    replace (n - k)%nat with (S (n - S k)) in Hseq by lia.
    cbn [seq] in Hseq. injection Hseq as -> ->.
    destruct (lookup_lt_is_Some_2 (store st) k Hk) as [t Ht].
    intros H. injection H as <-. exists (S k), (seq (S k) (n - S k)).
    unfold launchPlain. cbn [setMode store snd fst]. rewrite Ht.
    assert (Hnofail : failedTasks st = []).
    { destruct (failedTasks st) eqn:E; [reflexivity|].
      destruct (si_stopped _ _ _ Hinv); [congruence | discriminate]. }
    assert (Hdone : forall j, (j < k)%nat -> completedAt st j).
    { intros j Hj. destruct (si_before _ _ _ Hinv ltac:(discriminate) j Hj) as [Hr|Hc];
        [rewrite Hidle in Hr; set_solver | exact Hc]. }
    constructor; cbn.
    + reflexivity.
    + right. now rewrite length_insert.
    + intros i Hi. apply elem_of_union in Hi as [Hi|Hi];
        [apply elem_of_singleton in Hi; lia | specialize (si_started _ _ _ Hinv i Hi); lia].
    + intros i Hi. rewrite Hidle in Hi. set_solver.
    + intros _ j Hj. destruct (decide (j = k)) as [->|Hne]; [left; set_solver|].
      right. eapply (completedAt_insert st); [exact Hne | reflexivity | auto |].
      apply Hdone. lia.
    + intros i j Hi Hj.
      assert (Hjk : (j < k)%nat).
      { apply elem_of_union in Hi as [Hi|Hi];
          [apply elem_of_singleton in Hi; lia | specialize (si_started _ _ _ Hinv i Hi); lia]. }
      eapply (completedAt_insert st _ k); [lia | reflexivity | auto |].
      now apply Hdone.
    + rewrite Hnofail. cbn. lia.
    + rewrite Hnofail. congruence.
Qed.

Lemma seq_settle (i : nat) (s : Settlement) (st st' : State) (k : nat) (todo : list nat) :
  SeqInv st k todo -> settle exec i s st = Some st' ->
  exists k' todo', SeqInv st' k' todo'.
Proof.
  intros Hinv. unfold settle. destruct (store st !! i) as [t|] eqn:Ht; [|discriminate].
  destruct (bool_decide (i ∈ running st)) eqn:Hrun; [|discriminate].
  apply bool_decide_eq_true in Hrun. destruct (admissible exec t s); [|discriminate].
  cbn [andb]. intros H. injection H as <-.
  pose proof (si_running _ _ _ Hinv i Hrun) as Hik.
  assert (Honly : running st ∖ {[i]} = ∅).
  { apply set_eq. intros j. split; [|set_solver]. intros Hj.
    apply elem_of_difference in Hj as [Hj Hne].
    specialize (si_running _ _ _ Hinv j Hj). set_solver by lia. }
  assert (Hnofail : failedTasks st = []).
  { destruct (failedTasks st) eqn:E; [reflexivity|].
    destruct (si_stopped _ _ _ Hinv) as [_ Hempty]; [congruence|].
    rewrite Hempty in Hrun. set_solver. }
  rewrite (si_mode _ _ _ Hinv). destruct (outcome s) as [v|e] eqn:Hout.
  - exists k, todo. constructor; cbn.
    + reflexivity.
    + rewrite length_insert. exact (si_todo _ _ _ Hinv).
    + exact (si_started _ _ _ Hinv).
    + intros j Hj. rewrite Honly in Hj. set_solver.
    + intros Hne j Hj. right. destruct (decide (j = i)) as [->|Hji].
      * exists (settleTask exec s t). cbn [store results].
        rewrite list_lookup_insert_eq by (now apply lookup_lt_Some in Ht).
        split; [reflexivity|]. unfold settleTask. cbn [status id]. rewrite Hout.
        split; [reflexivity|]. rewrite lookup_insert_eq. eauto.
      * destruct (si_before _ _ _ Hinv Hne j Hj) as [Hr|Hc].
        -- specialize (si_running _ _ _ Hinv j Hr). lia.
        -- eapply (completedAt_insert st); [exact Hji | reflexivity | | exact Hc].
           cbn. intros x Hx. apply lookup_insert_is_Some. destruct (decide (id t = x)); auto.
    + intros i' j Hi' Hj. specialize (si_started _ _ _ Hinv i' Hi') as Hlt.
      eapply (completedAt_insert st _ i); [lia | reflexivity | |].
      * cbn. intros x Hx. apply lookup_insert_is_Some. destruct (decide (id t = x)); auto.
      * now apply (si_order _ _ _ Hinv i' j).
    + rewrite Hnofail. cbn. lia.
    + rewrite Hnofail. congruence.
  - exists k, []. constructor; cbn.
    + reflexivity.
    + now left.
    + exact (si_started _ _ _ Hinv).
    + intros j Hj. rewrite Honly in Hj. set_solver.
    + congruence.
    + intros i' j Hi' Hj. specialize (si_started _ _ _ Hinv i' Hi') as Hlt.
      eapply (completedAt_insert st _ i); [lia | reflexivity | auto |].
      now apply (si_order _ _ _ Hinv i' j).
    + rewrite Hnofail. cbn. lia.
    + intros _. split; [reflexivity | exact Honly].
Qed.

Lemma seq_run (acts : list Action) :
  forall (st st' : State) (k : nat) (todo : list nat),
    SeqInv st k todo -> run exec acts st = Some st' ->
    exists k' todo', SeqInv st' k' todo'.
Proof.
  induction acts as [|a acts IH]; intros st st' k todo Hinv; cbn [run].
  - intros H. injection H as <-. eauto.
  - destruct (step exec a st) as [st1|] eqn:Hstep; [|discriminate].
    intros Hrun.
    assert (H1 : exists k1 todo1, SeqInv st1 k1 todo1).
    { destruct a as [clock|i s]; cbn [step] in Hstep;
        [eapply seq_pass | eapply seq_settle]; eassumption. }
    destruct H1 as (k1 & todo1 & H1). now apply (IH st1 st' k1 todo1).
Qed.

Lemma seq_init (plan : TaskPlan) (st0 : State) :
  strategy plan = Sequential -> initState exec plan = Some st0 ->
  SeqInv st0 0 (seq 0 (List.length (tasks plan))).
Proof.
  intros Hseq. unfold initState. rewrite Hseq. intros H. injection H as <-.
  constructor; cbn.
  - reflexivity.
  - right. now rewrite Nat.sub_0_r.
  - intros i Hi. set_solver.
  - intros i Hi. set_solver.
  - intros _ j Hj. lia.
  - intros i j Hi. set_solver.
  - lia.
  - congruence.
Qed.

(** X21. A sequential execution runs the tasks one at a time in the
    order of the plan and stops at the first failure: never more than
    one task is in flight; a task is started only when every task before
    it is completed with its result recorded; at most one task fails,
    and once one has failed nothing is in flight and nothing more is
    started. *)
Theorem sequential_execution_is_in_order
    (plan : TaskPlan) (st0 : State) (acts : list Action) (st : State) :
  strategy plan = Sequential ->
  initState exec plan = Some st0 ->
  run exec acts st0 = Some st ->
  (size (running st) <= 1)%nat
  /\ (forall i j, i ∈ started st -> (j < i)%nat -> completedAt st j)
  /\ (List.length (failedTasks st) <= 1)%nat
  /\ (failedTasks st <> [] -> running st = ∅ /\ mode st = SeqMode []).
Proof.
  intros Hseq Hinit Hrun.
  destruct (seq_run acts st0 st _ _ (seq_init plan st0 Hseq Hinit) Hrun)
    as (k & todo & Hinv).
  split; [|split; [|split]].
  - destruct (decide (running st = ∅)) as [->|Hne]; [rewrite size_empty; lia|].
    apply set_choose_L in Hne as [i Hi].
    assert (Hsub : running st ⊆ {[i]}).
    { intros j Hj. pose proof (si_running _ _ _ Hinv i Hi).
      pose proof (si_running _ _ _ Hinv j Hj). set_solver by lia. }
    apply subseteq_size in Hsub. now rewrite size_singleton in Hsub.
  - exact (si_order _ _ _ Hinv).
  - exact (si_failed _ _ _ Hinv).
  - intros Hf. destruct (si_stopped _ _ _ Hinv Hf) as [-> Hr].
    split; [exact Hr | exact (si_mode _ _ _ Hinv)].
Qed.

End SequentialFacts.

Lemma sequential_execution_is_in_order_witness :
  exists st0 st,
    Executor.initState defaultExecutor (mkPlan (rev diamond) Sequential) = Some st0
    /\ Executor.run defaultExecutor
         [Executor.Loop (fun _ => 0); Executor.Settle 0 (okSettlement (JStr "data"));
          Executor.Loop (fun _ => 2)] st0 = Some st
    /\ (size (Executor.running st) <= 1)%nat
    /\ (forall i j, i ∈ Executor.started st -> (j < i)%nat -> completedAt st j)
    /\ (List.length (Executor.failedTasks st) <= 1)%nat
    /\ (Executor.failedTasks st <> [] ->
        Executor.running st = ∅ /\ Executor.mode st = Executor.SeqMode []).
Proof.
  eexists _, _. split; [reflexivity|]. split; [vm_compute; reflexivity|].
  eapply (sequential_execution_is_in_order defaultExecutor
            (mkPlan (rev diamond) Sequential) _
            [Executor.Loop (fun _ => 0); Executor.Settle 0 (okSettlement (JStr "data"));
             Executor.Loop (fun _ => 2)]).
  - reflexivity.
  - reflexivity.
  - vm_compute. reflexivity.
Defined.

(* ================================================================== *)
(** * From the planner to the executor *)

Section PlanThenExecute.

Import Planner Executor.

Lemma determinePlanStrategy_parallel (l : list Task) :
  determinePlanStrategy l = Parallel -> Forall (fun t => depsOf t = []) l.
Proof.
  unfold determinePlanStrategy. destruct (existsb hasDeps l) eqn:Hdeps.
  - cbn [negb andb]. destruct (3 <? List.length l)%nat; discriminate.
  - intros _. apply Forall_forall. intros t Ht.
    assert (Hno : hasDeps t = false).
    { destruct (hasDeps t) eqn:E; [|reflexivity].
      assert (existsb hasDeps l = true)
        by (apply existsb_exists; exists t; split; [now apply list_elem_of_In | exact E]).
      congruence. }
    unfold hasDeps in Hno. unfold depsOf.
    destruct (dependencies t) as [[|d ds]|]; [reflexivity | discriminate | reflexivity].
Qed.

(** Every dependency of every task names a task of the list. *)
Definition closedPlan (l : list Task) : Prop :=
  forall t d, t ∈ l -> d ∈ depsOf t -> d ∈ ids l.

(** X22. A plan that went through [optimizePlan] is executed with its
    dependencies respected, whatever strategy [optimizePlan] gave it:
    when the identifiers are distinct and every dependency names a task
    of the plan, no task of any execution begins before each of its
    dependencies has a recorded result. (In a parallel plan no task has
    dependencies; a mixed execution checks them; a sequential one runs
    the tasks in the sorted order and stops at the first failure.) *)
Theorem optimized_plan_runs_respect_dependencies
    (fuel : nat) (plan plan' : TaskPlan) (exec : ParallelExecutor)
    (st0 : State) (acts : list Action) (st : State) :
  NoDup (ids (tasks plan)) ->
  closedPlan (tasks plan) ->
  (List.length (tasks plan) < fuel)%nat ->
  optimizePlan fuel plan = Some (Ok plan') ->
  initState exec plan' = Some st0 ->
  run exec acts st0 = Some st ->
  startsRespectDependencies st.
Proof.
  intros Hnd Hclosed Hfuel Hopt Hinit Hrun. unfold optimizePlan in Hopt.
  pose proof (topologicalSort_spec (tasks plan) Hnd fuel Hfuel) as Hspec.
  destruct (topologicalSort fuel (tasks plan)) as [[l|msg]|]; try discriminate.
  destruct Hspec as (Hperm & _ & Hord). injection Hopt as <-.
  destruct (initState_store exec _ st0 Hinit) as (Hstore & Hstarted & _).
  cbn [tasks] in Hstore.
  pose proof (run_shape exec acts st0 st Hrun) as Hshape. rewrite Hstore in Hshape.
  destruct (determinePlanStrategy l) eqn:Hstrategy.
  - (* sequential *)
    match type of Hinit with
    | initState _ ?p = _ => pose proof (seq_init exec p st0 eq_refl Hinit) as Hinv0
    end.
    destruct (seq_run exec acts st0 st _ _ Hinv0 Hrun) as (k & todo & Hinv).
    intros i x ds d Hi Hsh Hd. rewrite Hshape in Hsh.
    apply shape_lookup_inv in Hsh as (t & Ht & _ & <-).
    assert (Hin : d ∈ ids (tasks plan)).
    { apply (Hclosed t d); [|exact Hd]. rewrite <- Hperm. apply list_elem_of_lookup. eauto. }
    destruct (Hord i t d Ht Hd Hin) as (j & Hj & Hdj).
    destruct (si_order _ _ _ Hinv i j Hi Hj) as (t' & Ht' & _ & Hres).
    assert (Hid : id t' = d).
    { apply shape_lookup in Ht'. rewrite Hshape in Ht'.
      apply shape_lookup_inv in Ht' as (u & Hu & Hidu & _).
      unfold ids in Hdj. rewrite list_lookup_fmap, Hu in Hdj. cbn in Hdj. congruence. }
    now rewrite <- Hid.
  - (* parallel *)
    pose proof (determinePlanStrategy_parallel l Hstrategy) as Hnodeps.
    intros i x ds d _ Hsh Hd. rewrite Hshape in Hsh.
    apply shape_lookup_inv in Hsh as (t & Ht & _ & Hds).
    rewrite Forall_forall in Hnodeps.
    rewrite (Hnodeps t) in Hds by (apply list_elem_of_lookup; eauto).
    subst ds. inversion Hd.
  - (* mixed *)
    apply (run_mixed_respects exec acts st0 st); [|exact Hrun|].
    + unfold initState in Hinit. cbn [strategy] in Hinit. now inversion Hinit.
    + intros i x ds d Hi. rewrite Hstarted in Hi. set_solver.
Qed.

End PlanThenExecute.

Lemma optimized_plan_runs_respect_dependencies_witness :
  exists plan' st0 st,
    Planner.optimizePlan 4 (mkPlan diamond Sequential) = Some (Ok plan')
    /\ Executor.initState defaultExecutor plan' = Some st0
    /\ Executor.run defaultExecutor
         [Executor.Loop (fun _ => 0); Executor.Settle 0 (okSettlement (JStr "data"));
          Executor.Loop (fun _ => 2)] st0 = Some st
    /\ startsRespectDependencies st.
Proof.
  eexists _, _, _. split; [vm_compute; reflexivity|]. split; [reflexivity|].
  split; [vm_compute; reflexivity|].
  eapply (optimized_plan_runs_respect_dependencies 4 (mkPlan diamond Sequential) _
            defaultExecutor _
            [Executor.Loop (fun _ => 0); Executor.Settle 0 (okSettlement (JStr "data"));
             Executor.Loop (fun _ => 2)]).
  - apply diamond_unique_ids.
  - intros t d Ht Hd. apply (bool_decide_unpack _).
    repeat (apply elem_of_cons in Ht as [-> | Ht];
            [cbn in Hd; repeat (apply elem_of_cons in Hd as [-> | Hd]; [vm_compute; reflexivity|]);
             inversion Hd|]).
    inversion Ht.
  - vm_compute. lia.
  - vm_compute. reflexivity.
  - reflexivity.
  - vm_compute. reflexivity.
Defined.

(** Without [optimizePlan] a sequential execution takes the tasks as the
    plan lists them: here [share] starts before [build], which it needs. *)
Example sequential_unsorted_plan :
  exists st0 st,
    Executor.initState defaultExecutor (mkPlan dependentPair Sequential) = Some st0
    /\ Executor.run defaultExecutor [Executor.Loop (fun _ => 0)] st0 = Some st
    /\ Executor.started st = {[0%nat]}
    /\ Executor.results st = ∅.
Proof. eexists _, _. repeat split; vm_compute; reflexivity. Qed.

(* ================================================================== *)
(** * Parallel execution: the tasks in progress *)

Section ParallelStatus.

Import Executor.

Lemma filter_count_le (P : Task -> bool) (l : list Task) :
  forall R : gset nat,
    (forall i t, l !! i = Some t -> P t = true -> i ∈ R) ->
    (List.length (List.filter P l) <= size R)%nat.
Proof.
  induction l as [|x l IH] using rev_ind; intros R HR; [cbn; lia|].
  rewrite List.filter_app, length_app.
  assert (Hl : (List.length (List.filter P l) <= size (R ∖ {[List.length l]}))%nat).
  { apply IH. intros i t Hi Ht. apply elem_of_difference. split.
    - apply (HR i t); [|exact Ht]. now rewrite lookup_app_l by (now apply lookup_lt_Some in Hi).
    - apply lookup_lt_Some in Hi. set_solver by lia. }
  cbn [List.filter]. destruct (P x) eqn:Hx; cbn [List.length].
  - assert (Hn : List.length l ∈ R).
    { apply (HR _ x); [|exact Hx]. now rewrite list_lookup_middle. }
    assert (Hsz : size R = S (size (R ∖ {[List.length l]}))).
    { rewrite (union_difference_L {[List.length l]} R) at 1 by set_solver.
      rewrite size_union by set_solver. now rewrite size_singleton. }
    lia.
  - assert (size (R ∖ {[List.length l]}) <= size R)%nat
      by (apply subseteq_size; set_solver).
    lia.
Qed.

(** Every task whose status is ['in_progress'] is in flight. *)
Definition inProgressRunning (st : State) : Prop :=
  forall i t, store st !! i = Some t -> status t = InProgress -> i ∈ running st.

Lemma launchPlain_inProgress (st : State) (job : Z * nat) :
  inProgressRunning st -> inProgressRunning (launchPlain st job).
Proof.
  intros Hst. unfold launchPlain. destruct (store st !! job.2) as [t|] eqn:Ht; [|exact Hst].
  intros i u. cbn. destruct (decide (i = job.2)) as [->|Hne].
  - intros _ _. set_solver.
  - rewrite list_lookup_insert_ne by congruence. intros Hi Hs.
    specialize (Hst i u Hi Hs). set_solver.
Qed.

Lemma foldl_launchPlain_inProgress (l : list (Z * nat)) :
  forall st, inProgressRunning st -> inProgressRunning (foldl launchPlain st l).
Proof.
  induction l as [|job l IH]; intros st Hst; [exact Hst|].
  cbn [foldl]. apply IH. now apply launchPlain_inProgress.
Qed.

Lemma parallel_step_inProgress (exec : ParallelExecutor) (a : Action) (st st' : State) :
  (exists batches, mode st = ParMode batches) -> inProgressRunning st ->
  step exec a st = Some st' ->
  (exists batches, mode st' = ParMode batches) /\ inProgressRunning st'.
Proof.
  intros [batches Hmode] Hst. destruct a as [clock|i s]; cbn [step].
  - unfold pass. destruct (exited st); [discriminate|]. rewrite Hmode.
    destruct (bool_decide (running st = ∅)); [|discriminate].
    destruct batches as [|batch rest]; intros H; injection H as <-.
    + split; [eauto | exact Hst].
    + split.
      * destruct (foldl_launchPlain_running (jobs clock batch) (setMode (ParMode rest) st))
          as [_ ->]. cbn. eauto.
      * apply foldl_launchPlain_inProgress. exact Hst.
  - unfold settle. destruct (store st !! i) as [t|] eqn:Ht; [|discriminate].
    destruct (bool_decide (i ∈ running st) && admissible exec t s); [|discriminate].
    intros H. injection H as <-. cbn. rewrite Hmode. split.
    + destruct (outcome s); eauto.
    + intros j u. cbn [store running]. destruct (decide (j = i)) as [->|Hne].
      * rewrite list_lookup_insert_eq by (now apply lookup_lt_Some in Ht).
        intros H. injection H as <-. unfold settleTask. cbn.
        destruct (outcome s); discriminate.
      * rewrite list_lookup_insert_ne by congruence. intros Hj Hs.
        specialize (Hst j u Hj Hs). set_solver.
Qed.

(** X23. In a parallel execution of a plan none of whose tasks is
    marked in progress beforehand, the number of tasks whose status is
    ['in_progress'] never exceeds [maxParallelTasks], at any point of any
    run: the bound that a mixed execution misses holds here. *)
Theorem parallel_execution_keeps_limit
    (exec : ParallelExecutor) (plan : TaskPlan) (st0 : State)
    (acts : list Action) (st : State) :
  strategy plan = Parallel ->
  Forall (fun t => status t <> InProgress) (tasks plan) ->
  initState exec plan = Some st0 ->
  run exec acts st0 = Some st ->
  (inProgressCount st <= maxParallelTasks exec)%nat.
Proof.
  intros Hpar Hfresh Hinit Hrun.
  pose proof (parallel_mode_keeps_limit exec plan st0 acts st Hpar Hinit Hrun) as Hsize.
  assert (Hinv0 : (exists batches, mode st0 = ParMode batches) /\ inProgressRunning st0).
  { unfold initState in Hinit. rewrite Hpar in Hinit.
    destruct (createBatches _ _ _) as [batches|]; [|discriminate].
    injection Hinit as <-. split; [cbn; eauto|]. intros i t Hi Hs. cbn in Hi.
    rewrite Forall_forall in Hfresh. exfalso. apply (Hfresh t); [|exact Hs].
    apply list_elem_of_lookup. eauto. }
  assert (Hinv : (exists batches, mode st = ParMode batches) /\ inProgressRunning st).
  { clear Hsize Hinit. revert st0 Hrun Hinv0.
    induction acts as [|a acts IH]; intros st0 Hrun Hinv0; cbn [run] in Hrun.
    - now injection Hrun as <-.
    - destruct (step exec a st0) as [st1|] eqn:Hstep; [|discriminate].
      apply (IH st1 Hrun). destruct Hinv0 as [Hm Hs].
      now apply (parallel_step_inProgress exec a st0). }
  destruct Hinv as [_ Hinv]. unfold inProgressCount.
  etrans; [|exact Hsize]. apply filter_count_le. intros i t Hi Hs.
  apply (Hinv i t Hi). now apply bool_decide_eq_true in Hs.
Qed.

End ParallelStatus.

Lemma parallel_execution_keeps_limit_witness :
  exists st0 st,
    Executor.initState defaultExecutor (mkPlan sixIndependent Parallel) = Some st0
    /\ Executor.run defaultExecutor [Executor.Loop (fun _ => 0)] st0 = Some st
    /\ (Executor.inProgressCount st <= 5)%nat.
Proof.
  eexists _, _. split; [reflexivity|]. split; [vm_compute; reflexivity|].
  eapply (parallel_execution_keeps_limit defaultExecutor (mkPlan sixIndependent Parallel) _
            [Executor.Loop (fun _ => 0)]).
  - reflexivity.
  - repeat constructor; discriminate.
  - reflexivity.
  - vm_compute. reflexivity.
Defined.

(* ================================================================== *)
(** * Mixed execution: what success means *)

Section MixedSuccess.

Import Executor.

(** X24. When a mixed execution has ended and [executePlan] reports
    success, every task of the plan was executed and is ['completed']
    with its result in the results map: none failed, none was skipped. *)
Theorem mixed_success_means_all_completed
    (exec : ParallelExecutor) (plan : TaskPlan) (st0 : State)
    (acts : list Action) (st : State) :
  (0 < maxParallelTasks exec)%nat ->
  strategy plan = Mixed ->
  NoDup (ids (tasks plan)) ->
  initState exec plan = Some st0 ->
  run exec acts st0 = Some st ->
  exited st = true ->
  reportSuccess (report plan st) = true ->
  List.length (store st) = List.length (tasks plan)
  /\ forall i t, store st !! i = Some t ->
       i ∈ started st /\ status t = Completed /\ is_Some (results st !! id t).
Proof.
  intros Hmax Hmixed Hnd Hinit Hrun Hex Hok.
  destruct (init_good (tasks plan) Hnd exec plan st0 eq_refl Hmixed Hinit) as [Hgood0 _].
  destruct (run_good (tasks plan) Hnd exec acts Hmax st0 st Hgood0 Hrun) as [Hgood _].
  destruct (good_final (tasks plan) Hnd st Hgood Hex) as (_ & _ & Hall).
  assert (Hnone : failedTasks st = []).
  { unfold report in Hok. cbn in Hok. apply Nat.eqb_eq in Hok.
    now destruct (failedTasks st). }
  split.
  - pose proof (run_shape exec acts st0 st Hrun) as Hshape.
    destruct (initState_store exec plan st0 Hinit) as (Hstore & _).
    rewrite Hstore in Hshape. apply (f_equal (@List.length _)) in Hshape.
    unfold shape in Hshape. now rewrite !length_fmap in Hshape.
  - intros i t Ht. destruct (Hall i t Ht) as [[Hs [Hc|[_ Hf]]] | (_ & _ & _ & Hf & _)].
    + split; [exact Hs | exact Hc].
    + rewrite Hnone in Hf. inversion Hf.
    + rewrite Hnone in Hf. inversion Hf.
Qed.

End MixedSuccess.

Lemma mixed_success_means_all_completed_witness :
  exists st0 st,
    Executor.initState defaultExecutor (mkPlan [mkTask "fetch" (Some "read_file") []] Mixed)
    = Some st0
    /\ Executor.run defaultExecutor
         [Executor.Loop (fun _ => 0); Executor.Settle 0 (okSettlement (JStr "data"));
          Executor.Loop (fun _ => 2)] st0 = Some st
    /\ List.length (Executor.store st) = 1%nat
    /\ forall i t, Executor.store st !! i = Some t ->
         i ∈ Executor.started st /\ status t = Completed
         /\ is_Some (Executor.results st !! id t).
Proof.
  eexists _, _. split; [reflexivity|]. split; [vm_compute; reflexivity|].
  eapply (mixed_success_means_all_completed defaultExecutor
            (mkPlan [mkTask "fetch" (Some "read_file") []] Mixed) _
            [Executor.Loop (fun _ => 0); Executor.Settle 0 (okSettlement (JStr "data"));
             Executor.Loop (fun _ => 2)]).
  - vm_compute. lia.
  - reflexivity.
  - apply (bool_decide_unpack _). vm_compute. reflexivity.
  - reflexivity.
  - vm_compute. reflexivity.
  - vm_compute. reflexivity.
  - vm_compute. reflexivity.
Defined.

(* ================================================================== *)
(** * The reflector's answers *)

Section ReflectorAnswers.

Import Reflector.




(** X26. However much [evaluatePlan] is told, it never reports a score
    of 0: a score that is 0, absent or otherwise falsy in the answer is
    replaced by 0.5, and 0.5 is also the score when the backend or the
    parse fails; [concerns] and [improvements] are never falsy either. *)
Theorem evaluatePlan_never_scores_zero
    (env : Env) (ts : list Task) (availableTools : list string) :
  let evaluation := evaluatePlan env ts availableTools in
  Js.truthy (score evaluation) = true
  /\ score evaluation <> JNum 0
  /\ Js.truthy (concerns evaluation) = true
  /\ Js.truthy (improvements evaluation) = true.
Proof.
  assert (HorElse : forall v d, Js.truthy d = true -> Js.truthy (orElse v d) = true).
  { intros [x|] d Hd; cbn [orElse]; [|exact Hd]. now destruct (Js.truthy x) eqn:Hx. }
  assert (Hzero : forall v, Js.truthy v = true -> v <> JNum 0)
    by (intros v Hv ->; discriminate).
  intros evaluation. subst evaluation. unfold evaluatePlan.
  destruct (rbind _ _) as [parsed|msg]; cbn [score concerns improvements].
  - split; [|split; [apply Hzero|split]]; now apply HorElse.
  - repeat split. discriminate.
Qed.

End ReflectorAnswers.

(** A backend that rates every plan 0. *)
Definition harshEnv : Reflector.Env :=
  {| Reflector.callLLM := fun _ => Ok "{}";
     Reflector.jsonParse := fun _ => Some (JObj [("score", JNum 0)]);
     Reflector.stringifyPretty := fun _ => "";
     Reflector.toNumber := fun _ => None |}.

Example evaluatePlan_zero_becomes_half :
  Reflector.score (Reflector.evaluatePlan harshEnv [] []) = JNum (1 # 2).
Proof. reflexivity. Qed.

Section TwoExtractors.

(** X27. The planner's [extractJSON] (validation.ts) and the
    reflector's own [extractJSON] accept the same responses: one finds
    no JSON exactly when the other does; and on a response without a
    backquote they return the same text. *)
Theorem extractors_accept_the_same_responses (response : string) :
  (Reflector.extractJSON response = Err "No JSON found in response"
   <-> Validation.extractJSON response = None)
  /\ (lacks "`" response = true ->
      forall m, Reflector.extractJSON response = Ok m
                <-> Validation.extractJSON response = Some m).
Proof.
  unfold Reflector.extractJSON, Validation.extractJSON. split.
  - destruct (Validation.firstFenced response) as [g|] eqn:Hf.
    + apply firstFenced_Some in Hf as (pre & body & post & -> & Hresp).
      assert (Hg : Validation.greedyObject response <> None).
      { rewrite Hresp. rewrite append_String, append_assoc, append_String, append_empty_l.
        apply greedyObject_found. }
      destruct (Validation.greedyObject response); [|congruence].
      split; discriminate.
    + destruct (Validation.greedyObject response); split; congruence.
  - intros Hbq m. rewrite (firstFenced_backquote _ Hbq).
    destruct (Validation.greedyObject response); split; congruence.
Qed.

End TwoExtractors.

Lemma extractors_accept_the_same_responses_witness :
  (Reflector.extractJSON "see {a} and b" = Err "No JSON found in response"
   <-> Validation.extractJSON "see {a} and b" = None)
  /\ (lacks "`" "see {a} and b" = true ->
      forall m, Reflector.extractJSON "see {a} and b" = Ok m
                <-> Validation.extractJSON "see {a} and b" = Some m).
Proof. apply (extractors_accept_the_same_responses "see {a} and b"). Defined.

(* ================================================================== *)
(** * Sequential processing: one call per item *)

Section RLMSequentialFacts.

Import RLM.


End RLMSequentialFacts.


Example sequential_processing_eleven_calls :
  option_map RLM.totalCalls
    (RLM.trajectory
       (RLM.execute (RLM.newExecutor {| RLM.cfgMaxRecursionDepth := None;
                                        RLM.cfgMaxExecutionTime := None |})
          (steadyEnv 1 "noted") "Sum the rows" elevenItems RLM.SequentialProcessing))
  = Some 11%nat.
Proof. vm_compute. reflexivity. Qed.

(* ================================================================== *)
(** * Map-reduce: one call per chunk and one to reduce *)

Section RLMMapReduceFacts.

Import RLM.

(** X29. Map-reduce over a large variable that splits into [n] chunks
    ([n] other than one) starts one call per chunk and, when all of them
    succeed, one call to reduce: the trajectory never holds more than
    [n + 1] calls, and exactly [n + 1] when [execute] succeeds. *)
Theorem map_reduce_calls_per_chunk
    (exec : Executor) (env : Env) (task : string) (vars : list (string * JSON))
    (name : string) (data : JSON) :
  findLargestVariable env vars = Some (name, data) ->
  List.length (chunkData data) <> 1%nat ->
  exists traj,
    trajectory (execute exec env task vars MapReduce) = Some traj
    /\ (totalCalls traj <= List.length (chunkData data) + 1)%nat
    /\ (success (execute exec env task vars MapReduce) = true ->
        totalCalls traj = (List.length (chunkData data) + 1)%nat).
Proof.
  intros Hlargest Hchunks.
  destruct (executeRun_trajectory exec env task vars MapReduce)
    as (traj & Htraj & _ & Htotal & _ & Hout).
  exists traj. split; [exact Htraj|]. rewrite Htotal.
  cbn [processWithStrategy] in *. unfold mapReduceStrategy in *.
  cbn [rootContext variables] in *. rewrite findLargest_hold, Hlargest in *.
  apply Nat.eqb_neq in Hchunks. rewrite Hchunks in *.
  fold (rootContext vars) in Hout |- *.
  set (jobs := imap (mapJob exec env task (rootContext vars) name
                       (List.length (chunkData data))) (chunkData data)) in *.
  assert (Hjobs : Forall (fun job => forall run, oneMore run (job run)) jobs).
  { apply Forall_forall. intros job Hjob.
    apply elem_of_lookup_imap_1 in Hjob as (idx & chunk & -> & _).
    intros run. unfold mapJob. apply launchCall_count. }
  assert (Hn : List.length jobs = List.length (chunkData data))
    by (unfold jobs; apply length_imap).
  destruct (launchAll_count jobs Hjobs (startRun env)) as (_ & Hle & Heq).
  destruct (launchAll jobs (startRun env)) as [ls run1]. cbn [fst snd] in *.
  destruct (awaitAll_count env ls run1) as (Hsame & _ & Hok).
  destruct (awaitAll env ls run1) as [[mapResults|e] run2]; cbn [fst snd] in *.
  - specialize (Heq (Hok mapResults eq_refl)).
    match goal with
    | |- context [directCall exec env ?text ?c run2] =>
        pose proof (directCall_count exec env text c run2) as [Hle' Hok'];
        destruct (directCall exec env text c run2) as [[s|e] run3]
    end; cbn [fst snd] in *.
    + specialize (Hok' s eq_refl). cbn in Heq, Hle. split; [lia|]. intros _. lia.
    + cbn in Heq, Hle. split; [lia|]. destruct Hout as [Hfail _]. rewrite Hfail. discriminate.
  - cbn in Hle. split; [lia|]. destruct Hout as [Hfail _]. rewrite Hfail. discriminate.
Qed.

End RLMMapReduceFacts.

Lemma map_reduce_calls_per_chunk_witness :
  exists traj,
    RLM.trajectory
      (RLM.execute (RLM.newExecutor {| RLM.cfgMaxRecursionDepth := None;
                                       RLM.cfgMaxExecutionTime := None |})
         (steadyEnv 1 "noted") "Sum the rows" elevenItems RLM.MapReduce)
    = Some traj
    /\ (RLM.totalCalls traj
        <= List.length (RLM.chunkData (JArr (replicate 11 (JStr "row")))) + 1)%nat
    /\ (RLM.success
          (RLM.execute (RLM.newExecutor {| RLM.cfgMaxRecursionDepth := None;
                                           RLM.cfgMaxExecutionTime := None |})
             (steadyEnv 1 "noted") "Sum the rows" elevenItems RLM.MapReduce)
        = true ->
        RLM.totalCalls traj
        = (List.length (RLM.chunkData (JArr (replicate 11 (JStr "row")))) + 1)%nat).
Proof.
  apply (map_reduce_calls_per_chunk
           (RLM.newExecutor {| RLM.cfgMaxRecursionDepth := None;
                               RLM.cfgMaxExecutionTime := None |})
           (steadyEnv 1 "noted") "Sum the rows" elevenItems "rows"
           (JArr (replicate 11 (JStr "row")))).
  - reflexivity.
  - vm_compute. lia.
Defined.

Example map_reduce_eleven_rows :
  option_map RLM.totalCalls
    (RLM.trajectory
       (RLM.execute (RLM.newExecutor {| RLM.cfgMaxRecursionDepth := None;
                                        RLM.cfgMaxExecutionTime := None |})
          (steadyEnv 1 "noted") "Sum the rows" elevenItems RLM.MapReduce))
  = Some 3%nat.
Proof. vm_compute. reflexivity. Qed.
